(** * SSEResponseParser: a shallow embedding of [lib/SSEResponseParser.ts]

    The parser turns a chunked byte stream (Server-Sent Events wire format)
    into a sequence of messages.  The TypeScript source is written with
    generators; each generator is represented here by its suspension points
    (one constructor per [yield]) together with the locals that are live
    there, and [next] resumes it exactly as [Generator.prototype.next] does.
    The compiled JavaScript copy of the parser differs in one argument of
    [fieldValue] and is covered by the parameter [Build].

    Bytes are integers in [0, 255] ([Z]); JavaScript strings produced by
    [TextDecoder] are sequences of Unicode scalar values ([list Z]); a
    [Message] is an ordinary JavaScript object living in a heap, so that
    aliasing between [ctx.message] and a yielded message is visible. *)

From Stdlib Require Import String Ascii.
From Stdlib Require Import ZArith List Bool Lia Arith.
Import ListNotations.

Local Open Scope Z_scope.

(** ** Bytes and text *)

Definition chunk := list Z.
Definition text := list Z.

Definition COLON : Z := 58.
Definition CR : Z := 0x0D.
Definition LF : Z := 0x0A.
Definition SPACE : Z := 0x20.

Definition codes (s : string) : list Z :=
  map (fun a => Z.of_nat (nat_of_ascii a)) (list_ascii_of_string s).

Fixpoint text_eqb (a b : text) : bool :=
  match a, b with
  | [], [] => true
  | x :: a', y :: b' => (x =? y) && text_eqb a' b'
  | _, _ => false
  end.

Definition notNameChar (ch : Z) : bool :=
  (ch =? COLON) || (ch =? CR) || (ch =? LF).

Definition lineEndChar (ch : Z) : bool :=
  (ch =? CR) || (ch =? LF).

(** [TypedArray.prototype.findIndex]; [None] stands for [-1]. *)
Fixpoint findIndex (p : Z -> bool) (l : list Z) : option nat :=
  match l with
  | [] => None
  | x :: r => if p x then Some O
              else match findIndex p r with
                   | Some i => Some (S i)
                   | None => None
                   end
  end.

(** [subarray(pos)] and [subarray(0, n)]. *)
Definition subarray_from (pos : nat) (c : chunk) : chunk := skipn pos c.
Definition subarray_to (n : nat) (c : chunk) : chunk := firstn n c.

(** ** TextDecoder

    [new TextDecoder()] is the UTF-8 decoder of the WHATWG Encoding
    standard with [fatal = false] (malformed input yields U+FFFD) and
    [ignoreBOM = false] (a leading U+FEFF is dropped from the output). *)

Record Utf8 := mkUtf8 {
  code_point : Z;
  bytes_seen : Z;
  bytes_needed : Z;
  lower_boundary : Z;
  upper_boundary : Z
}.

Definition utf8_new : Utf8 := mkUtf8 0 0 0 0x80 0xBF.

Definition REPLACEMENT : Z := 0xFFFD.
Definition BOM : Z := 0xFEFF.

Definition in_range (lo hi b : Z) : bool := (lo <=? b) && (b <=? hi).

(** The handler's step for a byte when no continuation byte is pending. *)
Definition utf8_lead (b : Z) : Utf8 * list Z :=
  if in_range 0x00 0x7F b then (utf8_new, [b])
  else if in_range 0xC2 0xDF b then
    (mkUtf8 (Z.land b 0x1F) 0 1 0x80 0xBF, [])
  else if in_range 0xE0 0xEF b then
    (mkUtf8 (Z.land b 0xF) 0 2
            (if b =? 0xE0 then 0xA0 else 0x80)
            (if b =? 0xED then 0x9F else 0xBF), [])
  else if in_range 0xF0 0xF4 b then
    (mkUtf8 (Z.land b 0x7) 0 3
            (if b =? 0xF0 then 0x90 else 0x80)
            (if b =? 0xF4 then 0x8F else 0xBF), [])
  else (utf8_new, [REPLACEMENT]).

(** One byte through the handler.  A byte outside the expected range ends
    the pending sequence with an error and is processed again from the
    initial state. *)
Definition utf8_byte (s : Utf8) (b : Z) : Utf8 * list Z :=
  if bytes_needed s =? 0 then utf8_lead b
  else if in_range (lower_boundary s) (upper_boundary s) b then
    let cp := Z.lor (Z.shiftl (code_point s) 6) (Z.land b 0x3F) in
    let seen := bytes_seen s + 1 in
    if seen =? bytes_needed s then (utf8_new, [cp])
    else (mkUtf8 cp seen (bytes_needed s) 0x80 0xBF, [])
  else
    let '(s', out) := utf8_lead b in (s', REPLACEMENT :: out).

Fixpoint utf8_run (s : Utf8) (bs : list Z) : Utf8 * list Z :=
  match bs with
  | [] => (s, [])
  | b :: r =>
      let '(s1, o1) := utf8_byte s b in
      let '(s2, o2) := utf8_run s1 r in
      (s2, o1 ++ o2)
  end.

(** End of queue: a pending sequence is an error. *)
Definition utf8_end (s : Utf8) : list Z :=
  if bytes_needed s =? 0 then [] else [REPLACEMENT].

Record TextDecoder := mkDecoder {
  handler : Utf8;
  bom_seen : bool
}.

Definition new_TextDecoder : TextDecoder := mkDecoder utf8_new false.

(** "serialize I/O queue": the first scalar value ever output by the
    decoder is dropped when it is U+FEFF. *)
Definition serialize (seen : bool) (out : list Z) : bool * text :=
  if seen then (true, out)
  else match out with
       | [] => (false, [])
       | c :: r => (true, if c =? BOM then r else c :: r)
       end.

(** [decoder.decode(bytes, {stream: true})] *)
Definition decode_stream (d : TextDecoder) (bs : list Z) : TextDecoder * text :=
  let '(h, out) := utf8_run (handler d) bs in
  let '(seen, t) := serialize (bom_seen d) out in
  (mkDecoder h seen, t).

(** [decoder.decode()]: flush. *)
Definition decode_flush (d : TextDecoder) : text :=
  snd (serialize (bom_seen d) (utf8_end (handler d))).

(** ** Message objects

    A [Message] is created by the literal [{}], so it is an ordinary object
    whose prototype is [Object.prototype].  Its own properties are kept in
    creation order. *)

Definition Message := list (text * text).

Definition PROTO : text := codes "__proto__".

Fixpoint own_get (o : Message) (k : text) : option text :=
  match o with
  | [] => None
  | (k', v) :: r => if text_eqb k' k then Some v else own_get r k
  end.

Fixpoint own_put (o : Message) (k v : text) : Message :=
  match o with
  | [] => [(k, v)]
  | (k', v') :: r =>
      if text_eqb k' k then (k', v) :: r else (k', v') :: own_put r k v
  end.

(** [o[k] = v] with [v] a string.  An existing own property keeps its
    place; a new one is created last.  The key [__proto__] reaches the
    accessor inherited from [Object.prototype], whose setter ignores a
    value that is neither an object nor [null]: nothing is stored. *)
Definition obj_set (o : Message) (k v : text) : Message :=
  if text_eqb k PROTO then o else own_put o k v.

(** [o['data'] || ''] *)
Definition get_or_empty (o : Message) (k : text) : text :=
  match own_get o k with
  | Some v => v
  | None => []
  end.

(** Array index: the canonical decimal form of an integer below 2^32 - 1. *)
Fixpoint digits_value (acc : Z) (t : text) : option Z :=
  match t with
  | [] => Some acc
  | c :: r => if in_range 48 57 c then digits_value (acc * 10 + (c - 48)) r
              else None
  end.

Definition array_index (k : text) : option Z :=
  match k with
  | [] => None
  | c :: r =>
      if (c =? 48) && (0 <? Z.of_nat (length r)) then None
      else match digits_value 0 k with
           | Some n => if n <? 4294967295 then Some n else None
           | None => None
           end
  end.

Fixpoint insert_index (n : Z) (k : text) (l : list (Z * text)) : list (Z * text) :=
  match l with
  | [] => [(n, k)]
  | (m, k') :: r => if n <? m then (n, k) :: l else (m, k') :: insert_index n k r
  end.

Fixpoint index_keys (o : Message) : list (Z * text) :=
  match o with
  | [] => []
  | (k, _) :: r =>
      match array_index k with
      | Some n => insert_index n k (index_keys r)
      | None => index_keys r
      end
  end.

Fixpoint string_keys (o : Message) : list text :=
  match o with
  | [] => []
  | (k, _) :: r =>
      match array_index k with
      | Some _ => string_keys r
      | None => k :: string_keys r
      end
  end.

(** [Object.keys(o)], that is OrdinaryOwnPropertyKeys: the keys that are
    array indices in ascending numeric order, then the other keys in
    creation order. *)
Definition Object_keys (o : Message) : list text :=
  map snd (index_keys o) ++ string_keys o.

(** ** The heap of messages *)

Definition loc := nat.
Definition Heap := list Message.

Definition heap_get (h : Heap) (l : loc) : Message := nth l h [].

Fixpoint heap_put (h : Heap) (l : loc) (m : Message) : Heap :=
  match h, l with
  | [], _ => []
  | _ :: r, O => m :: r
  | x :: r, S l' => x :: heap_put r l' m
  end.

(** Evaluation of [{}]: a new empty object. *)
Definition heap_alloc (h : Heap) : Heap * loc := (h ++ [[]], length h).

(** ** Parser states

    A [ParserState] is a generator function of the source.
    [skipLF nextState] is the anonymous generator function returned by
    [skipLFAfterCR] when the line ended with CR. *)

Inductive ParserState :=
| fieldStart
| fieldName
| fieldValue (name : text)
| skipComment
| skipLF (nextState : ParserState).

Definition skipLFAfterCR (char : Z) (nextState : ParserState) : ParserState :=
  if char =? LF then nextState else skipLF nextState.

Record ParserCtx := mkCtx {
  message : loc;
  decoder : TextDecoder
}.

Record ParserInput := mkInput {
  in_chunk : chunk;
  in_pos : nat
}.

Record ParserTransition := mkTransition {
  nextState : ParserState;
  pos : nat
}.

Record ParserOutput := mkOutput {
  out_message : option loc;
  out_pos : option nat
}.

(** The two predicates handed to [collectUntilChar]. *)
Inductive Predicate := is_notNameChar | is_lineEndChar.

Definition holds (p : Predicate) : Z -> bool :=
  match p with
  | is_notNameChar => notNameChar
  | is_lineEndChar => lineEndChar
  end.

(** The repository holds the parser twice: the TypeScript source, whose
    [fieldValue] scans with [lineEndChar], and a compiled JavaScript copy
    whose [fieldValue] scans with [notNameChar]. *)
Inductive Build := lib_ts | compiled_js.

Definition value_predicate (b : Build) : Predicate :=
  match b with
  | lib_ts => is_lineEndChar
  | compiled_js => is_notNameChar
  end.

(** Who delegated to [collectUntilChar] with [yield*]. *)
Inductive Caller := for_fieldName | for_fieldValue (name : text).

(** A generator object, by suspension point. *)
Inductive Generator :=
| created (s : ParserState)
| fieldStart_yield0
| fieldStart_yield1 (char : Z) (pos : nat)
| skipLF_yield0 (nextState : ParserState)
| skipComment_yield0
| skipComment_yield1
| collectUntilChar_yield0 (from : Caller) (predicate : Predicate) (skipLeadingSpace : bool)
| collectUntilChar_yield1 (from : Caller) (predicate : Predicate) (skipLeadingSpace : bool)
                 (buffer : text) (remainingChunk : chunk).

(** Result of [next]: [done = false] with a [ParserOutput] and the
    generator suspended again, or [done = true] with a [ParserTransition]. *)
Inductive IteratorResult :=
| yielded (g : Generator) (out : ParserOutput)
| returned (t : ParserTransition).

Definition DATA : text := codes "data".

(** The body of [fieldName] after [collectUntilChar] has returned. *)
Definition fieldName_rest (h : Heap) (ctx : ParserCtx)
    (endingChar : Z) (buffer : text) (pos : nat)
  : Heap * ParserCtx * IteratorResult :=
  if (endingChar =? LF) || (endingChar =? CR) then
    (heap_put h (message ctx) (obj_set (heap_get h (message ctx)) buffer []),
     ctx, returned (mkTransition (skipLFAfterCR endingChar fieldStart) pos))
  else
    (h, ctx, returned (mkTransition (fieldValue buffer) pos)).

(** The body of [fieldValue(fieldName)] after [collectUntilChar]. *)
Definition fieldValue_rest (name : text) (h : Heap) (ctx : ParserCtx)
    (endingChar : Z) (buffer : text) (pos : nat)
  : Heap * ParserCtx * IteratorResult :=
  let m := heap_get h (message ctx) in
  let value :=
    if text_eqb name DATA then get_or_empty m name ++ buffer ++ [LF]
    else buffer in
  (heap_put h (message ctx) (obj_set m name value),
   ctx, returned (mkTransition (skipLFAfterCR endingChar fieldStart) pos)).

Definition collectUntilChar_return (from : Caller) :=
  match from with
  | for_fieldName => fieldName_rest
  | for_fieldValue name => fieldValue_rest name
  end.

(** The tail of the loop body of [collectUntilChar]: strip one leading
    space when nothing has been decoded yet, then decode in streaming mode. *)
Definition add_bytes (skipLeadingSpace : bool) (d : TextDecoder) (buffer : text)
    (bytesToAdd : chunk) : TextDecoder * text :=
  let bytesToAdd :=
    match buffer, bytesToAdd with
    | [], b :: rest =>
        if skipLeadingSpace && (b =? SPACE) then rest else bytesToAdd
    | _, _ => bytesToAdd
    end in
  let '(d', t) := decode_stream d bytesToAdd in
  (d', buffer ++ t).

(** One pass through [while (endingChar === 0)] for the chunk at hand.
    Both predicates accept non-zero bytes only, so a found terminator
    always ends the loop. *)
Definition collectUntilChar_loop (from : Caller) (predicate : Predicate) (skip : bool)
    (h : Heap) (ctx : ParserCtx) (buffer : text) (c : chunk) (pos : nat)
  : Heap * ParserCtx * IteratorResult :=
  let remainingChunk := subarray_from pos c in
  match findIndex (holds predicate) remainingChunk with
  | Some endingIndex =>
      let bytesToAdd := subarray_to endingIndex remainingChunk in
      let endingChar := nth endingIndex remainingChunk 0 in
      let pos := (pos + endingIndex)%nat in
      let '(d, buffer) := add_bytes skip (decoder ctx) buffer bytesToAdd in
      let pos := S pos in
      let buffer := buffer ++ decode_flush d in
      let ctx := mkCtx (message ctx) new_TextDecoder in
      collectUntilChar_return from h ctx endingChar buffer pos
  | None =>
      (h, ctx,
       yielded (collectUntilChar_yield1 from predicate skip buffer remainingChunk)
               (mkOutput None (Some (length c))))
  end.

(** The loop of [skipComment]. *)
Definition skipComment_loop (c : chunk) (pos : nat) : IteratorResult :=
  let remainingChunk := subarray_from pos c in
  match findIndex lineEndChar remainingChunk with
  | Some lineEndIndex =>
      let lineEnd := nth lineEndIndex remainingChunk 0 in
      returned (mkTransition (skipLFAfterCR lineEnd fieldStart)
                             (pos + lineEndIndex)%nat)
  | None => yielded skipComment_yield1 (mkOutput None (Some (length c)))
  end.

(** [generator.next(input)].  A generator that has not started runs to its
    first [yield {}] and ignores the value passed in. *)
Definition next (b : Build) (h : Heap) (ctx : ParserCtx) (g : Generator)
    (input : ParserInput) : Heap * ParserCtx * IteratorResult :=
  let c := in_chunk input in
  let p := in_pos input in
  match g with
  | created fieldStart => (h, ctx, yielded fieldStart_yield0 (mkOutput None None))
  | created fieldName =>
      (h, ctx, yielded (collectUntilChar_yield0 for_fieldName is_notNameChar false)
                       (mkOutput None None))
  | created (fieldValue name) =>
      (h, ctx, yielded (collectUntilChar_yield0 (for_fieldValue name) (value_predicate b) true)
                       (mkOutput None None))
  | created skipComment => (h, ctx, yielded skipComment_yield0 (mkOutput None None))
  | created (skipLF nextState) =>
      (h, ctx, yielded (skipLF_yield0 nextState) (mkOutput None None))
  | fieldStart_yield0 =>
      match nth_error c p with
      | Some char =>
          if char =? COLON then
            (h, ctx, returned (mkTransition skipComment (p + 1)))
          else if (char =? LF) || (char =? CR) then
            (h, ctx, yielded (fieldStart_yield1 char p)
                             (mkOutput (Some (message ctx)) None))
          else (h, ctx, returned (mkTransition fieldName p))
      | None => (h, ctx, returned (mkTransition fieldName p))
      end
  | fieldStart_yield1 char pos =>
      let '(h, l) := heap_alloc h in
      (h, mkCtx l (decoder ctx),
       returned (mkTransition (skipLFAfterCR char fieldStart) (pos + 1)))
  | skipLF_yield0 nextState =>
      let pos :=
        match nth_error c p with
        | Some char => if char =? LF then (p + 1)%nat else p
        | None => p
        end in
      (h, ctx, returned (mkTransition nextState pos))
  | skipComment_yield0 => (h, ctx, skipComment_loop c p)
  | skipComment_yield1 => (h, ctx, skipComment_loop c p)
  | collectUntilChar_yield0 from predicate skip =>
      collectUntilChar_loop from predicate skip h ctx [] c p
  | collectUntilChar_yield1 from predicate skip buffer remainingChunk =>
      let '(d, buffer) := add_bytes skip (decoder ctx) buffer remainingChunk in
      collectUntilChar_loop from predicate skip h (mkCtx (message ctx) d) buffer c p
  end.

(** ** The stream driver: class [SSEResponseParser] *)

Inductive FinishReason := SERVER_CLOSED | CLIENT_CLOSED | THROWN | HTTP_STATUS.

(** A parsing session: the fields of the class, the locals of
    [getMessages] that survive a [yield], and the messages handed to the
    consumer so far, each with the object's content at the moment it was
    received.  [close_after = Some n] describes a consumer that calls
    [close()] as soon as it holds [n] messages ([Some 0]: before the first
    pull); [None] is a consumer that never closes. *)
Record Session := mkSession {
  heap : Heap;
  ctx : ParserCtx;
  stateIterator : Generator;
  currentPos : nat;
  clientClosed : bool;
  finishedWith : option FinishReason;
  received : list (loc * Message);
  close_after : option nat
}.

(** [close()] on a session: sets the flag unless the session has finished
    (the byte source is cancelled as well, and is not read again since the
    flag ends the read loop). *)
Definition close (s : Session) : Session :=
  match finishedWith s with
  | None => mkSession (heap s) (ctx s) (stateIterator s) (currentPos s) true
                      (finishedWith s) (received s) (close_after s)
  | Some _ => s
  end.

Definition consumer_reacts (s : Session) : Session :=
  match close_after s with
  | Some n => if Nat.eqb (length (received s)) n then close s else s
  | None => s
  end.

(** [yield result.message]: the consumer receives the reference. *)
Definition hand_over (s : Session) (l : loc) : Session :=
  consumer_reacts
    (mkSession (heap s) (ctx s) (stateIterator s) (currentPos s) (clientClosed s)
               (finishedWith s) (received s ++ [(l, heap_get (heap s) l)])
               (close_after s)).

Definition set_pos (s : Session) (p : nat) : Session :=
  mkSession (heap s) (ctx s) (stateIterator s) p (clientClosed s)
            (finishedWith s) (received s) (close_after s).

(** The body of [while (currentPos < chunk.byteLength)]. *)
Definition loop_body (b : Build) (c : chunk) (s : Session) : Session :=
  let '(h, cx, step) :=
    next b (heap s) (ctx s) (stateIterator s) (mkInput c (currentPos s)) in
  match step with
  | returned t =>
      mkSession h cx (created (nextState t)) (pos t) (clientClosed s)
                (finishedWith s) (received s) (close_after s)
  | yielded g result =>
      let s1 := mkSession h cx g (currentPos s) (clientClosed s)
                          (finishedWith s) (received s) (close_after s) in
      let s2 :=
        match out_message result with
        | Some l =>
            if (0 <? length (Object_keys (heap_get h l)))%nat
            then hand_over s1 l else s1
        | None => s1
        end in
      match out_pos result with
      | Some p => set_pos s2 p
      | None => s2
      end
  end.

(** The inner loop.  The source loop has no bound; [feed] is given the
    number of iterations it may take, and [chunk_fuel] is never used up
    (lemma [fuel_suffices] below). *)
Fixpoint feed (fuel : nat) (b : Build) (c : chunk) (s : Session) : Session :=
  match fuel with
  | O => s
  | S fuel' =>
      if (currentPos s <? length c)%nat
      then feed fuel' b c (loop_body b c s)
      else s
  end.

Definition chunk_fuel (c : chunk) : nat := 7 * length c + 7.

(** [while (!closed && !this.clientClosed)] over the chunks the byte
    source delivers; after the last chunk [read()] reports [done].  Empty
    chunks are skipped.  A byte source that throws is not part of this
    model, so no session ends with THROWN. *)
Fixpoint read_loop (b : Build) (source : list chunk) (s : Session) : Session :=
  if clientClosed s then s
  else match source with
       | [] => s
       | c :: source' =>
           let s' :=
             if (0 <? length c)%nat
             then feed (chunk_fuel c) b c (set_pos s O)
             else s in
           read_loop b source' s'
       end.

Definition finish (s : Session) : Session :=
  mkSession (heap s) (ctx s) (stateIterator s) (currentPos s) (clientClosed s)
            (Some (if clientClosed s then CLIENT_CLOSED else SERVER_CLOSED))
            (received s) (close_after s).

(** [new SSEResponseParser(reader)] followed by the start of
    [getMessages]: the initial context [{decoder, message: {}}] and the
    first state iterator. *)
Definition new_session (consumer : option nat) : Session :=
  consumer_reacts
    (mkSession [[]] (mkCtx O new_TextDecoder) (created fieldStart) O false None
               [] consumer).

(** [getMessages] run to completion by its consumer. *)
Definition getMessagesOf (b : Build) (consumer : option nat) (source : list chunk)
  : Session :=
  finish (read_loop b source (new_session consumer)).

Definition getMessages := getMessagesOf lib_ts.

(** What the consumer observed. *)
Definition messages (s : Session) : list Message := map snd (received s).

Definition parse (source : list chunk) : list Message :=
  messages (getMessages None source).

(** ** A byte-level reading of the state machine

    [Mode] names what the machine of the TypeScript source is scanning
    after a given prefix of a chunk, and [byte_step] is what one more byte
    of that chunk does to it.  It serves as the reference the generators
    are compared with; [chunks_run] below adds what a chunk boundary
    does. *)

Inductive Mode :=
| AtStart
| AfterCR
| InComment
| InName (d : TextDecoder) (buffer : text)
| InValue (name : text) (first : bool) (d : TextDecoder) (buffer : text).

Definition after_line_end (b : Z) : Mode :=
  if b =? LF then AtStart else AfterCR.

Definition emit (m : Message) : list Message :=
  match m with
  | [] => []
  | _ :: _ => [m]
  end.

Definition name_byte (m : Message) (d : TextDecoder) (buffer : text) (b : Z)
  : Message * Mode * list Message :=
  if notNameChar b then
    let name := buffer ++ decode_flush d in
    if lineEndChar b then (obj_set m name [], after_line_end b, [])
    else (m, InValue name true new_TextDecoder [], [])
  else
    let '(d', t) := decode_stream d [b] in
    (m, InName d' (buffer ++ t), []).

Definition assign (m : Message) (name value : text) : Message :=
  obj_set m name
    (if text_eqb name DATA then get_or_empty m name ++ value ++ [LF] else value).

Definition start_byte (m : Message) (b : Z) : Message * Mode * list Message :=
  if b =? COLON then (m, InComment, [])
  else if lineEndChar b then ([], after_line_end b, emit m)
  else name_byte m new_TextDecoder [] b.

Definition byte_step (m : Message) (md : Mode) (b : Z)
  : Message * Mode * list Message :=
  match md with
  | AtStart => start_byte m b
  | AfterCR => if b =? LF then (m, AtStart, []) else start_byte m b
  | InComment => if lineEndChar b then start_byte m b else (m, InComment, [])
  | InName d buffer => name_byte m d buffer b
  | InValue name first d buffer =>
      if lineEndChar b then
        (assign m name (buffer ++ decode_flush d), after_line_end b, [])
      else if first && (b =? SPACE) then (m, InValue name false d buffer, [])
      else
        let '(d', t) := decode_stream d [b] in
        (m, InValue name false d' (buffer ++ t), [])
  end.

Fixpoint bytes_run (m : Message) (md : Mode) (bs : list Z)
  : Message * Mode * list Message :=
  match bs with
  | [] => (m, md, [])
  | b :: r =>
      let '(m1, md1, e1) := byte_step m md b in
      let '(m2, md2, e2) := bytes_run m1 md1 r in
      (m2, md2, e1 ++ e2)
  end.

Definition stream_messages (bs : list Z) : list Message :=
  snd (bytes_run [] AtStart bs).

(** ** The generators follow the byte-level machine

    [tracks g d md]: generator [g], with [ctx.decoder = d], stands where
    the byte-level machine is in mode [md].  A generator suspended inside
    [collectUntilChar] still holds [remainingChunk], which it decodes only
    when resumed. *)

Inductive tracks : Generator -> TextDecoder -> Mode -> Prop :=
| tracks_start : tracks (created fieldStart) new_TextDecoder AtStart
| tracks_cr : tracks (created (skipLF fieldStart)) new_TextDecoder AfterCR
| tracks_comment0 : tracks (created skipComment) new_TextDecoder InComment
| tracks_comment1 : tracks skipComment_yield1 new_TextDecoder InComment
| tracks_name0 :
    tracks (created fieldName) new_TextDecoder (InName new_TextDecoder [])
| tracks_value0 name :
    tracks (created (fieldValue name)) new_TextDecoder
           (InValue name true new_TextDecoder [])
| tracks_name1 d buffer rest d' buffer' :
    add_bytes false d buffer rest = (d', buffer') ->
    tracks (collectUntilChar_yield1 for_fieldName is_notNameChar false buffer rest) d
           (InName d' buffer')
| tracks_value1 name first d buffer rest d' buffer' :
    rest <> [] ->
    add_bytes true d buffer rest = (d', buffer') ->
    (first = true -> buffer' = []) ->
    tracks (collectUntilChar_yield1 (for_fieldValue name) is_lineEndChar true buffer rest) d
           (InValue name first d' buffer').

Definition simulates (s : Session) (m : Message) (md : Mode) : Prop :=
  tracks (stateIterator s) (decoder (ctx s)) md /\
  heap_get (heap s) (message (ctx s)) = m /\
  (message (ctx s) < length (heap s))%nat.

(** The one place where a chunk boundary matters: a value of which only
    stripped or undecodable bytes have been seen, continued by a space. *)
Definition space_safe (md : Mode) (bs : list Z) : Prop :=
  match md, bs with
  | InValue _ false _ [], b :: _ => b <> SPACE
  | _, _ => True
  end.

Definition extra (g : Generator) : nat :=
  match g with
  | created fieldStart => 2
  | created (skipLF _) => 4
  | created skipComment => 6
  | skipComment_yield1 => 6
  | _ => 0
  end.

Definition need (c : chunk) (s : Session) : nat :=
  7 * (length c - currentPos s) + extra (stateIterator s).

(** [advances c s m md]: from [s], some iterations of the inner loop on
    chunk [c] lead to a session that again tracks the byte-level machine,
    further along the chunk, with the same messages handed over. *)
Definition advances (c : chunk) (s : Session) (m : Message) (md : Mode) : Prop :=
  exists (k : nat) (s' : Session) (m' : Message) (md' : Mode) (o : list Message),
    (1 <= k)%nat /\
    (forall fuel, feed (k + fuel) lib_ts c s = feed fuel lib_ts c s') /\
    (need c s' + k <= need c s)%nat /\
    (currentPos s' <= length c)%nat /\
    simulates s' m' md' /\
    space_safe md' (skipn (currentPos s') c) /\
    messages s' = messages s ++ o /\
    bytes_run m md (skipn (currentPos s) c) =
    (let '(m3, md3, o3) := bytes_run m' md' (skipn (currentPos s') c) in
     (m3, md3, o ++ o3)).

(** ** What a chunk boundary does

    A generator suspended in [collectUntilChar] tests [buffer === ''] again
    for the first bytes of the next chunk: inside a value of which no text
    has been decoded so far, a chunk boundary makes the next byte a
    candidate for stripping once more. *)

Definition resume_mode (md : Mode) : Mode :=
  match md with
  | InValue name false d [] => InValue name true d []
  | _ => md
  end.

Fixpoint chunks_run (m : Message) (md : Mode) (source : list chunk)
  : Message * Mode * list Message :=
  match source with
  | [] => (m, md, [])
  | c :: source' =>
      let '(m1, md1, o1) := bytes_run m (resume_mode md) c in
      let '(m2, md2, o2) := chunks_run m1 md1 source' in
      (m2, md2, o1 ++ o2)
  end.

(** ** Records on the wire *)

(** A line of a record: a comment, or a field with or without a colon. *)
Inductive Line :=
| Comment (body : list Z)
| Field (name : list Z) (value : option (list Z)).

Definition line_bytes (l : Line) : list Z :=
  match l with
  | Comment body => COLON :: body
  | Field name None => name
  | Field name (Some value) => name ++ COLON :: value
  end.

Inductive Eol := eol_LF | eol_CR | eol_CRLF.

Definition eol_bytes (e : Eol) : list Z :=
  match e with
  | eol_LF => [LF]
  | eol_CR => [CR]
  | eol_CRLF => [CR; LF]
  end.

Fixpoint render (e : Eol) (ls : list Line) : list Z :=
  match ls with
  | [] => []
  | l :: r => line_bytes l ++ eol_bytes e ++ render e r
  end.

(** The lines of a record followed by the blank line that ends it. *)
Definition record_bytes (e : Eol) (ls : list Line) : list Z :=
  render e ls ++ eol_bytes e.

Definition well_formed (l : Line) : Prop :=
  match l with
  | Comment body => forall x, In x body -> lineEndChar x = false
  | Field name value =>
      name <> [] /\ (forall x, In x name -> notNameChar x = false) /\
      match value with
      | Some v => forall x, In x v -> lineEndChar x = false
      | None => True
      end
  end.

(** Bytes of a complete token to text. *)
Definition decode_all (bs : list Z) : text :=
  let '(d, t) := decode_stream new_TextDecoder bs in t ++ decode_flush d.

Definition strip_space (v : list Z) : list Z :=
  match v with
  | b :: r => if b =? SPACE then r else v
  | [] => []
  end.

(** What a complete line does to the message in progress, and what it
    makes the parser hand over.  The end of a comment line is read by
    [fieldStart] once more, as if the line were blank. *)
Definition line_effect (m : Message) (l : Line) : Message :=
  match l with
  | Comment _ => []
  | Field name None => obj_set m (decode_all name) []
  | Field name (Some v) => assign m (decode_all name) (decode_all (strip_space v))
  end.

Definition line_out (m : Message) (l : Line) : list Message :=
  match l with
  | Comment _ => emit m
  | Field _ _ => []
  end.

Fixpoint lines_run (m : Message) (ls : list Line) : Message * list Message :=
  match ls with
  | [] => (m, [])
  | l :: r =>
      let '(m', o) := lines_run (line_effect m l) r in
      (m', line_out m l ++ o)
  end.

Definition mode_after (e : Eol) : Mode :=
  match e with
  | eol_CR => AfterCR
  | _ => AtStart
  end.

(** The message under construction when the source is exhausted. *)
Definition pending (source : list chunk) : Message :=
  let s := getMessages None source in heap_get (heap s) (message (ctx s)).

(** ** Declared fields *)

Definition declared_name (l : Line) : text :=
  match l with
  | Field name _ => decode_all name
  | Comment _ => []
  end.

Definition declared_value (l : Line) : text :=
  match l with
  | Field _ (Some v) => decode_all (strip_space v)
  | _ => []
  end.

Definition is_field (l : Line) : bool :=
  match l with
  | Field _ _ => true
  | Comment _ => false
  end.

(** The spec's Message, an ordered mapping, filled by the spec's
    assignment rule: [data] lines accumulate with a trailing newline, any
    other field replaces its previous value, a field without a colon has
    the empty value. *)
Definition declare (m : Message) (l : Line) : Message :=
  match l with
  | Comment _ => m
  | Field _ None => own_put m (declared_name l) []
  | Field _ (Some _) =>
      own_put m (declared_name l)
        (if text_eqb (declared_name l) DATA
         then get_or_empty m (declared_name l) ++ declared_value l ++ [LF]
         else declared_value l)
  end.

Definition declared (ls : list Line) : Message := fold_left declare ls [].

Definition seen_in (k : text) (seen : list text) : bool :=
  existsb (fun k' => text_eqb k' k) seen.

(** Names in order of first occurrence. *)
Fixpoint first_seen (seen : list text) (names : list text) : list text :=
  match names with
  | [] => seen
  | k :: r => first_seen (if seen_in k seen then seen else seen ++ [k]) r
  end.

Definition plain_name (l : Line) : Prop :=
  is_field l = true /\ array_index (declared_name l) = None /\
  declared_name l <> PROTO.

Definition record_1 : list Line :=
  [Field (codes "id") (Some (codes "7"));
   Field (codes "data") (Some (codes " first"));
   Field (codes "event") None;
   Field (codes "data") (Some (codes "second"));
   Field (codes "id") (Some (codes "8"))].

Definition record_2 : list Line :=
  [Field (codes "b") (Some (codes "x")); Field (codes "1") (Some (codes "y"))].

Definition record_3 : list Line :=
  [Field (codes "id") (Some (codes "1"));
   Comment (codes " keep-alive");
   Field (codes "data") (Some (codes " d1"));
   Field (codes "retry") None].

(** ** Closing from the consumer side *)

(** What the parser works on, apart from the consumer's plan. *)
Definition core (s : Session) :=
  (heap s, ctx s, stateIterator s, currentPos s, received s).

(** A consumer that closes once it holds [n] messages has set the flag
    exactly when it holds at least [n]. *)
Definition obeys (n : nat) (s : Session) : Prop :=
  close_after s = Some n /\ finishedWith s = None /\
  clientClosed s = (n <=? length (received s))%nat.

Definition after_chunk (b : Build) (c : chunk) (s : Session) : Session :=
  if (0 <? length c)%nat then feed (chunk_fuel c) b c (set_pos s O) else s.

(** ** Messages already handed over *)

(** The generator sits at [yield {message: ctx.message}]. *)
Definition handing_over (g : Generator) : bool :=
  match g with
  | fieldStart_yield1 _ _ => true
  | _ => false
  end.

(** The messages the consumer holds are distinct objects; each still has
    the content it had when it was received, and is an older object than
    the one the parser is filling, except at the very [yield] that hands
    it over. *)
Definition frozen (s : Session) : Prop :=
  S (message (ctx s)) = length (heap s) /\
  NoDup (map fst (received s)) /\
  forall l m, In (l, m) (received s) ->
    heap_get (heap s) l = m /\
    (l <= message (ctx s))%nat /\
    (l = message (ctx s) -> handing_over (stateIterator s) = true).

(** ** Field names *)

(** The place of a line's first byte: the start of the stream, or right
    after a CR or an LF. *)
Definition line_start (pre : list Z) : Prop :=
  pre = [] \/ exists p c, pre = p ++ [c] /\ lineEndChar c = true.

(** [bs] are the name bytes of a line of [stream]: they begin the line,
    there is at least one, none of them is a colon, a CR or an LF, and the
    byte after them is one. *)
Definition name_bytes_in (stream bs : list Z) : Prop :=
  exists pre t post,
    stream = pre ++ bs ++ t :: post /\ line_start pre /\ bs <> [] /\
    (forall x, In x bs -> notNameChar x = false) /\ notNameChar t = true.

(** Text decoded from the name bytes of a line of [stream]. *)
Definition name_text (stream : list Z) (k : text) : Prop :=
  exists bs : list Z, name_bytes_in stream bs /\ k = decode_all bs.

Definition keys_named (stream : list Z) (m : Message) : Prop :=
  forall k v, In (k, v) m -> name_text stream k.

(** What the byte-level machine has read of the line at hand, [seen]
    being the bytes read so far. *)
Definition mode_named (seen : list Z) (md : Mode) : Prop :=
  match md with
  | AtStart => line_start seen
  | AfterCR => line_start seen
  | InComment => True
  | InName d buffer =>
      exists pre bs,
        seen = pre ++ bs /\ line_start pre /\ bs <> [] /\
        (forall x, In x bs -> notNameChar x = false) /\
        decode_stream new_TextDecoder bs = (d, buffer)
  | InValue name _ _ _ => name_text seen name
  end.

(** ** When decoded text is empty *)

(** All scalar values the handler produces for a complete token. *)
Definition scalars (s : Utf8) (bs : list Z) : list Z :=
  let '(h, o) := utf8_run s bs in o ++ utf8_end h.

Definition continuation (cp b : Z) : Z := Z.lor (Z.shiftl cp 6) (Z.land b 0x3F).

Definition zrange (lo : Z) (n : nat) : list Z :=
  map (fun i => lo + Z.of_nat i) (seq 0 n).

Definition tails : list Z := zrange 0x80 64.

(** ** When the chunking does not matter *)

(** The strip is armed again by a chunk boundary in this mode only. *)
Definition rearmed (md : Mode) : bool :=
  match md with
  | InValue _ false _ [] => true
  | _ => false
  end.

(** No space byte arrives while a value has been entered but no text of
    it has been decoded yet. *)
Fixpoint stable_from (m : Message) (md : Mode) (bs : list Z) : bool :=
  match bs with
  | [] => true
  | b :: r =>
      negb (rearmed md && (b =? SPACE)) &&
      (let '(m1, md1, _) := byte_step m md b in stable_from m1 md1 r)
  end.

Definition space_stable (bs : list Z) : bool := stable_from [] AtStart bs.

(** ** The inner loop *)

(** How many iterations a generator can take before the position moves
    on. *)
Definition rank (g : Generator) : nat :=
  match g with
  | created fieldStart => 3
  | created fieldName => 1
  | created (fieldValue _) => 1
  | created skipComment => 7
  | created (skipLF _) => 5
  | fieldStart_yield0 => 2
  | fieldStart_yield1 _ _ => 0
  | skipLF_yield0 _ => 4
  | skipComment_yield0 => 6
  | skipComment_yield1 => 6
  | collectUntilChar_yield0 _ _ _ => 0
  | collectUntilChar_yield1 _ _ _ _ _ => 0
  end.

Definition potential (c : chunk) (s : Session) : nat :=
  7 * (length c - currentPos s) + rank (stateIterator s).

(** The state that follows a skipped LF is [fieldStart]: [skipLFAfterCR]
    is called with no other. *)
Definition shaped (g : Generator) : Prop :=
  match g with
  | created (skipLF nextState) => nextState = fieldStart
  | skipLF_yield0 nextState => nextState = fieldStart
  | _ => True
  end.

(** Between two chunks no generator is inside [fieldStart]'s second
    [yield]. *)
Definition rested (s : Session) : Prop :=
  shaped (stateIterator s) /\
  match stateIterator s with
  | fieldStart_yield1 _ _ => False
  | _ => True
  end.

(** The position is inside the chunk, and it is the one [fieldStart] keeps
    across its [yield]. *)
Definition within (c : chunk) (s : Session) : Prop :=
  (currentPos s <= length c)%nat /\
  shaped (stateIterator s) /\
  match stateIterator s with
  | fieldStart_yield1 _ q => q = currentPos s /\ (q < length c)%nat
  | _ => True
  end.

(** ** Blank lines *)

(** The first byte of a line end. *)
Definition eol_first (e : Eol) : Z :=
  match e with
  | eol_LF => LF
  | _ => CR
  end.

(** ** Chunk boundaries that do no harm *)

(** Chunk boundaries at which the strip is not armed again, or is armed
    with no space to strip. *)
Fixpoint joins (m : Message) (md : Mode) (source : list chunk) : Prop :=
  match source with
  | [] => True
  | c :: source' =>
      (rearmed md = true -> hd_error c <> Some SPACE) /\
      (let '(m1, md1, _) := bytes_run m md c in joins m1 md1 source')
  end.

Definition ends_line (c : chunk) : Prop :=
  c = [] \/ exists bs x, c = bs ++ [x] /\ lineEndChar x = true.

(** ** Plain ASCII *)

Definition is_ascii (bs : list Z) : Prop := forall x, In x bs -> 0 <= x < 128.

(** ** The byte source: [ReaderLike]

    What a call of [reader.read()] settles to: a result [{done, value}]
    ([value] may be missing), or a rejection. *)
Inductive ReadResult :=
| fulfilled (done : bool) (value : option chunk)
| rejected (error : nat).

(** How a call of [getMessages] ends for a consumer that pulls as long as
    it is given messages: by [return this.finishedWith], by [throw error],
    or not at all when a [read()] never settles. *)
Inductive Completion :=
| returns (result : FinishReason)
| throws (error : nat)
| awaits.

(** The [catch] block. *)
Definition caught (s : Session) : Session :=
  mkSession (heap s) (ctx s) (stateIterator s) (currentPos s) (clientClosed s)
            (Some THROWN) (received s) (close_after s).

(** The statements after the [try]. *)
Definition leave (s : Session) : Session * Completion :=
  (finish s, returns (if clientClosed s then CLIENT_CLOSED else SERVER_CLOSED)).

(** [while (!closed && !this.clientClosed)] over the results of the
    successive calls of [reader.read()]. *)
Fixpoint read_results (b : Build) (reads : list ReadResult) (s : Session)
  : Session * Completion :=
  if clientClosed s then leave s
  else match reads with
       | [] => (s, awaits)
       | rejected error :: _ => (caught s, throws error)
       | fulfilled done value :: reads' =>
           let s' :=
             match value with
             | Some c => after_chunk b c s
             | None => s
             end in
           if done then leave s' else read_results b reads' s'
       end.

(** A call of [getMessages] on a parser on which it may have been called
    before: a finished parser returns its result at once; otherwise a new
    context and a new state iterator are made. *)
Definition enter (s : Session) : Session :=
  let '(h, l) := heap_alloc (heap s) in
  mkSession h (mkCtx l new_TextDecoder) (created fieldStart) O (clientClosed s)
            (finishedWith s) (received s) (close_after s).

Definition getMessages_again (b : Build) (reads : list ReadResult) (s : Session)
  : Session * Completion :=
  match finishedWith s with
  | Some result => (s, returns result)
  | None => read_results b reads (enter s)
  end.

(** The first call of [getMessages] on a new parser. *)
Definition getMessagesFrom (b : Build) (consumer : option nat) (reads : list ReadResult)
  : Session * Completion :=
  read_results b reads (new_session consumer).

(** What [close()] resolves to. *)
Definition close_result (s : Session) : FinishReason :=
  match finishedWith (close s) with
  | None => CLIENT_CLOSED
  | Some result => result
  end.

(** The chunks among the values read. *)
Definition values (pre : list (option chunk)) : list chunk :=
  flat_map (fun v => match v with Some c => [c] | None => [] end) pre.

(** ** The compiled build [dist/SSEResponseParser.js]

    The build that the README imports was compiled from an earlier state
    of the source: [fieldName] and [fieldValue] hold their scanning loops
    themselves, there is no [collectUntilChar].  The other generator
    functions and the class read as in the TypeScript source. *)

Module Dist.

Inductive Generator :=
| created (s : ParserState)
| fieldStart_yield0
| fieldStart_yield1 (char : Z) (pos : nat)
| skipLF_yield0 (nextState : ParserState)
| skipComment_yield0
| skipComment_yield1
| fieldName_yield0
| fieldName_yield1 (fieldName : text) (remainingChunk : chunk)
| fieldValue_yield0 (name : text)
| fieldValue_yield1 (name : text) (fieldValue : text) (remainingChunk : chunk).

Inductive IteratorResult :=
| yielded (g : Generator) (out : ParserOutput)
| returned (t : ParserTransition).

(** One pass through [while (nameEndChar === 0)] of [fieldName], and the
    statements after the loop. *)
Definition fieldName_loop (h : Heap) (ctx : ParserCtx) (fieldName : text)
    (c : chunk) (pos : nat) : Heap * ParserCtx * IteratorResult :=
  let remainingChunk := subarray_from pos c in
  match findIndex notNameChar remainingChunk with
  | Some nameEndIndex =>
      let nameChunk := subarray_to nameEndIndex remainingChunk in
      let nameEndChar := nth nameEndIndex remainingChunk 0 in
      let pos := (pos + nameEndIndex)%nat in
      let '(d, t) := decode_stream (decoder ctx) nameChunk in
      let fieldName := fieldName ++ t in
      let pos := S pos in
      let fieldName := fieldName ++ decode_flush d in
      let ctx := mkCtx (message ctx) new_TextDecoder in
      if (nameEndChar =? LF) || (nameEndChar =? CR) then
        (heap_put h (message ctx) (obj_set (heap_get h (message ctx)) fieldName []),
         ctx, returned (mkTransition (skipLFAfterCR nameEndChar fieldStart) pos))
      else
        (h, ctx, returned (mkTransition (fieldValue fieldName) pos))
  | None =>
      (h, ctx, yielded (fieldName_yield1 fieldName remainingChunk)
                       (mkOutput None (Some (length c))))
  end.

(** [if (fieldValue === '' && valueChunk.byteLength > 0 &&
    valueChunk[0] === SPACE) valueChunk = valueChunk.subarray(1)] *)
Definition skip_leading_space (fieldValue : text) (valueChunk : chunk) : chunk :=
  match fieldValue, valueChunk with
  | [], b :: rest => if b =? SPACE then rest else valueChunk
  | _, _ => valueChunk
  end.

(** One pass through [while (valueEndChar === 0)] of the generator
    function returned by [fieldValue(fieldName)], and the statements after
    the loop. *)
Definition fieldValue_loop (name : text) (h : Heap) (ctx : ParserCtx)
    (fieldValue : text) (c : chunk) (pos : nat)
  : Heap * ParserCtx * IteratorResult :=
  let remainingChunk := subarray_from pos c in
  match findIndex lineEndChar remainingChunk with
  | Some valueEndIndex =>
      let valueChunk := subarray_to valueEndIndex remainingChunk in
      let valueEndChar := nth valueEndIndex remainingChunk 0 in
      let pos := (pos + valueEndIndex)%nat in
      let '(d, t) := decode_stream (decoder ctx) (skip_leading_space fieldValue valueChunk) in
      let fieldValue := fieldValue ++ t in
      let pos := S pos in
      let fieldValue := fieldValue ++ decode_flush d in
      let ctx := mkCtx (message ctx) new_TextDecoder in
      let m := heap_get h (message ctx) in
      let fieldValue :=
        if text_eqb name DATA then get_or_empty m name ++ fieldValue ++ [LF]
        else fieldValue in
      (heap_put h (message ctx) (obj_set m name fieldValue),
       ctx, returned (mkTransition (skipLFAfterCR valueEndChar fieldStart) pos))
  | None =>
      (h, ctx, yielded (fieldValue_yield1 name fieldValue remainingChunk)
                       (mkOutput None (Some (length c))))
  end.

(** The loop of [skipComment]. *)
Definition skipComment_loop (c : chunk) (pos : nat) : IteratorResult :=
  let remainingChunk := subarray_from pos c in
  match findIndex lineEndChar remainingChunk with
  | Some lineEndIndex =>
      let lineEnd := nth lineEndIndex remainingChunk 0 in
      returned (mkTransition (skipLFAfterCR lineEnd fieldStart)
                             (pos + lineEndIndex)%nat)
  | None => yielded skipComment_yield1 (mkOutput None (Some (length c)))
  end.

(** [generator.next(input)] *)
Definition next (h : Heap) (ctx : ParserCtx) (g : Generator) (input : ParserInput)
  : Heap * ParserCtx * IteratorResult :=
  let c := in_chunk input in
  let p := in_pos input in
  match g with
  | created fieldStart => (h, ctx, yielded fieldStart_yield0 (mkOutput None None))
  | created fieldName => (h, ctx, yielded fieldName_yield0 (mkOutput None None))
  | created (fieldValue name) =>
      (h, ctx, yielded (fieldValue_yield0 name) (mkOutput None None))
  | created skipComment => (h, ctx, yielded skipComment_yield0 (mkOutput None None))
  | created (skipLF nextState) =>
      (h, ctx, yielded (skipLF_yield0 nextState) (mkOutput None None))
  | fieldStart_yield0 =>
      match nth_error c p with
      | Some char =>
          if char =? COLON then
            (h, ctx, returned (mkTransition skipComment (p + 1)))
          else if (char =? LF) || (char =? CR) then
            (h, ctx, yielded (fieldStart_yield1 char p)
                             (mkOutput (Some (message ctx)) None))
          else (h, ctx, returned (mkTransition fieldName p))
      | None => (h, ctx, returned (mkTransition fieldName p))
      end
  | fieldStart_yield1 char pos =>
      let '(h, l) := heap_alloc h in
      (h, mkCtx l (decoder ctx),
       returned (mkTransition (skipLFAfterCR char fieldStart) (pos + 1)))
  | skipLF_yield0 nextState =>
      let pos :=
        match nth_error c p with
        | Some char => if char =? LF then (p + 1)%nat else p
        | None => p
        end in
      (h, ctx, returned (mkTransition nextState pos))
  | skipComment_yield0 => (h, ctx, skipComment_loop c p)
  | skipComment_yield1 => (h, ctx, skipComment_loop c p)
  | fieldName_yield0 => fieldName_loop h ctx [] c p
  | fieldName_yield1 name nameChunk =>
      let '(d, t) := decode_stream (decoder ctx) nameChunk in
      fieldName_loop h (mkCtx (message ctx) d) (name ++ t) c p
  | fieldValue_yield0 name => fieldValue_loop name h ctx [] c p
  | fieldValue_yield1 name value valueChunk =>
      let '(d, t) :=
        decode_stream (decoder ctx) (skip_leading_space value valueChunk) in
      fieldValue_loop name h (mkCtx (message ctx) d) (value ++ t) c p
  end.

Record Session := mkSession {
  heap : Heap;
  ctx : ParserCtx;
  stateIterator : Generator;
  currentPos : nat;
  clientClosed : bool;
  finishedWith : option FinishReason;
  received : list (loc * Message);
  close_after : option nat
}.

(** [close()]: this build returns nothing. *)
Definition close (s : Session) : Session :=
  match finishedWith s with
  | None => mkSession (heap s) (ctx s) (stateIterator s) (currentPos s) true
                      (finishedWith s) (received s) (close_after s)
  | Some _ => s
  end.

Definition consumer_reacts (s : Session) : Session :=
  match close_after s with
  | Some n => if Nat.eqb (length (received s)) n then close s else s
  | None => s
  end.

Definition hand_over (s : Session) (l : loc) : Session :=
  consumer_reacts
    (mkSession (heap s) (ctx s) (stateIterator s) (currentPos s) (clientClosed s)
               (finishedWith s) (received s ++ [(l, heap_get (heap s) l)])
               (close_after s)).

Definition set_pos (s : Session) (p : nat) : Session :=
  mkSession (heap s) (ctx s) (stateIterator s) p (clientClosed s)
            (finishedWith s) (received s) (close_after s).

Definition loop_body (c : chunk) (s : Session) : Session :=
  let '(h, cx, step) :=
    next (heap s) (ctx s) (stateIterator s) (mkInput c (currentPos s)) in
  match step with
  | returned t =>
      mkSession h cx (created (nextState t)) (pos t) (clientClosed s)
                (finishedWith s) (received s) (close_after s)
  | yielded g result =>
      let s1 := mkSession h cx g (currentPos s) (clientClosed s)
                          (finishedWith s) (received s) (close_after s) in
      let s2 :=
        match out_message result with
        | Some l =>
            if (0 <? length (Object_keys (heap_get h l)))%nat
            then hand_over s1 l else s1
        | None => s1
        end in
      match out_pos result with
      | Some p => set_pos s2 p
      | None => s2
      end
  end.

Fixpoint feed (fuel : nat) (c : chunk) (s : Session) : Session :=
  match fuel with
  | O => s
  | S fuel' =>
      if (currentPos s <? length c)%nat
      then feed fuel' c (loop_body c s)
      else s
  end.

Fixpoint read_loop (source : list chunk) (s : Session) : Session :=
  if clientClosed s then s
  else match source with
       | [] => s
       | c :: source' =>
           let s' :=
             if (0 <? length c)%nat
             then feed (chunk_fuel c) c (set_pos s O)
             else s in
           read_loop source' s'
       end.

Definition finish (s : Session) : Session :=
  mkSession (heap s) (ctx s) (stateIterator s) (currentPos s) (clientClosed s)
            (Some (if clientClosed s then CLIENT_CLOSED else SERVER_CLOSED))
            (received s) (close_after s).

Definition new_session (consumer : option nat) : Session :=
  consumer_reacts
    (mkSession [[]] (mkCtx O new_TextDecoder) (created fieldStart) O false None
               [] consumer).

Definition getMessages (consumer : option nat) (source : list chunk) : Session :=
  finish (read_loop source (new_session consumer)).

Definition messages (s : Session) : list Message := map snd (received s).

End Dist.

(** A generator of the compiled build, as the generator of the TypeScript
    source that stands at the same place. *)
Definition as_source (g : Dist.Generator) : Generator :=
  match g with
  | Dist.created s => created s
  | Dist.fieldStart_yield0 => fieldStart_yield0
  | Dist.fieldStart_yield1 char pos => fieldStart_yield1 char pos
  | Dist.skipLF_yield0 nextState => skipLF_yield0 nextState
  | Dist.skipComment_yield0 => skipComment_yield0
  | Dist.skipComment_yield1 => skipComment_yield1
  | Dist.fieldName_yield0 => collectUntilChar_yield0 for_fieldName is_notNameChar false
  | Dist.fieldName_yield1 name remainingChunk =>
      collectUntilChar_yield1 for_fieldName is_notNameChar false name remainingChunk
  | Dist.fieldValue_yield0 name =>
      collectUntilChar_yield0 (for_fieldValue name) is_lineEndChar true
  | Dist.fieldValue_yield1 name value remainingChunk =>
      collectUntilChar_yield1 (for_fieldValue name) is_lineEndChar true
                              value remainingChunk
  end.

Definition result_as_source (r : Dist.IteratorResult) : IteratorResult :=
  match r with
  | Dist.yielded g out => yielded (as_source g) out
  | Dist.returned t => returned t
  end.

Definition session_as_source (s : Dist.Session) : Session :=
  mkSession (Dist.heap s) (Dist.ctx s) (as_source (Dist.stateIterator s))
            (Dist.currentPos s) (Dist.clientClosed s) (Dist.finishedWith s)
            (Dist.received s) (Dist.close_after s).

(** ** The two builds side by side

    [colons seen bs]: reads [bs] line by line, [seen] telling whether the
    line at hand has had its colon; [None] when a line holds a second
    one. *)
Fixpoint colons (seen : bool) (bs : list Z) : option bool :=
  match bs with
  | [] => Some seen
  | b :: r =>
      if lineEndChar b then colons false r
      else if b =? COLON then (if seen then None else colons true r)
      else colons seen r
  end.

(** No line of the stream holds more than one colon. *)
Definition one_colon_a_line (bs : list Z) : Prop := colons false bs <> None.

(** The generator of the compiled copy that stands where [g] stands in
    the TypeScript source: its [fieldValue] hands [notNameChar] to
    [collectUntilChar]. *)
Definition retarget (g : Generator) : Generator :=
  match g with
  | collectUntilChar_yield0 (for_fieldValue name) _ skip =>
      collectUntilChar_yield0 (for_fieldValue name) is_notNameChar skip
  | collectUntilChar_yield1 (for_fieldValue name) _ skip buffer remainingChunk =>
      collectUntilChar_yield1 (for_fieldValue name) is_notNameChar skip buffer remainingChunk
  | _ => g
  end.

Definition as_compiled (s : Session) : Session :=
  mkSession (heap s) (ctx s) (retarget (stateIterator s)) (currentPos s)
            (clientClosed s) (finishedWith s) (received s) (close_after s).

Definition retarget_result (r : Heap * ParserCtx * IteratorResult)
  : Heap * ParserCtx * IteratorResult :=
  let '(h, cx, step) := r in
  (h, cx, match step with
          | yielded g out => yielded (retarget g) out
          | returned t => returned t
          end).

(** What the inner loop does with the result of [next]. *)
Definition loop_result (s : Session) (r : Heap * ParserCtx * IteratorResult)
  : Session :=
  let '(h, cx, step) := r in
  match step with
  | returned t =>
      mkSession h cx (created (nextState t)) (pos t) (clientClosed s)
                (finishedWith s) (received s) (close_after s)
  | yielded g result =>
      let s1 := mkSession h cx g (currentPos s) (clientClosed s)
                          (finishedWith s) (received s) (close_after s) in
      let s2 :=
        match out_message result with
        | Some l =>
            if (0 <? length (Object_keys (heap_get h l)))%nat
            then hand_over s1 l else s1
        | None => s1
        end in
      match out_pos result with
      | Some p => set_pos s2 p
      | None => s2
      end
  end.

(** Where the two value scans stop at the same byte. *)
Definition scan_agrees (g : Generator) (c : chunk) (p : nat) : Prop :=
  match g with
  | collectUntilChar_yield0 (for_fieldValue _) pr _
  | collectUntilChar_yield1 (for_fieldValue _) pr _ _ _ =>
      findIndex (holds pr) (skipn p c) = findIndex notNameChar (skipn p c)
  | _ => True
  end.

(** The generator scans, or is about to scan, a field value. *)
Definition value_state (g : Generator) : Prop :=
  match g with
  | created (fieldValue _) => True
  | collectUntilChar_yield0 (for_fieldValue _) _ _ => True
  | collectUntilChar_yield1 (for_fieldValue _) _ _ _ _ => True
  | _ => False
  end.

(** ** TextEncoder

    [new TextEncoder().encode(string)], by which the tests make their
    chunks: the UTF-8 encoder of the Encoding standard, on the scalar
    values of the string. *)
Definition utf8_encode_scalar (cp : Z) : list Z :=
  if in_range 0x00 0x7F cp then [cp]
  else if in_range 0x80 0x7FF cp then
    [Z.shiftr cp 6 + 0xC0; Z.lor 0x80 (Z.land cp 0x3F)]
  else if in_range 0x800 0xFFFF cp then
    [Z.shiftr cp 12 + 0xE0;
     Z.lor 0x80 (Z.land (Z.shiftr cp 6) 0x3F);
     Z.lor 0x80 (Z.land cp 0x3F)]
  else
    [Z.shiftr cp 18 + 0xF0;
     Z.lor 0x80 (Z.land (Z.shiftr cp 12) 0x3F);
     Z.lor 0x80 (Z.land (Z.shiftr cp 6) 0x3F);
     Z.lor 0x80 (Z.land cp 0x3F)].

Definition encode (t : text) : list Z := flat_map utf8_encode_scalar t.

(** Unicode scalar values: the code points that are not surrogates. *)
Definition scalar_value (cp : Z) : Prop :=
  0 <= cp < 0xD800 \/ 0xE000 <= cp <= 0x10FFFF.

(** What a [TextDecoder] with [ignoreBOM = false] makes of a text that was
    encoded: a U+FEFF in front is dropped. *)
Definition drop_bom (t : text) : text :=
  match t with
  | c :: r => if c =? BOM then r else t
  | [] => []
  end.

Definition utf8_eqb (a b : Utf8) : bool :=
  (code_point a =? code_point b) && (bytes_seen a =? bytes_seen b) &&
  (bytes_needed a =? bytes_needed b) && (lower_boundary a =? lower_boundary b) &&
  (upper_boundary a =? upper_boundary b).

(** The encoding of [cp] decodes to [cp] and leaves the handler in state [s]. *)
Definition decodes_to (bs : list Z) (s : Utf8) (out : list Z) : bool :=
  let '(s', o) := utf8_run utf8_new bs in utf8_eqb s' s && text_eqb o out.

(** [lo, lo + 1, ...], [n] of them. *)
Fixpoint zfrom (lo : Z) (n : nat) : list Z :=
  match n with
  | O => []
  | S n' => lo :: zfrom (lo + 1) n'
  end.

Definition zspan (lo hi : Z) : list Z := zfrom lo (Z.to_nat (hi - lo + 1)).

(** ** Characters that never reach a message *)

(** The handler is idle, or holds the upper bits of a code point that will
    be U+0080 or more. *)
Definition pending_high (s : Utf8) : Prop :=
  bytes_needed s = 0 \/
  (0x80 <= lower_boundary s /\ upper_boundary s <= 0xBF /\ 0 <= code_point s /\
   (2 <= code_point s \/
    (bytes_seen s + 2 <= bytes_needed s /\
     (1 <= code_point s \/ 0x90 <= lower_boundary s)))).

Definition free_of (p : Z -> bool) (t : text) : Prop :=
  forall x, In x t -> p x = false.

(** No key holds a colon, a CR or an LF; no value holds a CR, and none
    but the value of [data] holds an LF. *)
Definition tidy (m : Message) : Prop :=
  forall k v, In (k, v) m ->
    free_of notNameChar k /\ (forall x, In x v -> x <> CR) /\
    (k <> DATA -> forall x, In x v -> x <> LF).

Definition mode_tidy (md : Mode) : Prop :=
  match md with
  | InName d buffer => pending_high (handler d) /\ free_of notNameChar buffer
  | InValue name _ d buffer =>
      pending_high (handler d) /\ free_of lineEndChar buffer /\
      free_of notNameChar name
  | _ => True
  end.

(** ** The reader of the tests: [mockReader]

    A [read()] makes a promise; its [resolve] function is named here by the
    number of the call.  [settled] lists the calls [request(...)] in the
    order they were made. *)

Record MockedReader := mkMock {
  pushQueue : list text;
  closed : bool;
  pullQueue : list nat;
  settled : list (nat * ReadResult);
  reads : nat
}.

Definition mockReader : MockedReader := mkMock [] false [] [] O.

Definition enqueueRequest (request : nat) (r : MockedReader) : MockedReader :=
  if closed r then
    mkMock (pushQueue r) (closed r) (pullQueue r)
           (settled r ++ [(request, fulfilled true None)]) (reads r)
  else match pushQueue r with
       | chunk :: rest =>
           mkMock rest (closed r) (pullQueue r)
                  (settled r ++ [(request, fulfilled false (Some (encode chunk)))])
                  (reads r)
       | [] =>
           mkMock (pushQueue r) (closed r) (pullQueue r ++ [request]) (settled r)
                  (reads r)
       end.

(** [None]: [throw new Error("stream is closed")]. *)
Definition enqueueChunk (chunk : text) (r : MockedReader) : option MockedReader :=
  if closed r then None
  else match pullQueue r with
       | request :: rest =>
           Some (mkMock (pushQueue r) (closed r) rest
                        (settled r ++ [(request, fulfilled false (Some (encode chunk)))])
                        (reads r))
       | [] =>
           Some (mkMock (pushQueue r ++ [chunk]) (closed r) (pullQueue r) (settled r)
                        (reads r))
       end.

Definition mock_close (r : MockedReader) : MockedReader :=
  if closed r then r
  else mkMock [] true []
              (settled r ++ map (fun request => (request, fulfilled true None)) (pullQueue r))
              (reads r).

(** [reader.read()] *)
Definition mock_read (r : MockedReader) : MockedReader :=
  enqueueRequest (reads r)
    (mkMock (pushQueue r) (closed r) (pullQueue r) (settled r) (S (reads r))).

(** [push(chunk)]: when [enqueueChunk] throws, the promise is rejected and
    the reader is as before. *)
Definition mock_push (chunk : text) (r : MockedReader) : MockedReader :=
  match enqueueChunk chunk r with
  | Some r' => r'
  | None => r
  end.

(** What the test and the parser do to the reader; [do_close] is [close()]
    as well as [reader.cancel()]. *)
Inductive Call := do_read | do_push (chunk : text) | do_close.

Definition call (r : MockedReader) (c : Call) : MockedReader :=
  match c with
  | do_read => mock_read r
  | do_push chunk => mock_push chunk r
  | do_close => mock_close r
  end.

Definition calls (cs : list Call) : MockedReader := fold_left call cs mockReader.

Definition pushed (cs : list Call) : list text :=
  flat_map (fun c => match c with do_push chunk => [chunk] | _ => [] end) cs.

Definition asked (cs : list Call) : nat :=
  length (filter (fun c => match c with do_read => true | _ => false end) cs).

Definition no_close (cs : list Call) : Prop :=
  forall c, In c cs -> c <> do_close.

Definition chunk_read (chunk : text) : ReadResult :=
  fulfilled false (Some (encode chunk)).

(** The reader has answered its first reads with the first chunks pushed,
    and keeps the rest of one or the other. *)
Definition in_order (p : list text) (r : MockedReader) : Prop :=
  let k := Nat.min (reads r) (length p) in
  closed r = false /\
  settled r = combine (seq 0 k) (map chunk_read (firstn k p)) /\
  pushQueue r = skipn k p /\
  pullQueue r = seq k (reads r - k).

(** * Properties *)

(** ** Text, decoder and object lemmas *)

Lemma text_eqb_eq (a b : text) : text_eqb a b = true <-> a = b.
Proof.
  revert b; induction a as [|x a IH]; intros [|y b]; simpl; split; intros H;
    try reflexivity; try discriminate.
  - apply andb_true_iff in H as [H1 H2].
    apply Z.eqb_eq in H1. apply IH in H2. congruence.
  - inversion H; subst. apply andb_true_iff. split.
    + apply Z.eqb_refl.
    + now apply IH.
Qed.

Lemma text_eqb_refl (a : text) : text_eqb a a = true.
Proof. now apply text_eqb_eq. Qed.

Lemma text_eqb_neq (a b : text) : a <> b -> text_eqb a b = false.
Proof.
  intros H. destruct (text_eqb a b) eqn:E; [|reflexivity].
  apply text_eqb_eq in E. contradiction.
Qed.

Lemma utf8_run_app (s : Utf8) (a b : list Z) :
  utf8_run s (a ++ b) =
  let '(s1, o1) := utf8_run s a in
  let '(s2, o2) := utf8_run s1 b in (s2, o1 ++ o2).
Proof.
  revert s; induction a as [|x a IH]; intros s; simpl.
  - destruct (utf8_run s b); reflexivity.
  - destruct (utf8_byte s x) as [s1 o1]. rewrite IH.
    destruct (utf8_run s1 a) as [s2 o2].
    destruct (utf8_run s2 b) as [s3 o3].
    now rewrite app_assoc.
Qed.

Lemma serialize_app (seen : bool) (o1 o2 : list Z) :
  serialize seen (o1 ++ o2) =
  let '(seen1, t1) := serialize seen o1 in
  let '(seen2, t2) := serialize seen1 o2 in (seen2, t1 ++ t2).
Proof.
  destruct seen; simpl; [reflexivity|].
  destruct o1 as [|c r]; simpl.
  - destruct o2; reflexivity.
  - destruct (c =? BOM); reflexivity.
Qed.

Lemma decode_stream_nil (d : TextDecoder) : decode_stream d [] = (d, []).
Proof. destruct d as [h [|]]; reflexivity. Qed.

Lemma decode_stream_app (d : TextDecoder) (a b : list Z) :
  decode_stream d (a ++ b) =
  let '(d1, t1) := decode_stream d a in
  let '(d2, t2) := decode_stream d1 b in (d2, t1 ++ t2).
Proof.
  unfold decode_stream. rewrite utf8_run_app.
  destruct (utf8_run (handler d) a) as [h1 o1].
  destruct (utf8_run h1 b) as [h2 o2] eqn:E2.
  rewrite serialize_app.
  destruct (serialize (bom_seen d) o1) as [s1 t1]. simpl. rewrite E2.
  destruct (serialize s1 o2) as [s2 t2]. reflexivity.
Qed.

Lemma decode_stream_cons (d : TextDecoder) (b : Z) (r : list Z) :
  decode_stream d (b :: r) =
  let '(d1, t1) := decode_stream d [b] in
  let '(d2, t2) := decode_stream d1 r in (d2, t1 ++ t2).
Proof. exact (decode_stream_app d [b] r). Qed.

Lemma findIndex_Some (p : Z -> bool) (l : list Z) (i : nat) :
  findIndex p l = Some i ->
  (i < length l)%nat /\ p (nth i l 0) = true /\
  (forall x, In x (firstn i l) -> p x = false) /\
  l = firstn i l ++ nth i l 0 :: skipn (S i) l.
Proof.
  revert i; induction l as [|x l IH]; intros i H; simpl in H; [discriminate|].
  destruct (p x) eqn:Px.
  - inversion H; subst; simpl. repeat split; try lia; auto; intros y [].
  - destruct (findIndex p l) as [j|] eqn:F; [|discriminate].
    inversion H; subst. destruct (IH j eq_refl) as (L & P & N & E).
    split; [simpl; lia|]. split; [exact P|]. split.
    + simpl. intros y [<-|Hy]; auto.
    + change (x :: l = x :: (firstn j l ++ nth j l 0 :: skipn (S j) l)).
      now rewrite <- E.
Qed.

Lemma findIndex_None (p : Z -> bool) (l : list Z) :
  findIndex p l = None -> forall x, In x l -> p x = false.
Proof.
  induction l as [|x l IH]; intros H y Hy; simpl in *; [contradiction|].
  destruct (p x) eqn:Px; [discriminate|].
  destruct (findIndex p l); [discriminate|].
  destruct Hy as [<-|Hy]; auto.
Qed.

Lemma length_insert_index (n : Z) (k : text) (l : list (Z * text)) :
  length (insert_index n k l) = S (length l).
Proof.
  induction l as [|[m k'] r IH]; simpl; [reflexivity|].
  destruct (n <? m); simpl; now rewrite ?IH.
Qed.

Lemma length_Object_keys (o : Message) : length (Object_keys o) = length o.
Proof.
  unfold Object_keys. rewrite length_app, length_map.
  induction o as [|[k v] r IH]; simpl; [reflexivity|].
  destruct (array_index k); simpl; rewrite ?length_insert_index; lia.
Qed.

Lemma heap_get_put_same (h : Heap) (l : loc) (m : Message) :
  (l < length h)%nat -> heap_get (heap_put h l m) l = m.
Proof.
  unfold heap_get. revert l; induction h as [|x h IH]; intros [|l] H; simpl in *;
    try lia; auto. apply IH. lia.
Qed.

Lemma heap_get_put_other (h : Heap) (l l' : loc) (m : Message) :
  l <> l' -> heap_get (heap_put h l m) l' = heap_get h l'.
Proof.
  unfold heap_get. revert l l'; induction h as [|x h IH]; intros [|l] [|l'] H;
    simpl; try reflexivity; try congruence. apply IH. congruence.
Qed.

Lemma length_heap_put (h : Heap) (l : loc) (m : Message) :
  length (heap_put h l m) = length h.
Proof.
  revert l; induction h as [|x h IH]; intros [|l]; simpl; auto.
Qed.

Lemma heap_get_alloc_old (h : Heap) (l : loc) :
  (l < length h)%nat -> heap_get (fst (heap_alloc h)) l = heap_get h l.
Proof. intros H. unfold heap_get, heap_alloc; simpl. now rewrite app_nth1. Qed.

Lemma heap_get_alloc_new (h : Heap) :
  heap_get (fst (heap_alloc h)) (snd (heap_alloc h)) = [].
Proof.
  unfold heap_get, heap_alloc; simpl. rewrite app_nth2 by lia.
  now rewrite Nat.sub_diag.
Qed.

(** ** The byte-level machine on runs of ordinary bytes *)

Lemma bytes_run_app (m : Message) (md : Mode) (a b : list Z) :
  bytes_run m md (a ++ b) =
  let '(m1, md1, e1) := bytes_run m md a in
  let '(m2, md2, e2) := bytes_run m1 md1 b in (m2, md2, e1 ++ e2).
Proof.
  revert m md; induction a as [|x a IH]; intros m md; simpl.
  - destruct (bytes_run m md b) as [[? ?] ?]; reflexivity.
  - destruct (byte_step m md x) as [[m1 md1] e1]. rewrite IH.
    destruct (bytes_run m1 md1 a) as [[m2 md2] e2].
    destruct (bytes_run m2 md2 b) as [[m3 md3] e3].
    now rewrite app_assoc.
Qed.

Lemma run_name (m : Message) (bs : list Z) :
  (forall x, In x bs -> notNameChar x = false) ->
  forall d buffer d' t, decode_stream d bs = (d', t) ->
  bytes_run m (InName d buffer) bs = (m, InName d' (buffer ++ t), []).
Proof.
  induction bs as [|b r IH]; intros N d buffer d' t D.
  - rewrite decode_stream_nil in D. inversion D; subst.
    now rewrite app_nil_r.
  - rewrite decode_stream_cons in D.
    destruct (decode_stream d [b]) as [d1 t1] eqn:D1.
    destruct (decode_stream d1 r) as [d2 t2] eqn:D2.
    inversion D; subst. simpl. unfold name_byte.
    rewrite (N b) by now left. rewrite D1.
    rewrite (IH (fun x H => N x (or_intror H)) d1 (buffer ++ t1) d' t2 D2).
    now rewrite app_assoc.
Qed.

Lemma run_value (m : Message) (name : text) (bs : list Z) :
  (forall x, In x bs -> lineEndChar x = false) ->
  forall d buffer d' t, decode_stream d bs = (d', t) ->
  bytes_run m (InValue name false d buffer) bs =
  (m, InValue name false d' (buffer ++ t), []).
Proof.
  induction bs as [|b r IH]; intros N d buffer d' t D.
  - rewrite decode_stream_nil in D. inversion D; subst.
    now rewrite app_nil_r.
  - rewrite decode_stream_cons in D.
    destruct (decode_stream d [b]) as [d1 t1] eqn:D1.
    destruct (decode_stream d1 r) as [d2 t2] eqn:D2.
    inversion D; subst. simpl.
    rewrite (N b) by now left. rewrite D1.
    rewrite (IH (fun x H => N x (or_intror H)) d1 (buffer ++ t1) d' t2 D2).
    now rewrite app_assoc.
Qed.

Lemma run_value_first (m : Message) (name : text) (b : Z) (r : list Z) :
  (forall x, In x (b :: r) -> lineEndChar x = false) ->
  forall d d' buffer', add_bytes true d [] (b :: r) = (d', buffer') ->
  bytes_run m (InValue name true d []) (b :: r) =
  (m, InValue name false d' buffer', []).
Proof.
  intros N d d' buffer' A. unfold add_bytes in A. simpl in A.
  simpl. rewrite (N b) by now left. simpl.
  destruct (b =? SPACE) eqn:Sp; simpl in A.
  - destruct (decode_stream d r) as [d1 t1] eqn:D1. inversion A; subst.
    rewrite (run_value m name r (fun x H => N x (or_intror H)) _ [] _ _ D1).
    reflexivity.
  - rewrite decode_stream_cons in A.
    destruct (decode_stream d [b]) as [d1 t1] eqn:D1.
    destruct (decode_stream d1 r) as [d2 t2] eqn:D2. inversion A; subst.
    rewrite (run_value m name r (fun x H => N x (or_intror H)) _ t1 _ _ D2).
    reflexivity.
Qed.

Lemma run_comment (m : Message) (bs : list Z) :
  (forall x, In x bs -> lineEndChar x = false) ->
  bytes_run m InComment bs = (m, InComment, []).
Proof.
  induction bs as [|b r IH]; intros N; simpl; [reflexivity|].
  rewrite (N b) by now left.
  now rewrite (IH (fun x H => N x (or_intror H))).
Qed.

(** ** The generators follow the byte-level machine *)

Lemma feed_unfold (b : Build) (c : chunk) (s : Session) (fuel : nat) :
  (currentPos s < length c)%nat ->
  feed (S fuel) b c s = feed fuel b c (loop_body b c s).
Proof.
  intros H. simpl. apply Nat.ltb_lt in H. now rewrite H.
Qed.

Lemma feed_done (b : Build) (c : chunk) (s : Session) (fuel : nat) :
  (length c <= currentPos s)%nat -> feed fuel b c s = s.
Proof.
  intros H. destruct fuel; simpl; [reflexivity|].
  apply Nat.ltb_ge in H. now rewrite H.
Qed.

Lemma skipn_nth_cons (c : chunk) (p : nat) :
  (p < length c)%nat ->
  exists b, nth_error c p = Some b /\ skipn p c = b :: skipn (S p) c.
Proof.
  revert p; induction c as [|x c IH]; intros [|p] H; simpl in *; try lia.
  - now exists x.
  - destruct (IH p) as (b & E1 & E2); [lia|]. exists b. split; auto.
Qed.

Lemma heap_projections_consumer (s : Session) :
  heap (consumer_reacts s) = heap s /\ ctx (consumer_reacts s) = ctx s /\
  stateIterator (consumer_reacts s) = stateIterator s /\
  currentPos (consumer_reacts s) = currentPos s /\
  received (consumer_reacts s) = received s /\
  close_after (consumer_reacts s) = close_after s /\
  finishedWith (consumer_reacts s) = finishedWith s.
Proof.
  unfold consumer_reacts, close.
  destruct (close_after s) as [n|] eqn:C; [|now repeat split].
  destruct (Nat.eqb _ n); [|now repeat split].
  destruct (finishedWith s) eqn:F; simpl; now repeat split.
Qed.

Lemma messages_hand_over (s : Session) (l : loc) :
  messages (hand_over s l) = messages s ++ [heap_get (heap s) l].
Proof.
  unfold hand_over, messages.
  destruct (heap_projections_consumer
    (mkSession (heap s) (ctx s) (stateIterator s) (currentPos s) (clientClosed s)
               (finishedWith s) (received s ++ [(l, heap_get (heap s) l)])
               (close_after s))) as (_ & _ & _ & _ & R & _).
  rewrite R. simpl. now rewrite map_app.
Qed.

Lemma hand_over_projections (s : Session) (l : loc) :
  heap (hand_over s l) = heap s /\ ctx (hand_over s l) = ctx s /\
  stateIterator (hand_over s l) = stateIterator s /\
  currentPos (hand_over s l) = currentPos s.
Proof.
  unfold hand_over.
  destruct (heap_projections_consumer
    (mkSession (heap s) (ctx s) (stateIterator s) (currentPos s) (clientClosed s)
               (finishedWith s) (received s ++ [(l, heap_get (heap s) l)])
               (close_after s))) as (H1 & H2 & H3 & H4 & _).
  now rewrite H1, H2, H3, H4.
Qed.

Lemma hand_over_eq (s : Session) (l : loc) :
  hand_over s l =
  mkSession (heap s) (ctx s) (stateIterator s) (currentPos s)
            (clientClosed (hand_over s l)) (finishedWith s)
            (received s ++ [(l, heap_get (heap s) l)]) (close_after s).
Proof.
  unfold hand_over, consumer_reacts, close; simpl.
  destruct (close_after s) as [n|] eqn:C; [|reflexivity].
  destruct (Nat.eqb _ n); [|reflexivity].
  destruct (finishedWith s) eqn:F; simpl; reflexivity.
Qed.

#[local] Arguments feed : simpl never.
#[local] Arguments extra g : simpl nomatch.
#[local] Arguments hand_over : simpl never.

Ltac loop_once :=
  rewrite feed_unfold; [|simpl; lia]; unfold loop_body at 1; simpl.

Ltac session :=
  unfold need, simulates, messages;
  cbn [set_pos stateIterator currentPos ctx decoder heap message received
       out_pos nextState pos];
  simpl extra.

Ltac run_tail :=
  match goal with
  | |- context [bytes_run ?m ?md ?bs] =>
      destruct (bytes_run m md bs) as [[? ?] ?]; reflexivity
  end.

Lemma run_nil (X : Message * Mode * list Message) :
  (let '(m, md, e) := X in (m, md, [] ++ e)) = X.
Proof. now destruct X as [[? ?] ?]. Qed.

Lemma lineEndChar_cases (b : Z) :
  lineEndChar b = true -> b = CR \/ b = LF.
Proof.
  unfold lineEndChar. intros H. apply orb_true_iff in H as [H|H];
    apply Z.eqb_eq in H; auto.
Qed.

Lemma advances_fieldStart (c : chunk) (s : Session) (m : Message) :
  stateIterator s = created fieldStart ->
  decoder (ctx s) = new_TextDecoder ->
  heap_get (heap s) (message (ctx s)) = m ->
  (message (ctx s) < length (heap s))%nat ->
  (currentPos s < length c)%nat ->
  advances c s m AtStart.
Proof.
  intros G D M L P.
  destruct (skipn_nth_cons c _ P) as (b & Nb & Sk).
  destruct s as [h [l d] g p cc fw rc ca].
  cbn [stateIterator ctx decoder heap message currentPos] in *. subst g d.
  unfold advances. cbn [currentPos].
  destruct (b =? COLON) eqn:Bc; [|destruct (lineEndChar b) eqn:Bl].
  - exists 2%nat. eexists. exists m, InComment, [].
    split; [lia|]. split.
    { intros fuel. change (2 + fuel)%nat with (S (S fuel)).
      do 2 loop_once. rewrite Nb, Bc. simpl. reflexivity. }
    unfold need, simulates, messages; simpl.
    repeat split; try lia; try constructor; auto.
    { now rewrite app_nil_r. }
    rewrite Sk, Nat.add_1_r. cbn [bytes_run byte_step]. unfold start_byte.
    rewrite Bc. run_tail.
  - assert (Bl' : (b =? LF) || (b =? CR) = true).
    { rewrite orb_comm. exact Bl. }
    assert (T : tracks (created (skipLFAfterCR b fieldStart)) new_TextDecoder
                       (after_line_end b)).
    { unfold skipLFAfterCR, after_line_end. destruct (b =? LF); constructor. }
    assert (X : (extra (created (skipLFAfterCR b fieldStart)) <= 4)%nat).
    { unfold skipLFAfterCR. destruct (b =? LF); simpl; lia. }
    assert (Sf : space_safe (after_line_end b) (skipn (p + 1) c)).
    { unfold after_line_end. destruct (b =? LF); exact I. }
    destruct m as [|kv m'].
    + exists 3%nat. eexists. exists [], (after_line_end b), [].
      split; [lia|]. split.
      { intros fuel. change (3 + fuel)%nat with (S (S (S fuel))).
        do 2 loop_once. rewrite Nb, Bc, Bl'. simpl. rewrite M. simpl.
        loop_once. reflexivity. }
      unfold need, simulates, messages;
        cbn [stateIterator currentPos ctx decoder heap message received].
      repeat split; try lia; auto.
      { unfold heap_get. rewrite app_nth2 by lia. now rewrite Nat.sub_diag. }
      { rewrite length_app. simpl. lia. }
      { now rewrite app_nil_r. }
      rewrite Sk, Nat.add_1_r. cbn [bytes_run byte_step]. unfold start_byte.
      rewrite Bc, Bl. run_tail.
    + exists 3%nat. eexists. exists [], (after_line_end b), [kv :: m'].
      split; [lia|]. split.
      { intros fuel. change (3 + fuel)%nat with (S (S (S fuel))).
        do 2 loop_once. rewrite Nb, Bc, Bl'. simpl.
        rewrite length_Object_keys, M. simpl.
        rewrite hand_over_eq.
        cbn [heap ctx stateIterator currentPos finishedWith received close_after].
        loop_once. reflexivity. }
      unfold need, simulates, messages;
        cbn [stateIterator currentPos ctx decoder heap message received].
      repeat split; try lia; auto.
      { unfold heap_get. rewrite app_nth2 by lia. now rewrite Nat.sub_diag. }
      { rewrite length_app. simpl. lia. }
      { rewrite map_app. simpl. now rewrite M. }
      rewrite Sk, Nat.add_1_r. cbn [bytes_run byte_step]. unfold start_byte.
      rewrite Bc, Bl. run_tail.
  - exists 2%nat. eexists. exists m, (InName new_TextDecoder []), [].
    split; [lia|]. split.
    { intros fuel. change (2 + fuel)%nat with (S (S fuel)).
      do 2 loop_once. rewrite Nb, Bc.
      replace ((b =? LF) || (b =? CR)) with false
        by (rewrite orb_comm; symmetry; exact Bl).
      reflexivity. }
    unfold need, simulates, messages; simpl.
    repeat split; try lia; try constructor; auto.
    { now rewrite app_nil_r. }
    rewrite Sk. cbn [bytes_run byte_step]. unfold start_byte.
    rewrite Bc, Bl.
    destruct (name_byte m new_TextDecoder [] b) as [[? ?] ?]. run_tail.
Qed.

Lemma loop_body_returned (b : Build) (c : chunk) (s : Session) h' cx' t :
  next b (heap s) (ctx s) (stateIterator s) (mkInput c (currentPos s))
  = (h', cx', returned t) ->
  loop_body b c s =
  mkSession h' cx' (created (nextState t)) (pos t) (clientClosed s)
            (finishedWith s) (received s) (close_after s).
Proof. intros H. unfold loop_body. now rewrite H. Qed.

Lemma loop_body_more (b : Build) (c : chunk) (s : Session) h' cx' g q :
  next b (heap s) (ctx s) (stateIterator s) (mkInput c (currentPos s))
  = (h', cx', yielded g (mkOutput None (Some q))) ->
  loop_body b c s =
  mkSession h' cx' g q (clientClosed s)
            (finishedWith s) (received s) (close_after s).
Proof. intros H. unfold loop_body. now rewrite H. Qed.

Lemma found_split (p : Z -> bool) (c : chunk) (n i : nat) :
  findIndex p (skipn n c) = Some i ->
  let x := nth i (skipn n c) 0 in
  (n + i < length c)%nat /\ p x = true /\
  (forall y, In y (firstn i (skipn n c)) -> p y = false) /\
  skipn n c = firstn i (skipn n c) ++ x :: skipn (S (n + i)) c /\
  skipn (n + i) c = x :: skipn (S (n + i)) c.
Proof.
  intros F x. destruct (findIndex_Some _ _ _ F) as (L & Px & N & E).
  rewrite length_skipn in L.
  assert (E' : skipn (S i) (skipn n c) = skipn (S (n + i)) c).
  { rewrite skipn_skipn. f_equal. lia. }
  rewrite E' in E. fold x in E.
  split; [lia|]. split; [exact Px|]. split; [exact N|]. split; [exact E|].
  assert (E2 : skipn (n + i) c = skipn i (skipn n c)).
  { rewrite skipn_skipn. f_equal. lia. }
  rewrite E2. rewrite E at 1.
  assert (Li : length (firstn i (skipn n c)) = i).
  { rewrite length_firstn, length_skipn. lia. }
  rewrite <- Li at 1. rewrite skipn_app, skipn_all, Nat.sub_diag.
  reflexivity.
Qed.

Lemma add_bytes_plain (skip : bool) (d : TextDecoder) (buffer : text) (bs : list Z) :
  (skip = true -> buffer = [] ->
   match bs with b :: _ => b <> SPACE | [] => True end) ->
  add_bytes skip d buffer bs =
  let '(d', t) := decode_stream d bs in (d', buffer ++ t).
Proof.
  intros H. unfold add_bytes.
  destruct buffer as [|x buffer]; [|reflexivity].
  destruct bs as [|b r]; [reflexivity|].
  destruct skip; [|reflexivity]. simpl.
  specialize (H eq_refl eq_refl). apply Z.eqb_neq in H. now rewrite H.
Qed.

Lemma advances_skipLF (c : chunk) (s : Session) (m : Message) :
  stateIterator s = created (skipLF fieldStart) ->
  decoder (ctx s) = new_TextDecoder ->
  heap_get (heap s) (message (ctx s)) = m ->
  (message (ctx s) < length (heap s))%nat ->
  (currentPos s < length c)%nat ->
  advances c s m AfterCR.
Proof.
  intros G D M L P.
  destruct (skipn_nth_cons c _ P) as (b & Nb & Sk).
  destruct s as [h [l d] g p cc fw rc ca].
  cbn [stateIterator ctx decoder heap message currentPos] in *. subst g d.
  unfold advances. cbn [currentPos].
  exists 2%nat. eexists. exists m, AtStart, [].
  split; [lia|]. split.
  { intros fuel. change (2 + fuel)%nat with (S (S fuel)).
    do 2 loop_once. rewrite Nb. reflexivity. }
  session.
  destruct (b =? LF) eqn:Bl.
  - repeat split; try lia; try constructor; auto.
    { now rewrite app_nil_r. }
    rewrite Sk, Nat.add_1_r. cbn [bytes_run byte_step]. rewrite Bl. run_tail.
  - repeat split; try lia; try constructor; auto.
    { now rewrite app_nil_r. }
    rewrite Sk. cbn [bytes_run byte_step]. rewrite Bl.
    destruct (start_byte m b) as [[? ?] ?]. run_tail.
Qed.

Lemma skipComment_loop_sim (c : chunk) (p : nat) (m : Message) :
  (p < length c)%nat ->
  match skipComment_loop c p with
  | returned t =>
      (p <= pos t < length c)%nat /\
      exists md, tracks (created (nextState t)) new_TextDecoder md /\
        (extra (created (nextState t)) <= 4)%nat /\
        space_safe md (skipn (pos t) c) /\
        bytes_run m InComment (skipn p c) = bytes_run m md (skipn (pos t) c)
  | yielded g out =>
      g = skipComment_yield1 /\ out = mkOutput None (Some (length c)) /\
      bytes_run m InComment (skipn p c) = (m, InComment, [])
  end.
Proof.
  intros P. unfold skipComment_loop, subarray_from.
  destruct (findIndex lineEndChar (skipn p c)) as [i|] eqn:F.
  - destruct (found_split _ _ _ _ F) as (L & Px & N & E & E2).
    set (x := nth i (skipn p c) 0) in *.
    cbn [pos nextState]. split; [lia|].
    assert (R : bytes_run m InComment (skipn p c) =
                (let '(m1, md1, e1) := start_byte m x in
                 let '(m2, md2, e2) := bytes_run m1 md1 (skipn (S (p + i)) c) in
                 (m2, md2, e1 ++ e2))).
    { rewrite E at 1. rewrite bytes_run_app, (run_comment m _ N).
      cbn [bytes_run byte_step]. rewrite Px.
      destruct (start_byte m x) as [[m1 md1] e1].
      destruct (bytes_run m1 md1 _) as [[m2 md2] e2]. reflexivity. }
    destruct (lineEndChar_cases _ Px) as [X|X].
    + exists AfterCR. rewrite X. cbn. repeat split; try constructor; try lia.
      rewrite R, E2, X. reflexivity.
    + exists AtStart. rewrite X. cbn. repeat split; try constructor; try lia.
      rewrite R, E2, X. reflexivity.
  - repeat split. apply run_comment. now apply findIndex_None.
Qed.

Lemma advances_comment (c : chunk) (s : Session) (m : Message) :
  stateIterator s = created skipComment \/ stateIterator s = skipComment_yield1 ->
  decoder (ctx s) = new_TextDecoder ->
  heap_get (heap s) (message (ctx s)) = m ->
  (message (ctx s) < length (heap s))%nat ->
  (currentPos s < length c)%nat ->
  advances c s m InComment.
Proof.
  intros G D M L P.
  destruct s as [h [l d] g p cc fw rc ca].
  cbn [stateIterator ctx decoder heap message currentPos] in *. subst d.
  pose proof (skipComment_loop_sim c p m P) as S.
  unfold advances. cbn [currentPos].
  destruct (skipComment_loop c p) as [g' out|t] eqn:Lp.
  - destruct S as (-> & -> & R).
    destruct G as [->| ->].
    + exists 2%nat. eexists. exists m, InComment, [].
      split; [lia|]. split.
      { intros fuel. change (2 + fuel)%nat with (S (S fuel)).
        do 2 loop_once. rewrite Lp. simpl. reflexivity. }
      session.
      repeat split; try lia; try constructor; auto.
      { now rewrite app_nil_r. }
      rewrite R, skipn_all. reflexivity.
    + exists 1%nat. eexists. exists m, InComment, [].
      split; [lia|]. split.
      { intros fuel. change (1 + fuel)%nat with (S fuel).
        loop_once. rewrite Lp. simpl. reflexivity. }
      session.
      repeat split; try lia; try constructor; auto.
      { now rewrite app_nil_r. }
      rewrite R, skipn_all. reflexivity.
  - destruct S as (Pt & md & T & X & Sf & R).
    destruct G as [->| ->].
    + exists 2%nat. eexists. exists m, md, [].
      split; [lia|]. split.
      { intros fuel. change (2 + fuel)%nat with (S (S fuel)).
        do 2 loop_once. rewrite Lp. simpl. reflexivity. }
      session.
      repeat split; try lia; auto.
      { now rewrite app_nil_r. }
      rewrite R. run_tail.
    + exists 1%nat. eexists. exists m, md, [].
      split; [lia|]. split.
      { intros fuel. change (1 + fuel)%nat with (S fuel).
        loop_once. rewrite Lp. simpl. reflexivity. }
      session.
      repeat split; try lia; auto.
      { now rewrite app_nil_r. }
      rewrite R. run_tail.
Qed.

Lemma run_value_any (m : Message) (name : text) (first : bool) (bs : list Z) :
  (forall x, In x bs -> lineEndChar x = false) ->
  forall d buffer d' buffer',
  (first = true -> buffer = []) ->
  (first = false -> buffer = [] ->
   match bs with b :: _ => b <> SPACE | [] => True end) ->
  add_bytes true d buffer bs = (d', buffer') ->
  bytes_run m (InValue name first d buffer) bs =
  (m, InValue name (first && match bs with [] => true | _ => false end) d' buffer',
   []).
Proof.
  intros N d buffer d' buffer' F S A.
  destruct bs as [|b r].
  - unfold add_bytes in A.
    assert (A' : decode_stream d [] = (d, [])) by apply decode_stream_nil.
    destruct buffer; rewrite A' in A; inversion A; subst;
      rewrite ?app_nil_r, andb_true_r; reflexivity.
  - rewrite andb_false_r. destruct first.
    + rewrite (F eq_refl) in *. now apply run_value_first.
    + rewrite add_bytes_plain in A by (intros _; exact (S eq_refl)).
      destruct (decode_stream d (b :: r)) as [d1 t1] eqn:D. inversion A; subst.
      now apply run_value.
Qed.

Lemma tracks_after_line_end (x : Z) :
  tracks (created (skipLFAfterCR x fieldStart)) new_TextDecoder (after_line_end x)
  /\ (extra (created (skipLFAfterCR x fieldStart)) <= 4)%nat
  /\ forall bs, space_safe (after_line_end x) bs.
Proof.
  unfold skipLFAfterCR, after_line_end.
  destruct (x =? LF); repeat split; try constructor; simpl; try lia.
Qed.

Lemma collect_name_sim (c : chunk) (p : nat) (h : Heap) (l : loc)
    (d : TextDecoder) (buffer : text) (m : Message) :
  (p < length c)%nat -> heap_get h l = m -> (l < length h)%nat ->
  match collectUntilChar_loop for_fieldName is_notNameChar false h (mkCtx l d) buffer c p with
  | (h', cx', returned t) =>
      (p < pos t <= length c)%nat /\ cx' = mkCtx l new_TextDecoder /\
      (l < length h')%nat /\
      exists md, tracks (created (nextState t)) new_TextDecoder md /\
        (extra (created (nextState t)) <= 4)%nat /\
        space_safe md (skipn (pos t) c) /\
        bytes_run m (InName d buffer) (skipn p c)
        = bytes_run (heap_get h' l) md (skipn (pos t) c)
  | (h', cx', yielded g out) =>
      h' = h /\ cx' = mkCtx l d /\
      g = collectUntilChar_yield1 for_fieldName is_notNameChar false buffer (skipn p c) /\
      out = mkOutput None (Some (length c)) /\
      forall d' buffer', add_bytes false d buffer (skipn p c) = (d', buffer') ->
        bytes_run m (InName d buffer) (skipn p c) = (m, InName d' buffer', [])
  end.
Proof.
  intros P M L. unfold collectUntilChar_loop, subarray_from, subarray_to.
  cbn [holds decoder message].
  destruct (findIndex notNameChar (skipn p c)) as [i|] eqn:F.
  - destruct (found_split _ _ _ _ F) as (Li & Px & N & E & E2).
    set (x := nth i (skipn p c) 0) in *.
    rewrite add_bytes_plain by discriminate.
    destruct (decode_stream d (firstn i (skipn p c))) as [d1 t1] eqn:D1.
    assert (R : bytes_run m (InName d buffer) (skipn p c) =
      (let '(m1, md1, e1) := name_byte m d1 (buffer ++ t1) x in
       let '(m2, md2, e2) := bytes_run m1 md1 (skipn (S (p + i)) c) in
       (m2, md2, e1 ++ e2))).
    { rewrite E at 1. rewrite bytes_run_app, (run_name m _ N _ _ _ _ D1).
      cbn [bytes_run byte_step].
      destruct (name_byte m d1 (buffer ++ t1) x) as [[m1 md1] e1].
      destruct (bytes_run m1 md1 _) as [[m2 md2] e2]. reflexivity. }
    unfold name_byte in R. rewrite Px in R.
    cbn [collectUntilChar_return]. unfold fieldName_rest. cbn [message].
    replace ((x =? LF) || (x =? CR)) with (lineEndChar x)
      by (unfold lineEndChar; apply orb_comm).
    destruct (lineEndChar x) eqn:Lx.
    + cbn [pos nextState]. split; [lia|]. split; [reflexivity|].
      rewrite length_heap_put. split; [exact L|].
      destruct (tracks_after_line_end x) as (T & X & Sf).
      exists (after_line_end x). repeat split; auto.
      rewrite R, heap_get_put_same, M by exact L. run_tail.
    + cbn [pos nextState]. split; [lia|]. split; [reflexivity|].
      split; [exact L|].
      exists (InValue ((buffer ++ t1) ++ decode_flush d1) true new_TextDecoder []).
      repeat split; try constructor; simpl extra; try lia.
      rewrite R, M. run_tail.
  - repeat split. intros d' buffer' A.
    rewrite add_bytes_plain in A by discriminate.
    destruct (decode_stream d (skipn p c)) as [d1 t1] eqn:D1. inversion A; subst.
    apply run_name; auto. now apply findIndex_None.
Qed.

Lemma collect_value_sim (c : chunk) (p : nat) (h : Heap) (l : loc)
    (d : TextDecoder) (buffer : text) (name : text) (first : bool) (m : Message) :
  (p < length c)%nat -> heap_get h l = m -> (l < length h)%nat ->
  (first = true -> buffer = []) ->
  space_safe (InValue name first d buffer) (skipn p c) ->
  match collectUntilChar_loop (for_fieldValue name) is_lineEndChar true h (mkCtx l d)
                     buffer c p with
  | (h', cx', returned t) =>
      (p < pos t <= length c)%nat /\ cx' = mkCtx l new_TextDecoder /\
      (l < length h')%nat /\
      exists md, tracks (created (nextState t)) new_TextDecoder md /\
        (extra (created (nextState t)) <= 4)%nat /\
        space_safe md (skipn (pos t) c) /\
        bytes_run m (InValue name first d buffer) (skipn p c)
        = bytes_run (heap_get h' l) md (skipn (pos t) c)
  | (h', cx', yielded g out) =>
      h' = h /\ cx' = mkCtx l d /\
      g = collectUntilChar_yield1 (for_fieldValue name) is_lineEndChar true buffer (skipn p c) /\
      out = mkOutput None (Some (length c)) /\
      skipn p c <> [] /\
      forall d' buffer', add_bytes true d buffer (skipn p c) = (d', buffer') ->
        bytes_run m (InValue name first d buffer) (skipn p c)
        = (m, InValue name false d' buffer', [])
  end.
Proof.
  intros P M L Fb Sf. unfold collectUntilChar_loop, subarray_from, subarray_to.
  cbn [holds decoder message].
  destruct (skipn_nth_cons c p P) as (b0 & _ & Sk).
  assert (Sf' : first = false -> buffer = [] -> b0 <> SPACE).
  { intros F1 F2. rewrite F1, Sk, F2 in Sf. exact Sf. }
  destruct (findIndex lineEndChar (skipn p c)) as [i|] eqn:F.
  - destruct (found_split _ _ _ _ F) as (Li & Px & N & E & E2).
    set (x := nth i (skipn p c) 0) in *.
    destruct (add_bytes true d buffer (firstn i (skipn p c))) as [d1 buf1] eqn:A.
    assert (R : bytes_run m (InValue name first d buffer) (skipn p c) =
      (let '(m2, md2, e2) :=
         bytes_run (assign m name (buf1 ++ decode_flush d1)) (after_line_end x)
                   (skipn (S (p + i)) c) in
       (m2, md2, [] ++ e2))).
    { rewrite E at 1. rewrite bytes_run_app.
      rewrite (run_value_any m name first _ N d buffer d1 buf1 Fb); auto.
      - cbn [bytes_run byte_step]. rewrite Px. run_tail.
      - intros F1 F2. rewrite Sk. destruct i; simpl; auto. }
    cbn [collectUntilChar_return]. unfold fieldValue_rest. cbn [message pos nextState].
    split; [lia|]. split; [reflexivity|].
    rewrite length_heap_put. split; [exact L|].
    destruct (tracks_after_line_end x) as (T & X & S').
    exists (after_line_end x). repeat split; auto.
    rewrite R, heap_get_put_same, M by exact L. apply run_nil.
  - repeat split.
    + rewrite Sk. discriminate.
    + intros d' buffer' A.
      rewrite (run_value_any m name first _ (findIndex_None _ _ F) d buffer d' buffer' Fb);
        auto.
      * rewrite Sk, andb_false_r. reflexivity.
      * intros F1 F2. rewrite Sk. auto.
Qed.

Lemma advances_name (c : chunk) (s : Session) (m : Message) (md : Mode) :
  tracks (stateIterator s) (decoder (ctx s)) md ->
  (exists d buffer, md = InName d buffer) ->
  heap_get (heap s) (message (ctx s)) = m ->
  (message (ctx s) < length (heap s))%nat ->
  (currentPos s < length c)%nat ->
  advances c s m md.
Proof.
  intros T (dA & bA & ->) M L P.
  destruct s as [h [l d] g p cc fw rc ca].
  cbn [stateIterator ctx decoder heap message currentPos] in *.
  unfold advances. cbn [currentPos].
  inversion T; subst.
  - pose proof (collect_name_sim c p h l new_TextDecoder [] _ P eq_refl L) as S.
    destruct (collectUntilChar_loop _ _ _ h _ [] c p) as [[h' cx'] [g' out|t]] eqn:Lp.
    + destruct S as (-> & -> & -> & -> & R).
      destruct (add_bytes false new_TextDecoder [] (skipn p c)) as [d' b'] eqn:A.
      exists 2%nat. eexists. exists (heap_get h l), (InName d' b'), [].
      split; [lia|]. split.
      { intros fuel. change (2 + fuel)%nat with (S (S fuel)).
        do 2 loop_once. rewrite Lp. simpl. reflexivity. }
      session.
      repeat split; try lia; try (now constructor); auto.
      { now rewrite app_nil_r. }
      rewrite (R _ _ eq_refl), skipn_all. reflexivity.
    + destruct S as (Pt & -> & L' & md & T' & X & Sf & R).
      exists 2%nat. eexists. exists (heap_get h' l), md, [].
      split; [lia|]. split.
      { intros fuel. change (2 + fuel)%nat with (S (S fuel)).
        do 2 loop_once. rewrite Lp. simpl. reflexivity. }
      session.
      repeat split; try lia; auto.
      { now rewrite app_nil_r. }
      rewrite R. run_tail.
  - match goal with A0 : add_bytes false _ _ _ = _ |- _ => rename A0 into A end.
    pose proof (collect_name_sim c p h l dA bA _ P eq_refl L) as S.
    destruct (collectUntilChar_loop _ _ _ h _ bA c p) as [[h' cx'] [g' out|t]] eqn:Lp.
    + destruct S as (-> & -> & -> & -> & R).
      destruct (add_bytes false dA bA (skipn p c)) as [d' b'] eqn:A2.
      exists 1%nat. eexists. exists (heap_get h l), (InName d' b'), [].
      split; [lia|]. split.
      { intros fuel. change (1 + fuel)%nat with (S fuel).
        loop_once. rewrite A. cbn [message]. rewrite Lp. simpl. reflexivity. }
      session.
      repeat split; try lia; try (now constructor); auto.
      { now rewrite app_nil_r. }
      rewrite (R _ _ eq_refl), skipn_all. reflexivity.
    + destruct S as (Pt & -> & L' & md & T' & X & Sf & R).
      exists 1%nat. eexists. exists (heap_get h' l), md, [].
      split; [lia|]. split.
      { intros fuel. change (1 + fuel)%nat with (S fuel).
        loop_once. rewrite A. cbn [message]. rewrite Lp. simpl. reflexivity. }
      session.
      repeat split; try lia; auto.
      { now rewrite app_nil_r. }
      rewrite R. run_tail.
Qed.

Lemma advances_value (c : chunk) (s : Session) (m : Message) (md : Mode) :
  tracks (stateIterator s) (decoder (ctx s)) md ->
  (exists name first d buffer, md = InValue name first d buffer) ->
  heap_get (heap s) (message (ctx s)) = m ->
  (message (ctx s) < length (heap s))%nat ->
  (currentPos s < length c)%nat ->
  space_safe md (skipn (currentPos s) c) ->
  advances c s m md.
Proof.
  intros T (nA & fA & dA & bA & ->) M L P Sf.
  destruct s as [h [l d] g p cc fw rc ca].
  cbn [stateIterator ctx decoder heap message currentPos] in *.
  unfold advances. cbn [currentPos].
  inversion T; subst.
  - pose proof (collect_value_sim c p h l new_TextDecoder [] nA true _ P eq_refl L
                  (fun _ => eq_refl) I) as S.
    destruct (collectUntilChar_loop _ _ _ h _ [] c p) as [[h' cx'] [g' out|t]] eqn:Lp.
    + destruct S as (-> & -> & -> & -> & Ne & R).
      destruct (add_bytes true new_TextDecoder [] (skipn p c)) as [d' b'] eqn:A.
      exists 2%nat. eexists. exists (heap_get h l), (InValue nA false d' b'), [].
      split; [lia|]. split.
      { intros fuel. change (2 + fuel)%nat with (S (S fuel)).
        do 2 loop_once. rewrite Lp. simpl. reflexivity. }
      session.
      repeat split; try lia; try (now constructor); auto.
      { rewrite skipn_all. now destruct b'. }
      { now rewrite app_nil_r. }
      rewrite (R _ _ eq_refl), skipn_all. reflexivity.
    + destruct S as (Pt & -> & L' & md & T' & X & Sf' & R).
      exists 2%nat. eexists. exists (heap_get h' l), md, [].
      split; [lia|]. split.
      { intros fuel. change (2 + fuel)%nat with (S (S fuel)).
        do 2 loop_once. rewrite Lp. simpl. reflexivity. }
      session.
      repeat split; try lia; auto.
      { now rewrite app_nil_r. }
      rewrite R. run_tail.
  - match goal with A0 : add_bytes true _ _ _ = _ |- _ => rename A0 into A end.
    match goal with F0 : fA = true -> bA = [] |- _ => rename F0 into Fb end.
    pose proof (collect_value_sim c p h l dA bA nA fA _ P eq_refl L Fb Sf) as S.
    destruct (collectUntilChar_loop _ _ _ h _ bA c p) as [[h' cx'] [g' out|t]] eqn:Lp.
    + destruct S as (-> & -> & -> & -> & Ne & R).
      destruct (add_bytes true dA bA (skipn p c)) as [d' b'] eqn:A2.
      exists 1%nat. eexists. exists (heap_get h l), (InValue nA false d' b'), [].
      split; [lia|]. split.
      { intros fuel. change (1 + fuel)%nat with (S fuel).
        loop_once. rewrite A. cbn [message]. rewrite Lp. simpl. reflexivity. }
      session.
      repeat split; try lia; try (now constructor); auto.
      { rewrite skipn_all. now destruct b'. }
      { now rewrite app_nil_r. }
      rewrite (R _ _ eq_refl), skipn_all. reflexivity.
    + destruct S as (Pt & -> & L' & md & T' & X & Sf' & R).
      exists 1%nat. eexists. exists (heap_get h' l), md, [].
      split; [lia|]. split.
      { intros fuel. change (1 + fuel)%nat with (S fuel).
        loop_once. rewrite A. cbn [message]. rewrite Lp. simpl. reflexivity. }
      session.
      repeat split; try lia; auto.
      { now rewrite app_nil_r. }
      rewrite R. run_tail.
Qed.

(** Every session that tracks the byte-level machine and has bytes left
    in its chunk advances. *)
Lemma advances_any (c : chunk) (s : Session) (m : Message) (md : Mode) :
  simulates s m md ->
  (currentPos s < length c)%nat ->
  space_safe md (skipn (currentPos s) c) ->
  advances c s m md.
Proof.
  intros (T & M & L) P Sf.
  inversion T; subst.
  - apply advances_fieldStart; auto.
  - apply advances_skipLF; auto.
  - apply advances_comment; auto.
  - apply advances_comment; auto.
  - apply advances_name; eauto.
  - apply advances_value; eauto.
  - apply advances_name; eauto.
  - apply advances_value; eauto.
Qed.

Lemma feed_add (c : chunk) (s s' : Session) (k fuel : nat) :
  (forall f, feed (k + f) lib_ts c s = feed f lib_ts c s') ->
  (k <= fuel)%nat ->
  feed fuel lib_ts c s = feed (fuel - k) lib_ts c s'.
Proof.
  intros H K. rewrite <- (H (fuel - k)%nat). f_equal. lia.
Qed.

(** The inner loop consumes the whole chunk within its fuel and ends
    where the byte-level machine ends. *)
Lemma feed_sim (c : chunk) :
  forall (n : nat) (s : Session) (m : Message) (md : Mode),
    (need c s <= n)%nat ->
    (currentPos s <= length c)%nat ->
    simulates s m md ->
    space_safe md (skipn (currentPos s) c) ->
    forall fuel, (n <= fuel)%nat ->
    exists m' md' o,
      currentPos (feed fuel lib_ts c s) = length c /\
      simulates (feed fuel lib_ts c s) m' md' /\
      messages (feed fuel lib_ts c s) = messages s ++ o /\
      bytes_run m md (skipn (currentPos s) c) = (m', md', o).
Proof.
  induction n as [n IH] using lt_wf_ind.
  intros s m md Hn Hp Hs Hsafe fuel Hf.
  destruct (Nat.eq_dec (currentPos s) (length c)) as [E|E].
  - exists m, md, []. rewrite feed_done by lia.
    rewrite E, skipn_all, app_nil_r. auto.
  - destruct (advances_any c s m md Hs ltac:(lia) Hsafe)
      as (k & s1 & m1 & md1 & o1 & K & Fd & Nd & P1 & S1 & Sf1 & M1 & R1).
    rewrite (feed_add c s s1 k fuel Fd) by lia.
    destruct (IH (need c s1) ltac:(lia) s1 m1 md1 (Nat.le_refl _) P1 S1 Sf1
                 (fuel - k)%nat ltac:(lia))
      as (m' & md' & o' & P' & S' & M' & R').
    exists m', md', (o1 ++ o'). repeat split; try apply S'; auto.
    + rewrite M', M1. now rewrite app_assoc.
    + rewrite R1, R'. reflexivity.
Qed.

Lemma extra_le (g : Generator) : (extra g <= 6)%nat.
Proof. destruct g as [[]| | | | | | |]; simpl; lia. Qed.

Lemma chunk_sim (c : chunk) (s : Session) (m : Message) (md : Mode) :
  simulates s m md ->
  space_safe md c ->
  exists m' md' o,
    currentPos (feed (chunk_fuel c) lib_ts c (set_pos s O)) = length c /\
    simulates (feed (chunk_fuel c) lib_ts c (set_pos s O)) m' md' /\
    messages (feed (chunk_fuel c) lib_ts c (set_pos s O)) = messages s ++ o /\
    bytes_run m md c = (m', md', o).
Proof.
  intros Hs Hsafe.
  apply (feed_sim c (chunk_fuel c) (set_pos s O) m md).
  - unfold need, chunk_fuel. simpl.
    pose proof (extra_le (stateIterator s)). lia.
  - simpl. lia.
  - exact Hs.
  - exact Hsafe.
  - lia.
Qed.

(** ** What a chunk boundary does *)

Lemma tracks_resume (g : Generator) (d : TextDecoder) (md : Mode) :
  tracks g d md -> tracks g d (resume_mode md).
Proof.
  intros T. inversion T; subst; simpl; try constructor; auto.
  destruct first; [now constructor|].
  destruct buffer'; now constructor.
Qed.

Lemma space_safe_resume (md : Mode) (bs : list Z) :
  space_safe (resume_mode md) bs.
Proof.
  destruct md as [| | | |name [|] d [|x buffer]]; simpl; auto;
    destruct bs; auto.
Qed.

Lemma simulates_resume (s : Session) (m : Message) (md : Mode) :
  simulates s m md -> simulates s m (resume_mode md).
Proof. intros (T & M & L). repeat split; auto using tracks_resume. Qed.

(** The fuel given to [feed] in [read_loop] is never used up: the inner
    loop always reaches the end of the chunk. *)
Lemma feed_ends (c : chunk) (s : Session) (m : Message) (md : Mode) :
  simulates s m md ->
  currentPos (feed (chunk_fuel c) lib_ts c (set_pos s O)) = length c.
Proof.
  intros Hs.
  destruct (chunk_sim c s m (resume_mode md) (simulates_resume _ _ _ Hs)
              (space_safe_resume _ _)) as (? & ? & ? & H & _).
  exact H.
Qed.

(** [feed] and [loop_body] leave the consumer's plan and the cached result
    alone, and a consumer that never closes never sets the flag. *)
Lemma loop_body_keeps (b : Build) (c : chunk) (s : Session) :
  close_after (loop_body b c s) = close_after s /\
  finishedWith (loop_body b c s) = finishedWith s /\
  (close_after s = None -> clientClosed (loop_body b c s) = clientClosed s).
Proof.
  unfold loop_body.
  destruct (next b (heap s) (ctx s) (stateIterator s) _) as [[h cx] [g out|t]];
    [|now repeat split].
  destruct out as [[l|] [q|]]; cbn [out_message out_pos];
    try destruct (0 <? length (Object_keys (heap_get h l)))%nat;
    try rewrite hand_over_eq; cbn; repeat split; auto;
    intros C; unfold hand_over, consumer_reacts; cbn; now rewrite C.
Qed.

Lemma feed_keeps (b : Build) (c : chunk) (fuel : nat) (s : Session) :
  close_after (feed fuel b c s) = close_after s /\
  finishedWith (feed fuel b c s) = finishedWith s /\
  (close_after s = None -> clientClosed (feed fuel b c s) = clientClosed s).
Proof.
  revert s; induction fuel as [|fuel IH]; intros s; [now repeat split|].
  unfold feed; fold feed.
  destruct (currentPos s <? length c)%nat; [|now repeat split].
  destruct (IH (loop_body b c s)) as (A & B & C).
  destruct (loop_body_keeps b c s) as (A' & B' & C').
  repeat split; try congruence.
  intros N. rewrite C by congruence. auto.
Qed.

(** The driver over a whole source, for a consumer that never closes. *)
Lemma read_loop_sim (source : list chunk) :
  forall (s : Session) (m : Message) (md : Mode),
    simulates s m md ->
    clientClosed s = false -> close_after s = None ->
    exists m' md' o,
      simulates (read_loop lib_ts source s) m' md' /\
      messages (read_loop lib_ts source s) = messages s ++ o /\
      chunks_run m md source = (m', md', o).
Proof.
  induction source as [|c source IH]; intros s m md Hs Hc Ha.
  - exists m, md, []. simpl. rewrite Hc, app_nil_r. auto.
  - simpl. rewrite Hc.
    destruct c as [|b c'].
    + simpl. destruct (IH s m (resume_mode md) (simulates_resume _ _ _ Hs) Hc Ha)
        as (m' & md' & o & S' & M' & R').
      exists m', md', o. rewrite R'. auto.
    + cbn [length Nat.ltb Nat.leb].
      destruct (chunk_sim (b :: c') s m (resume_mode md)
                  (simulates_resume _ _ _ Hs) (space_safe_resume _ _))
        as (m1 & md1 & o1 & _ & S1 & M1 & R1).
      destruct (feed_keeps lib_ts (b :: c') (chunk_fuel (b :: c')) (set_pos s O))
        as (A & _ & C).
      destruct (IH _ m1 md1 S1) as (m' & md' & o & S' & M' & R').
      { rewrite C by exact Ha. exact Hc. }
      { rewrite A. exact Ha. }
      exists m', md', (o1 ++ o). rewrite R1, R'. repeat split; try apply S'.
      rewrite M', M1. now rewrite app_assoc.
Qed.

Lemma read_loop_simulates (source : list chunk) :
  forall (s : Session) (m : Message) (md : Mode),
    simulates s m md ->
    exists m' md', simulates (read_loop lib_ts source s) m' md'.
Proof.
  induction source as [|c source IH]; intros s m md Hs; simpl;
    destruct (clientClosed s); eauto.
  destruct (0 <? length c)%nat; eauto.
  destruct (chunk_sim c s m (resume_mode md) (simulates_resume _ _ _ Hs)
              (space_safe_resume _ _)) as (m1 & md1 & o1 & _ & S1 & _).
  eauto.
Qed.

(** Whatever was read before and whoever consumes, the inner loop reaches
    the end of the next chunk within [chunk_fuel]. *)
Lemma fuel_suffices (consumer : option nat) (pre : list chunk) (c : chunk) :
  currentPos (feed (chunk_fuel c) lib_ts c
                (set_pos (read_loop lib_ts pre (new_session consumer)) O))
  = length c.
Proof.
  assert (S0 : simulates (new_session consumer) [] AtStart).
  { unfold new_session.
    destruct (heap_projections_consumer
                (mkSession [[]] (mkCtx O new_TextDecoder) (created fieldStart) O
                           false None [] consumer)) as (H1 & H2 & H3 & _).
    unfold simulates. rewrite H1, H2, H3. simpl.
    repeat split; try constructor. }
  destruct (read_loop_simulates pre _ _ _ S0) as (m & md & S1).
  exact (feed_ends c _ m md S1).
Qed.

(** The parser is the byte-level machine run chunk by chunk. *)
Lemma parse_chunks (source : list chunk) :
  parse source = snd (chunks_run [] AtStart source).
Proof.
  unfold parse, getMessages, getMessagesOf.
  destruct (read_loop_sim source (new_session None) [] AtStart)
    as (m' & md' & o & _ & M & R); try reflexivity.
  { repeat split; simpl; try constructor. }
  rewrite R. simpl. unfold messages in *. simpl in *. exact M.
Qed.

(** A single chunk is read as the byte-level machine reads its bytes. *)
Lemma parse_one_chunk (c : chunk) : parse [c] = stream_messages c.
Proof.
  rewrite parse_chunks. unfold stream_messages. simpl.
  destruct (bytes_run [] AtStart c) as [[m md] o]. simpl.
  now rewrite app_nil_r.
Qed.

(** ** Records on the wire *)

Lemma notNameChar_lineEnd (x : Z) : notNameChar x = false -> lineEndChar x = false.
Proof.
  unfold notNameChar, lineEndChar. intros H.
  apply orb_false_iff in H as [H1 H2]. apply orb_false_iff in H1 as [H0 H1].
  now rewrite H1, H2.
Qed.

Lemma add_bytes_first (d : TextDecoder) (v : list Z) :
  add_bytes true d [] v = decode_stream d (strip_space v).
Proof.
  unfold add_bytes, strip_space. destruct v as [|b r]; simpl.
  - now destruct (decode_stream d []).
  - destruct (b =? SPACE); simpl.
    + now destruct (decode_stream d r).
    + now destruct (decode_stream d (b :: r)).
Qed.

Lemma line_run (m : Message) (md0 : Mode) (l : Line) (x : Z) (rest : list Z) :
  well_formed l ->
  md0 = AtStart \/ md0 = AfterCR ->
  lineEndChar x = true ->
  bytes_run m md0 (line_bytes l ++ x :: rest) =
  (let '(m2, md2, o2) := bytes_run (line_effect m l) (after_line_end x) rest in
   (m2, md2, line_out m l ++ o2)).
Proof.
  intros W S X.
  assert (Start : forall b tl, b <> LF ->
            bytes_run m md0 (b :: tl) = bytes_run m AtStart (b :: tl)).
  { intros b tl Hb. destruct S as [-> | ->]; [reflexivity|].
    cbn [bytes_run byte_step]. apply Z.eqb_neq in Hb. now rewrite Hb. }
  destruct l as [body | name value].
  - cbn [line_bytes app]. rewrite Start by discriminate.
    change (COLON :: body ++ x :: rest) with ([COLON] ++ body ++ x :: rest).
    rewrite bytes_run_app. cbn [bytes_run byte_step]. unfold start_byte at 1.
    cbn [Z.eqb COLON Pos.eqb]. cbn iota.
    rewrite bytes_run_app, (run_comment m body W).
    cbn [bytes_run byte_step]. rewrite X. unfold start_byte.
    assert (Xc : (x =? COLON) = false).
    { destruct (lineEndChar_cases _ X) as [-> | ->]; reflexivity. }
    rewrite Xc, X. cbn [line_effect line_out].
    destruct (bytes_run [] (after_line_end x) rest) as [[? ?] ?]. reflexivity.
  - destruct W as (Ne & Nn & Nv).
    destruct name as [|b name']; [contradiction|].
    assert (Nb : notNameChar b = false) by (apply Nn; now left).
    assert (Hb : b <> LF).
    { intros ->. discriminate Nb. }
    assert (Bc : (b =? COLON) = false).
    { unfold notNameChar in Nb. apply orb_false_iff in Nb as [Nb _].
      now apply orb_false_iff in Nb as [Nb _]. }
    assert (Name : forall tl, bytes_run m md0 ((b :: name') ++ tl) =
        (let '(d, t) := decode_stream new_TextDecoder (b :: name') in
         bytes_run m (InName d t) tl)).
    { intros tl. cbn [app]. rewrite Start by exact Hb.
      transitivity (bytes_run m (InName new_TextDecoder []) ((b :: name') ++ tl)).
      { cbn [bytes_run byte_step app]. unfold start_byte.
        now rewrite Bc, (notNameChar_lineEnd _ Nb). }
      rewrite bytes_run_app.
      destruct (decode_stream new_TextDecoder (b :: name')) as [d t] eqn:D.
      rewrite (run_name m _ Nn _ [] _ _ D). apply run_nil. }
    assert (Xn : notNameChar x = true).
    { destruct (lineEndChar_cases _ X) as [-> | ->]; reflexivity. }
    destruct value as [v|]; cbn [line_bytes line_effect line_out].
    + rewrite <- app_assoc. rewrite Name. unfold decode_all.
      destruct (decode_stream new_TextDecoder (b :: name')) as [d t] eqn:D.
      cbn [app bytes_run byte_step]. unfold name_byte at 1.
      cbn [notNameChar lineEndChar Z.eqb COLON CR LF Pos.eqb orb]. cbn iota.
      rewrite bytes_run_app.
      pose proof (add_bytes_first new_TextDecoder v) as A.
      destruct (decode_stream new_TextDecoder (strip_space v)) as [d' t'] eqn:D'.
      rewrite (run_value_any m _ true v Nv new_TextDecoder [] d' t' (fun _ => eq_refl)
                 (fun H => False_ind _ (diff_true_false H)) A).
      cbn [bytes_run byte_step]. rewrite X. simpl app.
      destruct (bytes_run _ (after_line_end x) rest) as [[? ?] ?]. reflexivity.
    + rewrite Name. unfold decode_all.
      destruct (decode_stream new_TextDecoder (b :: name')) as [d t] eqn:D.
      cbn [bytes_run byte_step]. unfold name_byte. rewrite Xn, X. simpl app.
      destruct (bytes_run _ (after_line_end x) rest) as [[? ?] ?]. reflexivity.
Qed.

Lemma mode_after_start (e : Eol) : mode_after e = AtStart \/ mode_after e = AfterCR.
Proof. destruct e; simpl; auto. Qed.

Lemma line_eol_run (m : Message) (md0 : Mode) (l : Line) (e : Eol) (rest : list Z) :
  well_formed l ->
  md0 = AtStart \/ md0 = AfterCR ->
  bytes_run m md0 (line_bytes l ++ eol_bytes e ++ rest) =
  (let '(m2, md2, o2) := bytes_run (line_effect m l) (mode_after e) rest in
   (m2, md2, line_out m l ++ o2)).
Proof.
  intros W S. destruct e; cbn [eol_bytes app mode_after].
  - now rewrite (line_run m md0 l LF _ W S eq_refl).
  - now rewrite (line_run m md0 l CR _ W S eq_refl).
  - rewrite (line_run m md0 l CR _ W S eq_refl).
    cbn [bytes_run byte_step after_line_end Z.eqb CR LF Pos.eqb]. cbn iota.
    destruct (bytes_run (line_effect m l) AtStart rest) as [[? ?] ?]. reflexivity.
Qed.

Lemma render_run (e : Eol) (ls : list Line) :
  Forall well_formed ls ->
  forall (m : Message) (md0 : Mode) (rest : list Z),
  md0 = AtStart \/ md0 = AfterCR ->
  bytes_run m md0 (render e ls ++ rest) =
  (let '(m', o) := lines_run m ls in
   let '(m2, md2, o2) :=
     bytes_run m' (match ls with [] => md0 | _ => mode_after e end) rest in
   (m2, md2, o ++ o2)).
Proof.
  induction 1 as [|l ls W _ IH]; intros m md0 rest S.
  - cbn [render app lines_run]. apply eq_sym, run_nil.
  - cbn [render lines_run]. rewrite <- !app_assoc.
    rewrite (line_eol_run m md0 l e _ W S).
    rewrite (IH (line_effect m l) (mode_after e) rest (mode_after_start e)).
    destruct (lines_run (line_effect m l) ls) as [m' o].
    replace (match ls with [] => mode_after e | _ :: _ => mode_after e end)
      with (mode_after e) by now destruct ls.
    destruct (bytes_run m' (mode_after e) rest) as [[m2 md2] o2].
    now rewrite app_assoc.
Qed.

Lemma blank_run (e : Eol) (m : Message) (md0 : Mode) :
  md0 = AtStart \/ md0 = mode_after e ->
  bytes_run m md0 (eol_bytes e) = ([], mode_after e, emit m).
Proof.
  intros [-> | ->]; destruct e; cbn; now rewrite ?app_nil_r.
Qed.

(** A record in one chunk: its lines take effect in order, and the blank
    line hands over what the last of them left. *)
Lemma record_messages (e : Eol) (ls : list Line) :
  Forall well_formed ls ->
  parse [record_bytes e ls] =
  snd (lines_run [] ls) ++ emit (fst (lines_run [] ls)).
Proof.
  intros W. rewrite parse_one_chunk. unfold stream_messages, record_bytes.
  rewrite (render_run e ls W [] AtStart (eol_bytes e) (or_introl eq_refl)).
  destruct (lines_run [] ls) as [m' o].
  rewrite blank_run by (destruct ls; auto). reflexivity.
Qed.

Lemma pending_one_chunk (c : chunk) :
  pending [c] = fst (fst (bytes_run [] AtStart c)).
Proof.
  unfold pending, getMessages, getMessagesOf.
  destruct (read_loop_sim [c] (new_session None) [] AtStart)
    as (m' & md' & o & (_ & M & _) & _ & R); try reflexivity.
  { repeat split; simpl; try constructor. }
  cbn [finish heap ctx]. rewrite M.
  cbn [chunks_run resume_mode] in R.
  destruct (bytes_run [] AtStart c) as [[m1 md1] o1].
  inversion R; subst. reflexivity.
Qed.

Lemma lines_run_app (m : Message) (a b : list Line) :
  lines_run m (a ++ b) =
  (let '(m1, o1) := lines_run m a in
   let '(m2, o2) := lines_run m1 b in (m2, o1 ++ o2)).
Proof.
  revert m; induction a as [|l a IH]; intros m; cbn [app lines_run].
  - now destruct (lines_run m b).
  - rewrite IH. destruct (lines_run (line_effect m l) a) as [m1 o1].
    destruct (lines_run m1 b) as [m2 o2]. now rewrite app_assoc.
Qed.

Lemma pending_lines (e : Eol) (ls : list Line) :
  Forall well_formed ls ->
  pending [render e ls] = fst (lines_run [] ls).
Proof.
  intros W. rewrite pending_one_chunk.
  rewrite <- (app_nil_r (render e ls)).
  rewrite (render_run e ls W [] AtStart [] (or_introl eq_refl)).
  destruct (lines_run [] ls) as [m' o]. reflexivity.
Qed.

Lemma own_get_put_same (m : Message) (k v : text) :
  own_get (own_put m k v) k = Some v.
Proof.
  induction m as [|[k' v'] m IH]; simpl.
  - now rewrite text_eqb_refl.
  - destruct (text_eqb k' k) eqn:E; simpl; rewrite E; auto.
Qed.

Lemma own_get_put_other (m : Message) (k k' v : text) :
  k' <> k -> own_get (own_put m k v) k' = own_get m k'.
Proof.
  intros N. induction m as [|[k0 v0] m IH]; simpl.
  - rewrite text_eqb_neq; auto.
  - destruct (text_eqb k0 k) eqn:E; simpl.
    + apply text_eqb_eq in E. subst k0.
      rewrite text_eqb_neq; auto.
    + destruct (text_eqb k0 k'); auto.
Qed.

(** ** Declared fields *)

Lemma line_effect_declare (m : Message) (l : Line) :
  plain_name l -> line_effect m l = declare m l /\ line_out m l = [].
Proof.
  intros (F & _ & P). destruct l as [body | name [v|]]; try discriminate;
    simpl in *; unfold assign, obj_set; rewrite (text_eqb_neq _ _ P); auto.
Qed.

Lemma lines_run_declare (ls : list Line) :
  Forall plain_name ls ->
  forall m, lines_run m ls = (fold_left declare ls m, []).
Proof.
  induction 1 as [|l ls P _ IH]; intros m; cbn [lines_run fold_left]; auto.
  destruct (line_effect_declare m l P) as [-> ->]. now rewrite IH.
Qed.

Lemma own_put_not_nil (m : Message) (k v : text) : own_put m k v <> [].
Proof. destruct m as [|[k' v'] m]; simpl; [|destruct (text_eqb k' k)]; discriminate. Qed.

Lemma declare_not_nil (ls : list Line) :
  forall m, m <> [] -> fold_left declare ls m <> [].
Proof.
  induction ls as [|l ls IH]; intros m N; cbn [fold_left]; auto.
  apply IH. destruct l as [body | name [v|]]; simpl; auto using own_put_not_nil.
Qed.

Lemma keys_own_put (m : Message) (k v : text) :
  map fst (own_put m k v) =
  if seen_in k (map fst m) then map fst m else map fst m ++ [k].
Proof.
  unfold seen_in. induction m as [|[k' v'] m IH]; simpl; auto.
  destruct (text_eqb k' k) eqn:E; simpl; auto.
  rewrite IH. now destruct (existsb _ (map fst m)).
Qed.

Lemma keys_declared (ls : list Line) :
  Forall plain_name ls ->
  forall m, map fst (fold_left declare ls m)
            = first_seen (map fst m) (map declared_name ls).
Proof.
  induction 1 as [|l ls P _ IH]; intros m; cbn [fold_left map first_seen]; auto.
  rewrite IH. f_equal.
  destruct P as (F & _). destruct l as [body | name [v|]]; try discriminate;
    cbn [declare]; apply keys_own_put.
Qed.

Lemma first_seen_In (names seen : list text) (k : text) :
  In k (first_seen seen names) -> In k seen \/ In k names.
Proof.
  revert seen; induction names as [|n names IH]; intros seen H; simpl in *; auto.
  apply IH in H as [H|H]; auto.
  destruct (seen_in n seen); auto.
  apply in_app_or in H as [H|[<-|[]]]; auto.
Qed.

Lemma Object_keys_plain (m : Message) :
  (forall k, In k (map fst m) -> array_index k = None) ->
  Object_keys m = map fst m.
Proof.
  intros H. unfold Object_keys.
  assert (E : index_keys m = [] /\ string_keys m = map fst m).
  { induction m as [|[k v] m IH]; simpl; auto.
    rewrite (H k) by now left.
    destruct (IH (fun k' Hk => H k' (or_intror Hk))) as [E1 E2].
    split; auto. now f_equal. }
  destruct E as [-> ->]. reflexivity.
Qed.

Ltac in_cases :=
  repeat match goal with
         | H : _ \/ _ |- _ => destruct H as [H | H]
         | H : False |- _ => destruct H
         | H : _ = ?x |- _ => is_var x; subst x
         end.

Ltac well_formed_lines :=
  repeat constructor; simpl; try discriminate;
  intros; unfold codes in *; simpl in *; in_cases; reflexivity.

(** C2, for plain field names.  A record made of field lines and ended by a blank
    line, none of whose names is an array index or [__proto__], yields
    exactly one Message: the declared fields with the values the
    assignment rule gives them, and [Object.keys] lists the names in order
    of first occurrence. *)
Theorem record_fields_in_order (e : Eol) (ls : list Line) :
  ls <> [] ->
  Forall well_formed ls ->
  Forall plain_name ls ->
  parse [record_bytes e ls] = [declared ls] /\
  Object_keys (declared ls) = first_seen [] (map declared_name ls).
Proof.
  intros N W P. split.
  - rewrite (record_messages e ls W), (lines_run_declare ls P).
    cbn [fst snd app]. fold (declared ls).
    assert (D : declared ls <> []).
    { unfold declared. destruct ls as [|l ls]; [contradiction|].
      cbn [fold_left]. apply declare_not_nil.
      inversion P as [|? ? (F & _) _]; subst.
      destruct l as [body | name [v|]]; try discriminate;
        apply own_put_not_nil. }
    destruct (declared ls); [contradiction|reflexivity].
  - pose proof (keys_declared ls P []) as K. fold (declared ls) in K.
    cbn [map] in K. rewrite <- K. apply Object_keys_plain.
    intros k Hk. rewrite K in Hk.
    apply first_seen_In in Hk as [[]|Hk].
    apply in_map_iff in Hk as (l & <- & Hl).
    rewrite Forall_forall in P. now destruct (P l Hl) as (_ & A & _).
Qed.

Lemma record_fields_in_order_witness :
  parse [record_bytes eol_CRLF record_1] = [declared record_1] /\
  Object_keys (declared record_1) = first_seen [] (map declared_name record_1).
Proof.
  apply (record_fields_in_order eol_CRLF record_1).
  - discriminate.
  - unfold record_1. well_formed_lines.
  - unfold record_1. repeat constructor; vm_compute; congruence.
Defined.

(** C2, counterexample for other names: the field named [1] is an array index, and
    [Object.keys] lists it before [b], which was declared first. *)
Lemma keys_not_in_declaration_order :
  Forall well_formed record_2 /\
  map declared_name record_2 = [codes "b"; codes "1"] /\
  map Object_keys (parse [record_bytes eol_LF record_2])
  = [[codes "1"; codes "b"]].
Proof.
  split; [unfold record_2; well_formed_lines|].
  split; vm_compute; reflexivity.
Qed.

(** C6.  The lines of a record may end with LF, with CR or with CRLF: the
    parser hands over the same messages in the three cases, so a CRLF never
    counts as a line end followed by a blank line.  The stream of the
    spec's example, which mixes CR and CRLF, yields the one message
    [{id: "1", data: "d1\n"}]. *)
Theorem line_ending_equivalence :
  parse [codes "id:1" ++ [CR] ++ codes "data:d1" ++ [CR; LF; CR; LF]]
  = [[(codes "id", codes "1"); (DATA, codes "d1" ++ [LF])]] /\
  forall ls : list Line,
    Forall well_formed ls ->
    parse [record_bytes eol_CR ls] = parse [record_bytes eol_LF ls] /\
    parse [record_bytes eol_CRLF ls] = parse [record_bytes eol_LF ls].
Proof.
  split; [vm_compute; reflexivity|].
  intros ls W. now rewrite !record_messages.
Qed.

Lemma line_ending_equivalence_witness :
  parse [record_bytes eol_CR record_3] = parse [record_bytes eol_LF record_3] /\
  parse [record_bytes eol_CRLF record_3] = parse [record_bytes eol_LF record_3].
Proof.
  apply (proj2 line_ending_equivalence record_3).
  unfold record_3. well_formed_lines.
Defined.

(** C3, for every name but [__proto__].  A line [name:value] stores,
    under [name], the parsed value appended with a newline to what [data]
    held before when the name is [data], and the parsed value itself for
    any other name; the other fields keep their values.  Two [data] lines
    give [data = "first line\nsecond line\n"]. *)
Theorem field_value_assignment :
  parse [codes "data:first line" ++ [LF] ++ codes "data:second line" ++ [LF; LF]]
  = [[(DATA, codes "first line" ++ [LF] ++ codes "second line" ++ [LF])]] /\
  forall (e : Eol) (ls : list Line) (name value : list Z),
    Forall well_formed ls ->
    well_formed (Field name (Some value)) ->
    decode_all name <> PROTO ->
    let before := pending [render e ls] in
    let after := pending [render e (ls ++ [Field name (Some value)])] in
    let parsed := decode_all (strip_space value) in
    own_get after (decode_all name)
    = Some (if text_eqb (decode_all name) DATA
            then get_or_empty before DATA ++ parsed ++ [LF]
            else parsed) /\
    forall k, k <> decode_all name -> own_get after k = own_get before k.
Proof.
  split; [vm_compute; reflexivity|].
  intros e ls name value W Wl P before after parsed.
  assert (W' : Forall well_formed (ls ++ [Field name (Some value)])).
  { apply Forall_app. split; auto. }
  unfold before, after. rewrite !pending_lines by assumption.
  rewrite lines_run_app. destruct (lines_run [] ls) as [m o].
  cbn [lines_run line_effect fst]. unfold assign, obj_set.
  rewrite (text_eqb_neq _ _ P). split.
  - rewrite own_get_put_same.
    destruct (text_eqb (decode_all name) DATA) eqn:E; [|reflexivity].
    apply text_eqb_eq in E. now rewrite E.
  - intros k Hk. now apply own_get_put_other.
Qed.

Lemma field_value_assignment_witness :
  let before := pending [render eol_LF record_1] in
  let after := pending [render eol_LF (record_1 ++ [Field (codes "data") (Some (codes " x"))])] in
  own_get after (decode_all (codes "data"))
  = Some (if text_eqb (decode_all (codes "data")) DATA
          then get_or_empty before DATA ++ decode_all (strip_space (codes " x")) ++ [LF]
          else decode_all (strip_space (codes " x"))) /\
  forall k, k <> decode_all (codes "data") -> own_get after k = own_get before k.
Proof.
  apply (proj2 field_value_assignment eol_LF record_1 (codes "data") (codes " x")).
  - unfold record_1. well_formed_lines.
  - well_formed_lines.
  - vm_compute. congruence.
Defined.

(** C3, counterexample for [__proto__]: the value parsed for it is
    not stored, the record leaves the message empty and nothing is handed
    over. *)
Lemma proto_field_not_stored :
  well_formed (Field (codes "__proto__") (Some (codes "x"))) /\
  pending [render eol_LF [Field (codes "__proto__") (Some (codes "x"))]] = [] /\
  parse [record_bytes eol_LF [Field (codes "__proto__") (Some (codes "x"))]] = [].
Proof.
  split; [well_formed_lines|]. split; vm_compute; reflexivity.
Qed.

(** ** Chunk boundaries and the leading space *)

(** C1.  The stream [data:  value] (two spaces) followed by a blank line
    yields [data = " value\n"] as one chunk, and [data = "value\n"] when it
    is split after the first space: the messages depend on the chunking. *)
Theorem chunking_changes_messages :
  let whole := codes "data:  value" ++ [LF; LF] in
  let part1 := codes "data: " in
  let part2 := codes " value" ++ [LF; LF] in
  whole = part1 ++ part2 /\
  parse [whole] = [[(DATA, codes " value" ++ [LF])]] /\
  parse [part1; part2] = [[(DATA, codes "value" ++ [LF])]] /\
  parse [part1; part2] <> parse [whole].
Proof.
  vm_compute. repeat split; try reflexivity. discriminate.
Qed.

(** C4.  In one chunk exactly one leading space is stripped
    ([data: value] gives ["value\n"], [data:   v] keeps two of its three
    spaces); fed one byte per chunk, [data:   v] loses all three. *)
Theorem leading_spaces_stripped_per_chunk :
  parse [codes "data: value" ++ [LF; LF]] = [[(DATA, codes "value" ++ [LF])]] /\
  parse [codes "data:   v" ++ [LF; LF]] = [[(DATA, codes "  v" ++ [LF])]] /\
  parse (map (fun b => [b]) (codes "data:   v" ++ [LF; LF]))
  = [[(DATA, codes "v" ++ [LF])]].
Proof.
  vm_compute. repeat split; reflexivity.
Qed.

(** C5.  In the compiled JavaScript copy [fieldValue] stops at a colon:
    [data:a:b] stores ["a\n"] under [data] and then reads [b] as a field
    of its own (the chunk is consumed to its end).  The TypeScript source
    keeps the colon in the value. *)
Theorem colon_ends_value_in_compiled_copy :
  let c := codes "data:a:b" ++ [LF; LF] in
  messages (getMessagesOf compiled_js None [c])
  = [[(DATA, codes "a" ++ [LF]); (codes "b", [])]] /\
  currentPos (getMessagesOf compiled_js None [c]) = length c /\
  messages (getMessagesOf lib_ts None [c]) = [[(DATA, codes "a:b" ++ [LF])]].
Proof.
  vm_compute. repeat split; reflexivity.
Qed.

(** C7.  A stream that ends after [data:x] and a comment line, with no
    blank line at all, has its record handed over all the same:
    [skipComment] leaves the position on the comment's line end, which
    [fieldStart] then reads as a blank line. *)
Theorem comment_line_ends_record :
  let source := [codes "data:x" ++ [LF] ++ codes ":c" ++ [LF]] in
  parse source = [[(DATA, codes "x" ++ [LF])]] /\
  finishedWith (getMessages None source) = Some SERVER_CLOSED.
Proof.
  vm_compute. split; reflexivity.
Qed.

(** ** Closing from the consumer side *)

Lemma core_eq (s1 s2 : Session) :
  core s1 = core s2 <->
  heap s1 = heap s2 /\ ctx s1 = ctx s2 /\ stateIterator s1 = stateIterator s2 /\
  currentPos s1 = currentPos s2 /\ received s1 = received s2.
Proof.
  unfold core. split.
  - intros H. inversion H. auto.
  - intros (-> & -> & -> & -> & ->). reflexivity.
Qed.

Lemma core_hand_over (s1 s2 : Session) (l : loc) :
  core s1 = core s2 -> core (hand_over s1 l) = core (hand_over s2 l).
Proof.
  intros H. apply core_eq in H as (H1 & H2 & H3 & H4 & H5).
  rewrite (hand_over_eq s1), (hand_over_eq s2). unfold core; simpl.
  now rewrite H1, H2, H3, H4, H5.
Qed.

Lemma core_set_pos (s1 s2 : Session) (p : nat) :
  core s1 = core s2 -> core (set_pos s1 p) = core (set_pos s2 p).
Proof.
  intros H. apply core_eq in H as (H1 & H2 & H3 & H4 & H5).
  unfold core; simpl. now rewrite H1, H2, H3, H5.
Qed.

Lemma core_loop_body (b : Build) (c : chunk) (s1 s2 : Session) :
  core s1 = core s2 -> core (loop_body b c s1) = core (loop_body b c s2).
Proof.
  intros H. pose proof H as H0.
  apply core_eq in H as (H1 & H2 & H3 & H4 & H5).
  unfold loop_body. rewrite H1, H2, H3, H4.
  destruct (next b (heap s2) (ctx s2) (stateIterator s2) _) as [[h cx] [g out|t]].
  - assert (B : core (mkSession h cx g (currentPos s2) (clientClosed s1)
                        (finishedWith s1) (received s1) (close_after s1))
              = core (mkSession h cx g (currentPos s2) (clientClosed s2)
                        (finishedWith s2) (received s2) (close_after s2))).
    { unfold core; simpl. now rewrite H5. }
    destruct (out_message out) as [l|];
      [destruct (0 <? length (Object_keys (heap_get h l)))%nat|];
      destruct (out_pos out);
      auto using core_set_pos, core_hand_over.
  - unfold core; simpl. now rewrite H5.
Qed.

Lemma core_feed (b : Build) (c : chunk) (fuel : nat) :
  forall s1 s2, core s1 = core s2 ->
  core (feed fuel b c s1) = core (feed fuel b c s2).
Proof.
  induction fuel as [|fuel IH]; intros s1 s2 H; [exact H|].
  unfold feed; fold feed.
  assert (P : currentPos s1 = currentPos s2) by (apply core_eq in H; tauto).
  rewrite P. destruct (currentPos s2 <? length c)%nat; auto.
  apply IH. now apply core_loop_body.
Qed.

Lemma obeys_hand_over (n : nat) (s : Session) (l : loc) :
  obeys n s -> obeys n (hand_over s l).
Proof.
  intros (A & F & C). unfold obeys, hand_over, consumer_reacts, close.
  cbn [close_after received finishedWith]. rewrite A, F.
  rewrite length_app. cbn [length].
  destruct (Nat.eqb (length (received s) + 1) n) eqn:E;
    cbn [close_after finishedWith clientClosed received]; rewrite length_app;
    cbn [length]; repeat split; auto.
  - apply Nat.eqb_eq in E. symmetry. apply Nat.leb_le. lia.
  - apply Nat.eqb_neq in E. rewrite C.
    destruct (n <=? length (received s))%nat eqn:L1; symmetry.
    + apply Nat.leb_le in L1. apply Nat.leb_le. lia.
    + apply Nat.leb_gt in L1. apply Nat.leb_gt. lia.
Qed.

Lemma obeys_set_pos (n : nat) (s : Session) (p : nat) :
  obeys n s -> obeys n (set_pos s p).
Proof. intros H. exact H. Qed.

Lemma obeys_loop_body (n : nat) (b : Build) (c : chunk) (s : Session) :
  obeys n s -> obeys n (loop_body b c s).
Proof.
  intros H. unfold loop_body.
  destruct (next b (heap s) (ctx s) (stateIterator s) _) as [[h cx] [g out|t]];
    [|exact H].
  assert (B : obeys n (mkSession h cx g (currentPos s) (clientClosed s)
                         (finishedWith s) (received s) (close_after s)))
    by exact H.
  destruct (out_message out) as [l|];
    [destruct (0 <? length (Object_keys (heap_get h l)))%nat|];
    destruct (out_pos out);
    auto using obeys_set_pos, obeys_hand_over.
Qed.

Lemma obeys_feed (n : nat) (b : Build) (c : chunk) (fuel : nat) :
  forall s, obeys n s -> obeys n (feed fuel b c s).
Proof.
  induction fuel as [|fuel IH]; intros s H; [exact H|].
  unfold feed; fold feed.
  destruct (currentPos s <? length c)%nat; auto using obeys_loop_body.
Qed.

Lemma read_loop_closed (b : Build) (source : list chunk) (s : Session) :
  clientClosed s = true -> read_loop b source s = s.
Proof. intros H. destruct source; simpl; now rewrite H. Qed.

Lemma read_loop_nil (b : Build) (s : Session) : read_loop b [] s = s.
Proof. simpl. now destruct (clientClosed s). Qed.

Lemma read_loop_app (b : Build) (a c : list chunk) :
  forall s, read_loop b (a ++ c) s = read_loop b c (read_loop b a s).
Proof.
  induction a as [|x a IH]; intros s.
  - now rewrite read_loop_nil.
  - cbn [app read_loop]. destruct (clientClosed s) eqn:C.
    + now rewrite read_loop_closed.
    + apply IH.
Qed.

Lemma read_loop_cons (b : Build) (c : chunk) (source : list chunk) (s : Session) :
  clientClosed s = false ->
  read_loop b (c :: source) s = read_loop b source (after_chunk b c s).
Proof. intros H. simpl. now rewrite H. Qed.

Lemma after_chunk_facts (n : nat) (b : Build) (c : chunk) (s1 s2 : Session) :
  core s1 = core s2 -> obeys n s1 ->
  close_after s2 = None -> clientClosed s2 = false ->
  core (after_chunk b c s1) = core (after_chunk b c s2) /\
  obeys n (after_chunk b c s1) /\
  close_after (after_chunk b c s2) = None /\
  clientClosed (after_chunk b c s2) = false.
Proof.
  intros H Ob A C. unfold after_chunk.
  destruct (0 <? length c)%nat; [|auto].
  destruct (feed_keeps b c (chunk_fuel c) (set_pos s2 0%nat)) as (K1 & _ & K3).
  split; [|split; [|split]].
  - apply core_feed. now apply core_set_pos.
  - apply obeys_feed. exact Ob.
  - now rewrite K1.
  - now rewrite K3.
Qed.

Lemma received_loop_body (b : Build) (c : chunk) (s : Session) :
  (length (received s) <= length (received (loop_body b c s)))%nat.
Proof.
  unfold loop_body.
  destruct (next b (heap s) (ctx s) (stateIterator s) _) as [[h cx] [g out|t]];
    [|simpl; lia].
  destruct (out_message out) as [l|];
    [destruct (0 <? length (Object_keys (heap_get h l)))%nat|];
    destruct (out_pos out); try rewrite hand_over_eq; simpl;
    rewrite ?length_app; lia.
Qed.

Lemma received_feed (b : Build) (c : chunk) (fuel : nat) :
  forall s, (length (received s) <= length (received (feed fuel b c s)))%nat.
Proof.
  induction fuel as [|fuel IH]; intros s; [exact (Nat.le_refl _)|].
  unfold feed; fold feed.
  destruct (currentPos s <? length c)%nat; [|lia].
  pose proof (received_loop_body b c s). pose proof (IH (loop_body b c s)). lia.
Qed.

Lemma received_after_chunk (b : Build) (c : chunk) (s : Session) :
  (length (received s) <= length (received (after_chunk b c s)))%nat.
Proof.
  unfold after_chunk. destruct (0 <? length c)%nat; [|lia].
  apply (received_feed b c (chunk_fuel c) (set_pos s 0%nat)).
Qed.

Lemma received_read_loop (b : Build) (source : list chunk) :
  forall s, (length (received s) <= length (received (read_loop b source s)))%nat.
Proof.
  induction source as [|c source IH]; intros s; simpl;
    destruct (clientClosed s); try lia.
  pose proof (received_after_chunk b c s) as H. unfold after_chunk in H.
  pose proof (IH (if (0 <? length c)%nat
                  then feed (chunk_fuel c) b c (set_pos s 0%nat) else s)).
  lia.
Qed.

Lemma obeys_open (n : nat) (s : Session) :
  obeys n s -> (length (received s) < n)%nat -> clientClosed s = false.
Proof. intros (_ & _ & ->) H. apply Nat.leb_gt. exact H. Qed.

Lemma obeys_closed (n : nat) (s : Session) :
  obeys n s -> (n <= length (received s))%nat -> clientClosed s = true.
Proof. intros (_ & _ & ->) H. apply Nat.leb_le. exact H. Qed.

Lemma core_received (s1 s2 : Session) : core s1 = core s2 -> received s1 = received s2.
Proof. intros H. apply core_eq in H. tauto. Qed.

(** Until the consumer closes, it sees what a consumer that never closes
    sees. *)
Lemma read_loop_same (n : nat) (b : Build) (pre : list chunk) :
  forall s1 s2,
    core s1 = core s2 -> obeys n s1 ->
    close_after s2 = None -> clientClosed s2 = false ->
    (length (received (read_loop b pre s2)) < n)%nat ->
    core (read_loop b pre s1) = core (read_loop b pre s2) /\
    obeys n (read_loop b pre s1) /\
    close_after (read_loop b pre s2) = None /\
    clientClosed (read_loop b pre s2) = false.
Proof.
  induction pre as [|c pre IH]; intros s1 s2 H Ob A C L.
  - rewrite !read_loop_nil. auto.
  - rewrite (read_loop_cons b c pre s2 C) in *.
    assert (L2 : (length (received s2) < n)%nat).
    { pose proof (received_after_chunk b c s2).
      pose proof (received_read_loop b pre (after_chunk b c s2)). lia. }
    rewrite (read_loop_cons b c pre s1).
    + destruct (after_chunk_facts n b c s1 s2 H Ob A C) as (H' & Ob' & A' & C').
      apply IH; auto.
    + apply (obeys_open n s1 Ob). now rewrite (core_received _ _ H).
Qed.

Lemma new_session_facts (n : nat) :
  core (new_session (Some n)) = core (new_session None) /\
  obeys n (new_session (Some n)).
Proof.
  unfold new_session, consumer_reacts, close, obeys, core; simpl.
  destruct n; simpl; auto.
Qed.

(** C8, counterexample within a chunk: a consumer that calls [close()] on receiving its
    first message still receives the second one, which was in the chunk
    being processed; only the next chunk is left unread. *)
Lemma message_after_close :
  let source := [codes "a:1" ++ [LF; LF] ++ codes "b:2" ++ [LF; LF];
                 codes "c:3" ++ [LF; LF]] in
  messages (getMessages (Some 1%nat) source)
  = [[(codes "a", codes "1")]; [(codes "b", codes "2")]] /\
  finishedWith (getMessages (Some 1%nat) source) = Some CLIENT_CLOSED.
Proof.
  vm_compute. split; reflexivity.
Qed.

(** C8, at chunk granularity.  Once the consumer has called [close()], no further
    chunk is read: the messages of the chunk being processed at that
    moment are still produced, those of later chunks are not, and the
    session finishes with CLIENT_CLOSED.  A consumer that closes before its
    first pull receives nothing. *)
Theorem close_stops_reading :
  (forall source : list chunk,
     messages (getMessages (Some 0%nat) source) = [] /\
     finishedWith (getMessages (Some 0%nat) source) = Some CLIENT_CLOSED) /\
  forall (n : nat) (pre : list chunk) (c : chunk) (post : list chunk),
    (length (parse pre) < n)%nat ->
    (n <= length (parse (pre ++ [c])))%nat ->
    messages (getMessages (Some n) (pre ++ c :: post)) = parse (pre ++ [c]) /\
    finishedWith (getMessages (Some n) (pre ++ c :: post)) = Some CLIENT_CLOSED.
Proof.
  split.
  - intros source. unfold getMessages, getMessagesOf.
    rewrite read_loop_closed by reflexivity. split; reflexivity.
  - intros n pre c post L1 L2.
    unfold parse, getMessages, getMessagesOf, messages in *.
    cbn [finish received finishedWith clientClosed] in *.
    rewrite !length_map in *.
    destruct (new_session_facts n) as (H0 & Ob0).
    destruct (read_loop_same n lib_ts pre _ _ H0 Ob0 eq_refl eq_refl L1)
      as (H1 & Ob1 & A1 & C1).
    rewrite read_loop_app in L2. rewrite (read_loop_cons _ _ _ _ C1) in L2.
    rewrite read_loop_nil in L2.
    rewrite (read_loop_app lib_ts pre [c]), (read_loop_cons _ _ _ _ C1).
    rewrite read_loop_nil.
    rewrite (read_loop_app lib_ts pre (c :: post)).
    rewrite (read_loop_cons lib_ts c post).
    2:{ apply (obeys_open n _ Ob1). now rewrite (core_received _ _ H1). }
    destruct (after_chunk_facts n lib_ts c _ _ H1 Ob1 A1 C1) as (H2 & Ob2 & _).
    assert (Cl : clientClosed (after_chunk lib_ts c
                   (read_loop lib_ts pre (new_session (Some n)))) = true).
    { apply (obeys_closed n _ Ob2). now rewrite (core_received _ _ H2). }
    rewrite (read_loop_closed lib_ts post _ Cl). rewrite Cl.
    now rewrite (core_received _ _ H2).
Qed.

Lemma close_stops_reading_witness :
  let pre := [codes "a:1" ++ [LF; LF]] in
  let c := codes "b:2" ++ [LF; LF] ++ codes "c:3" ++ [LF; LF] in
  let post := [codes "d:4" ++ [LF; LF]] in
  messages (getMessages (Some 2%nat) (pre ++ c :: post)) = parse (pre ++ [c]) /\
  finishedWith (getMessages (Some 2%nat) (pre ++ c :: post)) = Some CLIENT_CLOSED.
Proof.
  apply (proj2 close_stops_reading 2%nat
           [codes "a:1" ++ [LF; LF]]
           (codes "b:2" ++ [LF; LF] ++ codes "c:3" ++ [LF; LF])
           [codes "d:4" ++ [LF; LF]]).
  - vm_compute. lia.
  - vm_compute. lia.
Defined.

(** ** Messages already handed over *)

Lemma next_effect (b : Build) (h : Heap) (cx : ParserCtx) (g : Generator)
    (input : ParserInput) (h' : Heap) (cx' : ParserCtx) (r : IteratorResult) :
  next b h cx g input = (h', cx', r) ->
  if handing_over g then
    h' = h ++ [[]] /\ message cx' = length h /\ exists t, r = returned t
  else
    message cx' = message cx /\ length h' = length h /\
    (forall l, l <> message cx -> heap_get h' l = heap_get h l) /\
    match r with
    | yielded g' out =>
        forall l, out_message out = Some l ->
          l = message cx /\ h' = h /\ handing_over g' = true
    | returned _ => True
    end.
Proof.
  intros H.
  destruct g as [[| | | |]| | | | | | |]; cbn [handing_over];
    cbn [next] in H.
  all: try (inversion H; subst; repeat split; auto; intros; discriminate).
  - destruct (nth_error (in_chunk input) (in_pos input)) as [ch|];
      [destruct (ch =? COLON); [|destruct ((ch =? LF) || (ch =? CR))]|];
      inversion H; subst; repeat split; auto.
    match goal with E : out_message _ = Some _ |- _ => now inversion E end.
  - unfold heap_alloc in H. inversion H; subst. eauto.
  - unfold skipComment_loop in H.
    destruct (findIndex _ _); inversion H; subst; repeat split; auto;
      intros; discriminate.
  - unfold skipComment_loop in H.
    destruct (findIndex _ _); inversion H; subst; repeat split; auto;
      intros; discriminate.
  - unfold collectUntilChar_loop in H. destruct (findIndex _ _).
    + destruct (add_bytes _ _ _ _) as [d' t'].
      destruct from; cbn [collectUntilChar_return message] in H;
        unfold fieldName_rest, fieldValue_rest in H; cbn [message] in H;
        try destruct (_ || _); inversion H; subst; cbn [message];
        repeat split; auto using length_heap_put; intros;
        apply heap_get_put_other; auto.
    + inversion H; subst; repeat split; auto; intros; discriminate.
  - destruct (add_bytes _ _ _ _) as [d0 t0].
    unfold collectUntilChar_loop in H. cbn [decoder message] in H.
    destruct (findIndex _ _).
    + destruct (add_bytes _ _ _ _) as [d' t'].
      destruct from; cbn [collectUntilChar_return message] in H;
        unfold fieldName_rest, fieldValue_rest in H; cbn [message] in H;
        try destruct (_ || _); inversion H; subst; cbn [message];
        repeat split; auto using length_heap_put; intros;
        apply heap_get_put_other; auto.
    + inversion H; subst; repeat split; auto; intros; discriminate.
Qed.

Lemma frozen_keep (s : Session) (h' : Heap) (cx' : ParserCtx) (g' : Generator)
    (p : nat) :
  frozen s ->
  handing_over (stateIterator s) = false ->
  message cx' = message (ctx s) -> length h' = length (heap s) ->
  (forall l, l <> message (ctx s) -> heap_get h' l = heap_get (heap s) l) ->
  frozen (mkSession h' cx' g' p (clientClosed s) (finishedWith s) (received s)
                    (close_after s)).
Proof.
  intros (A & D & F) G M L Hh. split; [|split];
    cbn [ctx heap received stateIterator].
  - now rewrite M, L.
  - exact D.
  - intros l m Hl. destruct (F l m Hl) as (F1 & F2 & F3).
    assert (N : l <> message (ctx s)).
    { intros E. specialize (F3 E). congruence. }
    rewrite M. repeat split; auto; try (now rewrite Hh).
Qed.

Lemma frozen_loop_body (b : Build) (c : chunk) (s : Session) :
  frozen s -> frozen (loop_body b c s).
Proof.
  intros Fz. unfold loop_body.
  destruct (next b (heap s) (ctx s) (stateIterator s) _) as [[h' cx'] r] eqn:N.
  apply next_effect in N.
  destruct (handing_over (stateIterator s)) eqn:G.
  - destruct N as (-> & M & t & ->). destruct Fz as (A & D & F).
    split; [|split]; cbn [ctx heap received stateIterator].
    + rewrite M, length_app. simpl. lia.
    + exact D.
    + intros l m Hl. destruct (F l m Hl) as (F1 & F2 & F3).
      rewrite M. repeat split; try lia.
      unfold heap_get. rewrite app_nth1 by lia. exact F1.
  - destruct N as (M & L & Hh & R). destruct r as [g' out|t].
    + assert (K := frozen_keep s h' cx' g' (currentPos s) Fz G M L Hh).
      destruct (out_message out) as [l0|] eqn:Om.
      * destruct (R l0 eq_refl) as (-> & -> & G').
        assert (K2 : frozen (hand_over
                      (mkSession (heap s) cx' g' (currentPos s) (clientClosed s)
                         (finishedWith s) (received s) (close_after s))
                      (message (ctx s)))).
        { rewrite hand_over_eq. destruct K as (A & D & F).
          split; [|split]; cbn [ctx heap received stateIterator] in *; auto.
          - rewrite map_app. cbn [map fst].
            apply NoDup_app; [exact D|repeat constructor; intros []|].
            intros l Hl [E|[]]. subst l.
            apply in_map_iff in Hl as ([l' m'] & E' & Hl). cbn [fst] in E'.
            subst l'. destruct Fz as (_ & _ & Fz).
            destruct (Fz _ _ Hl) as (_ & _ & Z3).
            rewrite Z3 in G; [discriminate|reflexivity].
          - intros l m Hl. apply in_app_or in Hl as [Hl|[Hl|[]]].
            + now apply F.
            + inversion Hl; subst. rewrite M. repeat split; auto. }
        destruct (0 <? length (Object_keys (heap_get (heap s) (message (ctx s)))))%nat;
          destruct (out_pos out); auto.
      * destruct (out_pos out); auto.
    + exact (frozen_keep s h' cx' _ _ Fz G M L Hh).
Qed.

Lemma frozen_feed (b : Build) (c : chunk) (fuel : nat) :
  forall s, frozen s -> frozen (feed fuel b c s).
Proof.
  induction fuel as [|fuel IH]; intros s F; [exact F|].
  unfold feed; fold feed.
  destruct (currentPos s <? length c)%nat; auto using frozen_loop_body.
Qed.

Lemma frozen_read_loop (b : Build) (source : list chunk) :
  forall s, frozen s -> frozen (read_loop b source s).
Proof.
  induction source as [|c source IH]; intros s F; simpl;
    destruct (clientClosed s); auto.
  apply IH. destruct (0 <? length c)%nat; auto.
  apply frozen_feed. exact F.
Qed.

Lemma frozen_new_session (consumer : option nat) : frozen (new_session consumer).
Proof.
  unfold new_session.
  destruct (heap_projections_consumer
              (mkSession [[]] (mkCtx O new_TextDecoder) (created fieldStart) O false
                         None [] consumer)) as (H1 & H2 & H3 & H4 & H5 & _).
  unfold frozen. rewrite H1, H2, H3, H5. simpl.
  split; [reflexivity|]. split; [constructor|]. intros l m [].
Qed.

(** C9.  At any moment of a session (after any chunks, any number of
    iterations into the next one), the messages the consumer has received
    are distinct objects, each holds what it held on receipt, and none is
    the object the parser is filling: that one was created later, by
    [ctx.message = {}], the step after the [yield]. *)
Theorem yielded_messages_never_mutated
    (consumer : option nat) (pre : list chunk) (c : chunk) (k : nat) :
  let s := feed k lib_ts c (set_pos (read_loop lib_ts pre (new_session consumer)) O) in
  NoDup (map fst (received s)) /\
  forall (l : loc) (m : Message),
    In (l, m) (received s) ->
    heap_get (heap s) l = m /\
    (l <= message (ctx s))%nat /\
    (l = message (ctx s) -> handing_over (stateIterator s) = true).
Proof.
  intros s.
  assert (F : frozen s).
  { apply frozen_feed. apply (frozen_read_loop lib_ts pre).
    apply frozen_new_session. }
  destruct F as (_ & D & F). split; [exact D|exact F].
Qed.

Lemma yielded_messages_never_mutated_witness :
  let s := feed 9 lib_ts (codes "data:y" ++ [LF; LF])
             (set_pos (read_loop lib_ts [codes "id:1" ++ [LF; LF]] (new_session None)) O) in
  heap_get (heap s) O = [(codes "id", codes "1")] /\
  (O <= message (ctx s))%nat /\
  (O = message (ctx s) -> handing_over (stateIterator s) = true).
Proof.
  apply (proj2 (yielded_messages_never_mutated None [codes "id:1" ++ [LF; LF]]
                  (codes "data:y" ++ [LF; LF]) 9) O [(codes "id", codes "1")]).
  vm_compute. left. reflexivity.
Defined.

(** ** Field names *)

Lemma In_own_put (m : Message) (k v k' v' : text) :
  In (k', v') (own_put m k v) -> k' = k \/ In (k', v') m.
Proof.
  induction m as [|[k0 v0] m IH]; simpl.
  - intros [E|[]]. inversion E. auto.
  - destruct (text_eqb k0 k) eqn:T; simpl.
    + apply text_eqb_eq in T. subst k0.
      intros [E|H]; [inversion E|]; auto.
    + intros [E|H]; auto. apply IH in H as [H|H]; auto.
Qed.

Lemma name_bytes_in_more (stream more bs : list Z) :
  name_bytes_in stream bs -> name_bytes_in (stream ++ more) bs.
Proof.
  intros (pre & t & post & E & H). exists pre, t, (post ++ more).
  split; [|exact H]. rewrite E, <- !app_assoc. reflexivity.
Qed.

Lemma name_text_more (stream more : list Z) (k : text) :
  name_text stream k -> name_text (stream ++ more) k.
Proof.
  intros (bs & N & E). exists bs. split; [now apply name_bytes_in_more|exact E].
Qed.

Lemma keys_named_more (stream more : list Z) (m : Message) :
  keys_named stream m -> keys_named (stream ++ more) m.
Proof. intros K k v H. apply name_text_more. now apply (K k v). Qed.

Lemma keys_named_set (stream : list Z) (m : Message) (k v : text) :
  keys_named stream m -> name_text stream k -> keys_named stream (obj_set m k v).
Proof.
  intros Km Nk k' v' H. unfold obj_set in H.
  destruct (text_eqb k PROTO); [now apply (Km k' v')|].
  apply In_own_put in H as [->|H]; auto. now apply (Km k' v').
Qed.

Lemma keys_named_emit (stream : list Z) (m : Message) :
  keys_named stream m -> Forall (keys_named stream) (emit m).
Proof. intros H. destruct m; simpl; auto. Qed.

Lemma keys_named_nil (stream : list Z) : keys_named stream [].
Proof. intros k v []. Qed.

Lemma line_start_after (seen : list Z) (b : Z) :
  lineEndChar b = true -> line_start (seen ++ [b]).
Proof. intros H. right. now exists seen, b. Qed.

Lemma mode_named_after (seen : list Z) (b : Z) :
  lineEndChar b = true -> mode_named (seen ++ [b]) (after_line_end b).
Proof.
  intros H. unfold after_line_end.
  destruct (b =? LF); simpl; now apply line_start_after.
Qed.

Lemma name_byte_named (seen pre bs : list Z) (m : Message) (d : TextDecoder)
    (buffer : text) (b : Z) :
  keys_named seen m ->
  seen = pre ++ bs -> line_start pre ->
  (forall x, In x bs -> notNameChar x = false) ->
  decode_stream new_TextDecoder bs = (d, buffer) ->
  (notNameChar b = true -> bs <> []) ->
  let '(m', md', o) := name_byte m d buffer b in
  keys_named (seen ++ [b]) m' /\ mode_named (seen ++ [b]) md' /\
  Forall (keys_named (seen ++ [b])) o.
Proof.
  intros Km E L N D Ne. unfold name_byte.
  pose proof (keys_named_more seen [b] m Km) as Km'.
  destruct (notNameChar b) eqn:Nb.
  - assert (Nt : name_text (seen ++ [b]) (buffer ++ decode_flush d)).
    { exists bs. split.
      - exists pre, b, []. rewrite E, <- app_assoc. auto.
      - unfold decode_all. now rewrite D. }
    destruct (lineEndChar b) eqn:Lb.
    + repeat split; auto using keys_named_set, mode_named_after.
    + repeat split; auto.
  - destruct (decode_stream d [b]) as [d' t] eqn:D1.
    repeat split; auto. exists pre, (bs ++ [b]). repeat split; auto.
    + rewrite E, <- app_assoc. reflexivity.
    + destruct bs; discriminate.
    + intros x Hx. apply in_app_or in Hx as [Hx|[<-|[]]]; auto.
    + rewrite decode_stream_app, D, D1. reflexivity.
Qed.

Lemma start_byte_line_end (m : Message) (b : Z) :
  lineEndChar b = true -> start_byte m b = ([], after_line_end b, emit m).
Proof.
  intros H. unfold start_byte. rewrite H.
  destruct (lineEndChar_cases b H) as [->| ->]; reflexivity.
Qed.

Lemma start_byte_named (seen : list Z) (m : Message) (b : Z) :
  keys_named seen m -> line_start seen ->
  let '(m', md', o) := start_byte m b in
  keys_named (seen ++ [b]) m' /\ mode_named (seen ++ [b]) md' /\
  Forall (keys_named (seen ++ [b])) o.
Proof.
  intros Km L. unfold start_byte.
  pose proof (keys_named_more seen [b] m Km) as Km'.
  destruct (b =? COLON) eqn:Bc; [repeat split; auto; exact I|].
  destruct (lineEndChar b) eqn:Bl.
  - repeat split; auto using keys_named_nil, keys_named_emit, mode_named_after.
  - apply (name_byte_named seen seen [] m _ _ b Km).
    + now rewrite app_nil_r.
    + exact L.
    + intros x [].
    + apply decode_stream_nil.
    + unfold notNameChar. rewrite Bc. unfold lineEndChar in Bl.
      simpl. rewrite Bl. discriminate.
Qed.

Lemma byte_step_named (seen : list Z) (m : Message) (md : Mode) (b : Z) :
  keys_named seen m -> mode_named seen md ->
  let '(m', md', o) := byte_step m md b in
  keys_named (seen ++ [b]) m' /\ mode_named (seen ++ [b]) md' /\
  Forall (keys_named (seen ++ [b])) o.
Proof.
  intros Km Kd.
  pose proof (keys_named_more seen [b] m Km) as Km'.
  destruct md as [| | |d buffer|name first d buffer]; cbn [byte_step].
  - now apply start_byte_named.
  - destruct (b =? LF) eqn:B; [|now apply start_byte_named].
    repeat split; auto. apply line_start_after.
    apply Z.eqb_eq in B. now subst b.
  - destruct (lineEndChar b) eqn:Lb; [|repeat split; auto; exact I].
    rewrite (start_byte_line_end m b Lb).
    repeat split; auto using keys_named_nil, keys_named_emit, mode_named_after.
  - destruct Kd as (pre & bs & E & L & Ne & N & D).
    apply (name_byte_named seen pre bs m d buffer b Km E L N D). auto.
  - simpl in Kd. pose proof (name_text_more seen [b] name Kd) as Kd'.
    destruct (lineEndChar b) eqn:Lb.
    + repeat split; auto using mode_named_after.
      unfold assign. now apply keys_named_set.
    + destruct (first && (b =? SPACE)); [repeat split; auto|].
      destruct (decode_stream d [b]). repeat split; auto.
Qed.

Lemma bytes_run_named (bs : list Z) :
  forall seen m md, keys_named seen m -> mode_named seen md ->
  let '(m', md', o) := bytes_run m md bs in
  keys_named (seen ++ bs) m' /\ mode_named (seen ++ bs) md' /\
  Forall (keys_named (seen ++ bs)) o.
Proof.
  induction bs as [|b bs IH]; intros seen m md Km Kd; cbn [bytes_run].
  - rewrite app_nil_r. repeat split; auto.
  - pose proof (byte_step_named seen m md b Km Kd) as S.
    destruct (byte_step m md b) as [[m1 md1] o1]. destruct S as (K1 & D1 & O1).
    pose proof (IH (seen ++ [b]) m1 md1 K1 D1) as R.
    destruct (bytes_run m1 md1 bs) as [[m2 md2] o2]. destruct R as (K2 & D2 & O2).
    rewrite <- app_assoc in K2, D2, O2. cbn [app] in K2, D2, O2.
    repeat split; auto. apply Forall_app. split; auto.
    apply (Forall_impl _ (fun a H => keys_named_more (seen ++ [b]) bs a H)) in O1.
    now rewrite <- app_assoc in O1.
Qed.

Lemma mode_named_resume (seen : list Z) (md : Mode) :
  mode_named seen md -> mode_named seen (resume_mode md).
Proof. destruct md as [| | | |name [|] d [|x buffer]]; auto. Qed.

Lemma chunks_run_named (source : list chunk) :
  forall seen m md, keys_named seen m -> mode_named seen md ->
  let '(m', md', o) := chunks_run m md source in
  keys_named (seen ++ concat source) m' /\
  mode_named (seen ++ concat source) md' /\
  Forall (keys_named (seen ++ concat source)) o.
Proof.
  induction source as [|c source IH]; intros seen m md Km Kd;
    cbn [chunks_run concat].
  - rewrite app_nil_r. repeat split; auto.
  - pose proof (bytes_run_named c seen m (resume_mode md) Km
                  (mode_named_resume _ _ Kd)) as S.
    destruct (bytes_run m (resume_mode md) c) as [[m1 md1] o1].
    destruct S as (K1 & D1 & O1).
    pose proof (IH (seen ++ c) m1 md1 K1 D1) as R.
    destruct (chunks_run m1 md1 source) as [[m2 md2] o2].
    destruct R as (K2 & D2 & O2). rewrite <- app_assoc in K2, D2, O2.
    repeat split; auto. apply Forall_app. split; auto.
    apply (Forall_impl _ (fun a H => keys_named_more (seen ++ c) (concat source) a H))
      in O1.
    now rewrite <- app_assoc in O1.
Qed.

(** Every key of every message handed over was decoded from the name
    bytes of a line of the stream, whatever the chunking. *)
Lemma parse_keys_named (source : list chunk) (m : Message) :
  In m (parse source) -> keys_named (concat source) m.
Proof.
  rewrite parse_chunks.
  pose proof (chunks_run_named source [] [] AtStart (keys_named_nil [])
                (or_introl eq_refl)) as S.
  destruct (chunks_run [] AtStart source) as [[m' md'] o].
  destruct S as (_ & _ & O). simpl in *. rewrite Forall_forall in O. apply O.
Qed.

(** ** When decoded text is empty *)

Lemma scalars_cons (s : Utf8) (b : Z) (r : list Z) :
  scalars s (b :: r) = (let '(s1, o1) := utf8_byte s b in o1 ++ scalars s1 r).
Proof.
  unfold scalars. cbn [utf8_run].
  destruct (utf8_byte s b) as [s1 o1]. destruct (utf8_run s1 r) as [s2 o2].
  now rewrite app_assoc.
Qed.

Lemma decode_all_scalars (bs : list Z) :
  decode_all bs = snd (serialize false (scalars utf8_new bs)).
Proof.
  unfold decode_all, decode_stream, decode_flush, scalars. simpl handler.
  simpl bom_seen at 1.
  destruct (utf8_run utf8_new bs) as [h o].
  rewrite serialize_app.
  destruct (serialize false o) as [seen t]. simpl.
  now destruct (serialize seen (utf8_end h)).
Qed.

Lemma utf8_lead_progress (b : Z) :
  snd (utf8_lead b) <> [] \/ bytes_needed (fst (utf8_lead b)) <> 0.
Proof.
  unfold utf8_lead.
  destruct (in_range 0 127 b); [left; discriminate|].
  destruct (in_range 194 223 b); [right; discriminate|].
  destruct (in_range 224 239 b); [right; discriminate|].
  destruct (in_range 240 244 b); [right; discriminate|].
  left; discriminate.
Qed.

Lemma utf8_byte_progress (s : Utf8) (b : Z) :
  snd (utf8_byte s b) <> [] \/ bytes_needed (fst (utf8_byte s b)) <> 0.
Proof.
  unfold utf8_byte. destruct (bytes_needed s =? 0) eqn:N.
  - apply utf8_lead_progress.
  - destruct (in_range _ _ b).
    + destruct (bytes_seen s + 1 =? bytes_needed s); [left; discriminate|].
      right. simpl. now apply Z.eqb_neq.
    + destruct (utf8_lead b). left. discriminate.
Qed.

Lemma scalars_not_nil (bs : list Z) :
  forall s, bs <> [] -> scalars s bs <> [].
Proof.
  induction bs as [|b r IH]; intros s N; [contradiction|].
  rewrite scalars_cons. pose proof (utf8_byte_progress s b) as P.
  destruct (utf8_byte s b) as [s1 o1]. simpl in P.
  destruct r as [|b' r'].
  - unfold scalars, utf8_end. simpl.
    destruct P as [P|P]; [destruct o1; [contradiction|discriminate]|].
    apply Z.eqb_neq in P. rewrite P. destruct o1; discriminate.
  - specialize (IH s1 ltac:(discriminate)).
    destruct o1; [exact IH|discriminate].
Qed.

Lemma in_range_In (lo hi b : Z) :
  in_range lo hi b = true -> In b (zrange lo (Z.to_nat (hi - lo + 1))).
Proof.
  unfold in_range. intros H. apply andb_true_iff in H as [H1 H2].
  apply Z.leb_le in H1, H2. unfold zrange. apply in_map_iff.
  exists (Z.to_nat (b - lo)). split; [lia|]. apply in_seq. lia.
Qed.

Lemma two_bytes_not_bom (b1 b2 : Z) :
  in_range 0xC2 0xDF b1 = true -> in_range 0x80 0xBF b2 = true ->
  continuation (Z.land b1 0x1F) b2 <> BOM.
Proof.
  intros H1 H2. apply in_range_In in H1, H2.
  assert (C : forallb (fun x => forallb (fun y =>
                negb (continuation (Z.land x 0x1F) y =? BOM)) tails)
              (zrange 0xC2 30) = true) by (vm_compute; reflexivity).
  rewrite forallb_forall in C. specialize (C b1 H1).
  rewrite forallb_forall in C. specialize (C b2 H2).
  apply negb_true_iff, Z.eqb_neq in C. exact C.
Qed.

Lemma three_bytes_bom (b1 b2 b3 : Z) :
  in_range 0xE0 0xEF b1 = true -> in_range 0x80 0xBF b2 = true ->
  in_range 0x80 0xBF b3 = true ->
  continuation (continuation (Z.land b1 0xF) b2) b3 = BOM ->
  b1 = 0xEF /\ b2 = 0xBB /\ b3 = 0xBF.
Proof.
  intros H1 H2 H3 E. apply in_range_In in H1, H2, H3.
  assert (C : forallb (fun x => forallb (fun y => forallb (fun z =>
                implb (continuation (continuation (Z.land x 0xF) y) z =? BOM)
                      ((x =? 0xEF) && (y =? 0xBB) && (z =? 0xBF)))
                tails) tails) (zrange 0xE0 16) = true)
    by (vm_compute; reflexivity).
  rewrite forallb_forall in C. specialize (C b1 H1).
  rewrite forallb_forall in C. specialize (C b2 H2).
  rewrite forallb_forall in C. specialize (C b3 H3).
  apply Z.eqb_eq in E. rewrite E in C. simpl in C.
  apply andb_true_iff in C as [C C3]. apply andb_true_iff in C as [C1 C2].
  apply Z.eqb_eq in C1, C2, C3. auto.
Qed.

Lemma shiftr_continuation (cp b : Z) : Z.shiftr (continuation cp b) 6 = cp.
Proof.
  unfold continuation.
  rewrite Z.shiftr_lor, Z.shiftr_shiftl_l, Z.shiftr_land by lia.
  change (Z.shiftr 63 6) with 0. rewrite Z.land_0_r, Z.lor_0_r.
  apply Z.shiftl_0_r.
Qed.

Lemma four_bytes_not_bom (b1 b2 b3 b4 : Z) :
  in_range 0xF0 0xF4 b1 = true ->
  in_range (if b1 =? 0xF0 then 0x90 else 0x80) 0xBF b2 = true ->
  continuation (continuation (continuation (Z.land b1 0x7) b2) b3) b4 <> BOM.
Proof.
  intros H1 H2 E.
  assert (S : Z.shiftr (Z.shiftr BOM 6) 6 = 15) by reflexivity.
  rewrite <- E, !shiftr_continuation in S.
  assert (H2' : in_range 0x80 0xBF b2 = true).
  { unfold in_range in *. apply andb_true_iff in H2 as [A B].
    apply andb_true_iff. split; auto. apply Z.leb_le in A. apply Z.leb_le.
    destruct (b1 =? 240); lia. }
  apply in_range_In in H1, H2'.
  assert (C : forallb (fun x => forallb (fun y =>
                implb (in_range (if x =? 0xF0 then 0x90 else 0x80) 0xBF y)
                      (negb (continuation (Z.land x 0x7) y =? 15)))
                tails) (zrange 0xF0 5) = true)
    by (vm_compute; reflexivity).
  rewrite forallb_forall in C. specialize (C b1 H1).
  rewrite forallb_forall in C. specialize (C b2 H2').
  rewrite H2 in C. simpl in C.
  apply negb_true_iff, Z.eqb_neq in C. contradiction.
Qed.

Lemma scalars_new_nil (r : list Z) : scalars utf8_new r = [] -> r = [].
Proof.
  intros H. destruct r as [|b r]; [reflexivity|].
  exfalso. now apply (scalars_not_nil (b :: r) utf8_new).
Qed.

Lemma replacement_not_bom (l : list Z) : REPLACEMENT :: l <> [BOM].
Proof. discriminate. Qed.

(** A pending sequence that lacks one byte. *)
Lemma last_byte_bom (s : Utf8) (bs : list Z) :
  bytes_needed s <> 0 -> bytes_seen s + 1 = bytes_needed s ->
  scalars s bs = [BOM] ->
  exists b, bs = [b] /\
    in_range (lower_boundary s) (upper_boundary s) b = true /\
    continuation (code_point s) b = BOM.
Proof.
  intros N Sn H. apply Z.eqb_neq in N.
  destruct bs as [|b r].
  - unfold scalars, utf8_end in H. simpl in H. rewrite N in H. discriminate.
  - rewrite scalars_cons in H. unfold utf8_byte in H. rewrite N in H.
    destruct (in_range (lower_boundary s) (upper_boundary s) b) eqn:R.
    + rewrite Sn, Z.eqb_refl in H. simpl in H. inversion H as [[E1 E2]].
      apply scalars_new_nil in E2. subst r. exists b. auto.
    + destruct (utf8_lead b) as [s' out]. simpl in H.
      now apply replacement_not_bom in H.
Qed.

(** A pending sequence that lacks more than one byte takes the next. *)
Lemma next_byte_bom (s : Utf8) (bs : list Z) :
  bytes_needed s <> 0 -> bytes_seen s + 1 <> bytes_needed s ->
  scalars s bs = [BOM] ->
  exists b r, bs = b :: r /\
    in_range (lower_boundary s) (upper_boundary s) b = true /\
    scalars (mkUtf8 (continuation (code_point s) b) (bytes_seen s + 1)
                    (bytes_needed s) 0x80 0xBF) r = [BOM].
Proof.
  intros N Sn H. apply Z.eqb_neq in N. apply Z.eqb_neq in Sn.
  destruct bs as [|b r].
  - unfold scalars, utf8_end in H. simpl in H. rewrite N in H. discriminate.
  - rewrite scalars_cons in H. unfold utf8_byte in H. rewrite N in H.
    destruct (in_range (lower_boundary s) (upper_boundary s) b) eqn:R.
    + rewrite Sn in H. simpl in H. exists b, r. auto.
    + destruct (utf8_lead b) as [s' out]. simpl in H.
      now apply replacement_not_bom in H.
Qed.

Lemma in_range_widen (lo hi b : Z) :
  0x80 <= lo -> hi <= 0xBF -> in_range lo hi b = true ->
  in_range 0x80 0xBF b = true.
Proof.
  unfold in_range. intros L H R. apply andb_true_iff in R as [A B].
  apply Z.leb_le in A, B. apply andb_true_iff. split; apply Z.leb_le; lia.
Qed.

(** The only bytes that decode to a lone U+FEFF are EF BB BF. *)
Lemma scalars_bom (bs : list Z) :
  scalars utf8_new bs = [BOM] -> bs = [0xEF; 0xBB; 0xBF].
Proof.
  intros H. destruct bs as [|b1 r1]; [discriminate|].
  rewrite scalars_cons in H. unfold utf8_byte in H. simpl bytes_needed in H.
  cbn [Z.eqb] in H. unfold utf8_lead in H.
  destruct (in_range 0 127 b1) eqn:R0.
  { simpl in H. inversion H; subst. discriminate R0. }
  destruct (in_range 194 223 b1) eqn:R1.
  { simpl in H. apply last_byte_bom in H; try (simpl; lia).
    destruct H as (b2 & -> & R2 & E). simpl in *.
    now apply two_bytes_not_bom in E. }
  destruct (in_range 224 239 b1) eqn:R2.
  { simpl in H. apply next_byte_bom in H; try (simpl; lia).
    destruct H as (b2 & r2 & -> & Rb2 & H). simpl in *.
    apply last_byte_bom in H; try (simpl; lia).
    destruct H as (b3 & -> & Rb3 & E). simpl in *.
    assert (Rb2' : in_range 128 191 b2 = true).
    { apply (in_range_widen (if b1 =? 224 then 160 else 128)
                            (if b1 =? 237 then 159 else 191));
        [destruct (b1 =? 224); lia | destruct (b1 =? 237); lia | exact Rb2]. }
    destruct (three_bytes_bom b1 b2 b3 R2 Rb2' Rb3 E) as (-> & -> & ->).
    reflexivity. }
  destruct (in_range 240 244 b1) eqn:R3.
  { simpl in H. apply next_byte_bom in H; try (simpl; lia).
    destruct H as (b2 & r2 & -> & Rb2 & H). simpl in *.
    apply next_byte_bom in H; try (simpl; lia).
    destruct H as (b3 & r3 & -> & Rb3 & H). simpl in *.
    apply last_byte_bom in H; try (simpl; lia).
    destruct H as (b4 & -> & Rb4 & E). simpl in *.
    exfalso. apply (four_bytes_not_bom b1 b2 b3 b4 R3); auto.
    unfold in_range in Rb2 |- *. apply andb_true_iff in Rb2 as [A B].
    apply andb_true_iff. split; auto.
    apply Z.leb_le in B. apply Z.leb_le. destruct (b1 =? 244); lia. }
  simpl in H. now apply replacement_not_bom in H.
Qed.

(** Decoded text is empty for no bytes and for a lone byte order mark
    only. *)
Lemma decode_all_empty (bs : list Z) :
  decode_all bs = [] -> bs = [] \/ bs = [0xEF; 0xBB; 0xBF].
Proof.
  rewrite decode_all_scalars. intros H.
  destruct (scalars utf8_new bs) as [|c r] eqn:S.
  - left. now apply scalars_new_nil.
  - right. apply scalars_bom. simpl in H.
    destruct (c =? BOM) eqn:C.
    + apply Z.eqb_eq in C. subst. now rewrite S.
    + discriminate.
Qed.

Lemma In_insert_index (n : Z) (k : text) (l : list (Z * text)) (x : Z * text) :
  In x (insert_index n k l) -> x = (n, k) \/ In x l.
Proof.
  induction l as [|[m k'] r IH]; simpl.
  - intros [E|[]]; auto.
  - destruct (n <? m); simpl.
    + intros [E|H]; auto.
    + intros [E|H]; auto. apply IH in H as [H|H]; auto.
Qed.

Lemma In_Object_keys (m : Message) (k : text) :
  In k (Object_keys m) -> exists v, In (k, v) m.
Proof.
  unfold Object_keys. intros H. apply in_app_or in H as [H|H].
  - apply in_map_iff in H as ([n k'] & E & H). simpl in E. subst k'.
    induction m as [|[k0 v0] m IH]; simpl in H; [contradiction|].
    destruct (array_index k0) as [n0|].
    + apply In_insert_index in H as [E|H].
      * inversion E; subst. exists v0. now left.
      * destruct (IH H) as (v & Hv). exists v. now right.
    + destruct (IH H) as (v & Hv). exists v. now right.
  - induction m as [|[k0 v0] m IH]; simpl in H; [contradiction|].
    destruct (array_index k0) as [n0|].
    + destruct (IH H) as (v & Hv). exists v. now right.
    + destruct H as [<-|H].
      * exists v0. now left.
      * destruct (IH H) as (v & Hv). exists v. now right.
Qed.

(** C10, up to the byte order mark.  Every key of every message handed
    over is the text decoded from the name bytes of a line of the stream:
    bytes that begin a line, at least one, none of them a colon, a CR or
    an LF, followed by one of these.  The key is the empty string exactly
    when those bytes are a lone byte order mark EF BB BF, which
    [TextDecoder] drops. *)
Theorem keys_decoded_from_name_bytes
    (source : list chunk) (m : Message) (k : text) :
  In m (parse source) ->
  In k (Object_keys m) ->
  exists bs : list Z,
    name_bytes_in (concat source) bs /\ k = decode_all bs /\
    (k = [] <-> bs = [0xEF; 0xBB; 0xBF]).
Proof.
  intros Hm Hk. apply In_Object_keys in Hk as (v & Hv).
  destruct (parse_keys_named source m Hm k v Hv) as (bs & N & E).
  exists bs. split; [exact N|]. split; [exact E|]. split.
  - intros K. rewrite E in K. apply decode_all_empty in K as [K|K]; auto.
    destruct N as (pre & t & post & _ & _ & Ne & _). contradiction.
  - intros ->. exact E.
Qed.

Lemma keys_decoded_from_name_bytes_witness :
  exists bs : list Z,
    name_bytes_in (concat [codes "ev"; codes "ent: tick" ++ [CR; LF; CR]; [LF]]) bs /\
    codes "event" = decode_all bs /\
    (codes "event" = [] <-> bs = [0xEF; 0xBB; 0xBF]).
Proof.
  apply (keys_decoded_from_name_bytes
           [codes "ev"; codes "ent: tick" ++ [CR; LF; CR]; [LF]]
           [(codes "event", codes "tick")] (codes "event")).
  - vm_compute. left. reflexivity.
  - vm_compute. left. reflexivity.
Defined.

(** C10, counterexample: a field whose name is a lone byte order mark is
    stored under the empty string. *)
Lemma empty_key_from_bom :
  parse [[0xEF; 0xBB; 0xBF] ++ codes ":x" ++ [LF; LF]] = [[([], codes "x")]] /\
  map Object_keys (parse [[0xEF; 0xBB; 0xBF] ++ codes ":x" ++ [LF; LF]]) = [[[]]].
Proof.
  vm_compute. split; reflexivity.
Qed.

(** ** When the chunking does not matter *)

Lemma resume_mode_idem (md : Mode) : resume_mode (resume_mode md) = resume_mode md.
Proof. destruct md as [| | | |name [|] d [|x buffer]]; reflexivity. Qed.

Lemma byte_step_resume (m : Message) (md : Mode) (b : Z) :
  rearmed md && (b =? SPACE) = false ->
  byte_step m (resume_mode md) b = byte_step m md b.
Proof.
  destruct md as [| | | |name [|] d [|x buffer]]; try reflexivity.
  simpl. intros H. rewrite H. reflexivity.
Qed.

Lemma stable_from_app (a b : list Z) :
  forall m md, stable_from m md (a ++ b) = true ->
  stable_from m md a = true /\
  stable_from (fst (fst (bytes_run m md a))) (snd (fst (bytes_run m md a))) b = true.
Proof.
  induction a as [|x a IH]; intros m md H; cbn [app stable_from bytes_run] in *.
  - auto.
  - apply andb_true_iff in H as [H1 H2]. rewrite H1.
    destruct (byte_step m md x) as [[m1 md1] o1].
    destruct (IH m1 md1 H2) as [A B]. rewrite A.
    destruct (bytes_run m1 md1 a) as [[m2 md2] o2]. auto.
Qed.

Lemma chunks_run_stable (source : list chunk) :
  forall m md md0,
    stable_from m md (concat source) = true ->
    md0 = md \/ md0 = resume_mode md ->
    snd (chunks_run m md0 source) = snd (bytes_run m md (concat source)).
Proof.
  induction source as [|c source IH]; intros m md md0 St Hd; [reflexivity|].
  cbn [chunks_run concat] in *.
  assert (R : resume_mode md0 = resume_mode md).
  { destruct Hd as [-> | ->]; auto using resume_mode_idem. }
  rewrite R. destruct c as [|b c'].
  - cbn [bytes_run app] in *.
    rewrite <- (IH m md (resume_mode md) St (or_intror eq_refl)).
    destruct (chunks_run m (resume_mode md) source) as [[? ?] ?]. reflexivity.
  - destruct (stable_from_app (b :: c') (concat source) m md St) as [A B].
    assert (E : bytes_run m (resume_mode md) (b :: c') = bytes_run m md (b :: c')).
    { cbn [bytes_run stable_from] in *. apply andb_true_iff in A as [A _].
      apply negb_true_iff in A. now rewrite (byte_step_resume m md b A). }
    rewrite E, bytes_run_app.
    destruct (bytes_run m md (b :: c')) as [[m1 md1] o1]. cbn [fst snd] in B.
    specialize (IH m1 md1 md1 B (or_introl eq_refl)).
    destruct (chunks_run m1 md1 source) as [[m2 md2] o2].
    destruct (bytes_run m1 md1 (concat source)) as [[m3 md3] o3].
    simpl in *. now rewrite IH.
Qed.

(** For a stream in which no value holds a space between its first byte
    and its first decoded character, every way of cutting the stream into
    chunks yields the messages of the uncut stream. *)
Lemma chunking_invariant_when_stable (source : list chunk) :
  space_stable (concat source) = true ->
  parse source = parse [concat source].
Proof.
  intros St. rewrite parse_one_chunk, parse_chunks.
  apply (chunks_run_stable source [] AtStart AtStart St). now left.
Qed.

(** The same holds for a record cut into chunks in any way, as long as
    none of its values has a space between its first byte and its first
    decoded character. *)
Lemma record_messages_chunked (e : Eol) (ls : list Line) (source : list chunk) :
  Forall well_formed ls ->
  concat source = record_bytes e ls ->
  space_stable (record_bytes e ls) = true ->
  parse source = snd (lines_run [] ls) ++ emit (fst (lines_run [] ls)).
Proof.
  intros W C St. rewrite <- C in St.
  rewrite (chunking_invariant_when_stable source St), C.
  now apply record_messages.
Qed.

(** X1.  What the parser hands over it hands over from [fieldStart], on a
    line end, and only a message with at least one field. *)
Lemma hand_over_at_line_end (b : Build) (c : chunk) (s : Session) :
  received (loop_body b c s) <> received s ->
  stateIterator s = fieldStart_yield0 /\
  (exists ch, nth_error c (currentPos s) = Some ch /\ lineEndChar ch = true) /\
  heap_get (heap s) (message (ctx s)) <> [] /\
  received (loop_body b c s)
  = received s ++ [(message (ctx s), heap_get (heap s) (message (ctx s)))].
Proof.
  unfold loop_body.
  destruct (next b (heap s) (ctx s) (stateIterator s) _) as [[h' cx'] r] eqn:N.
  destruct r as [g' out|t]; [|intros H; now contradiction H].
  destruct (out_message out) as [l|] eqn:Om;
    [|destruct (out_pos out); intros H; now contradiction H].
  assert (K : stateIterator s = fieldStart_yield0 /\
              (exists ch, nth_error c (currentPos s) = Some ch /\
                          lineEndChar ch = true) /\
              h' = heap s /\ l = message (ctx s)).
  { destruct (stateIterator s) as [[| | | |]| | | | | | |]; cbn [next] in N;
      try (inversion N; subst; discriminate Om).
    - cbn [in_chunk in_pos] in N.
      destruct (nth_error c (currentPos s)) as [ch|];
        [destruct (ch =? COLON); [|destruct ((ch =? LF) || (ch =? CR)) eqn:E]|];
        inversion N; subst; try discriminate Om.
      simpl in Om. inversion Om; subst. repeat split; auto.
      exists ch. split; auto. unfold lineEndChar. now rewrite orb_comm.
    - unfold skipComment_loop in N. destruct (findIndex _ _); inversion N; subst;
        discriminate Om.
    - unfold skipComment_loop in N. destruct (findIndex _ _); inversion N; subst;
        discriminate Om.
    - unfold collectUntilChar_loop in N. destruct (findIndex _ _).
      + destruct (add_bytes _ _ _ _). destruct from; cbn [collectUntilChar_return] in N;
          unfold fieldName_rest, fieldValue_rest in N;
          try destruct (_ || _); inversion N.
      + inversion N; subst; discriminate Om.
    - destruct (add_bytes _ _ _ _). unfold collectUntilChar_loop in N.
      destruct (findIndex _ _).
      + destruct (add_bytes _ _ _ _). destruct from; cbn [collectUntilChar_return] in N;
          unfold fieldName_rest, fieldValue_rest in N;
          try destruct (_ || _); inversion N.
      + inversion N; subst; discriminate Om. }
  destruct K as (G & Ch & -> & ->).
  rewrite length_Object_keys.
  destruct (heap_get (heap s) (message (ctx s))) as [|kv m'] eqn:M.
  - simpl. destruct (out_pos out); intros H; now contradiction H.
  - simpl. intros _. repeat split; auto; try discriminate.
    rewrite hand_over_eq. destruct (out_pos out); simpl; now rewrite M.
Qed.

Lemma hand_over_at_line_end_witness :
  let c := codes "a:1" ++ [LF; LF] in
  let s := feed 7 lib_ts c (set_pos (new_session None) O) in
  stateIterator s = fieldStart_yield0 /\
  (exists ch, nth_error c (currentPos s) = Some ch /\ lineEndChar ch = true) /\
  heap_get (heap s) (message (ctx s)) <> [] /\
  received (loop_body lib_ts c s)
  = received s ++ [(message (ctx s), heap_get (heap s) (message (ctx s)))].
Proof.
  apply (hand_over_at_line_end lib_ts (codes "a:1" ++ [LF; LF])
           (feed 7 lib_ts (codes "a:1" ++ [LF; LF]) (set_pos (new_session None) O))).
  vm_compute. discriminate.
Defined.

(** ** What the inner loop hands over *)

(** What one iteration of the inner loop adds to the consumer's messages:
    nothing, or one message that has a field. *)
Lemma loop_body_adds (b : Build) (c : chunk) (s : Session) :
  exists o, received (loop_body b c s) = received s ++ o /\
            Forall (fun p => snd p <> []) o.
Proof.
  unfold loop_body.
  destruct (next b (heap s) (ctx s) (stateIterator s) _) as [[h cx] [g out|t]];
    [|exists []; simpl; now rewrite app_nil_r].
  destruct (out_message out) as [l|].
  - destruct (0 <? length (Object_keys (heap_get h l)))%nat eqn:K.
    + exists [(l, heap_get h l)].
      split.
      * destruct (out_pos out); rewrite hand_over_eq; reflexivity.
      * constructor; [|constructor]. simpl. rewrite length_Object_keys in K.
        intros E. rewrite E in K. discriminate K.
    + exists []. destruct (out_pos out); simpl; now rewrite app_nil_r.
  - exists []. destruct (out_pos out); simpl; now rewrite app_nil_r.
Qed.

Lemma feed_adds (b : Build) (c : chunk) (fuel : nat) :
  forall s, exists o, received (feed fuel b c s) = received s ++ o /\
                      Forall (fun p => snd p <> []) o.
Proof.
  induction fuel as [|fuel IH]; intros s.
  - exists []. split; [symmetry; apply app_nil_r|constructor].
  - unfold feed; fold feed.
    destruct (currentPos s <? length c)%nat.
    + destruct (loop_body_adds b c s) as (o1 & E1 & F1).
      destruct (IH (loop_body b c s)) as (o2 & E2 & F2).
      exists (o1 ++ o2). rewrite E2, E1, app_assoc. split; auto.
      apply Forall_app; auto.
    + exists []. split; [symmetry; apply app_nil_r|constructor].
Qed.

Lemma read_loop_adds (b : Build) (source : list chunk) :
  forall s, exists o, received (read_loop b source s) = received s ++ o /\
                      Forall (fun p => snd p <> []) o.
Proof.
  induction source as [|c source IH]; intros s; simpl.
  - exists []. destruct (clientClosed s); split;
      try (symmetry; apply app_nil_r); constructor.
  - destruct (clientClosed s).
    + exists []. split; [symmetry; apply app_nil_r|constructor].
    + destruct (0 <? length c)%nat; [|apply IH].
      destruct (feed_adds b c (chunk_fuel c) (set_pos s 0%nat)) as (o1 & E1 & F1).
      destruct (IH (feed (chunk_fuel c) b c (set_pos s 0%nat))) as (o2 & E2 & F2).
      exists (o1 ++ o2). rewrite E2, E1, app_assoc. split; auto.
      apply Forall_app; auto.
Qed.

Lemma received_new_session (consumer : option nat) :
  received (new_session consumer) = [].
Proof.
  unfold new_session.
  now destruct (heap_projections_consumer
    (mkSession [[]] (mkCtx O new_TextDecoder) (created fieldStart) O false None
               [] consumer)) as (_ & _ & _ & _ & -> & _).
Qed.

(** X2.  No message without a field is ever handed over. *)
Theorem no_empty_message (b : Build) (consumer : option nat) (source : list chunk) :
  Forall (fun m => Object_keys m <> []) (messages (getMessagesOf b consumer source)).
Proof.
  unfold getMessagesOf, messages. cbn [finish received].
  destruct (read_loop_adds b source (new_session consumer)) as (o & E & F).
  rewrite E, received_new_session. cbn [app].
  apply Forall_map. eapply Forall_impl; [|exact F].
  intros [l m] H K. simpl in *. apply H.
  apply length_zero_iff_nil. rewrite <- length_Object_keys, K. reflexivity.
Qed.

(** ** Earlier messages *)

Lemma chunks_run_app (a b : list chunk) :
  forall m md,
  chunks_run m md (a ++ b) =
  (let '(m1, md1, o1) := chunks_run m md a in
   let '(m2, md2, o2) := chunks_run m1 md1 b in (m2, md2, o1 ++ o2)).
Proof.
  induction a as [|c a IH]; intros m md; cbn [app chunks_run].
  - now destruct (chunks_run m md b) as [[? ?] ?].
  - destruct (bytes_run m (resume_mode md) c) as [[m1 md1] o1].
    rewrite IH. destruct (chunks_run m1 md1 a) as [[m2 md2] o2].
    destruct (chunks_run m2 md2 b) as [[m3 md3] o3]. now rewrite app_assoc.
Qed.

(** X3.  Messages completed by the first chunks, or by the first bytes of a
    chunk, are the first messages of the whole stream. *)
Theorem earlier_messages_stand :
  (forall (b : Build) (pre post : list chunk),
     exists later,
       messages (getMessagesOf b None (pre ++ post))
       = messages (getMessagesOf b None pre) ++ later) /\
  (forall (pre : list chunk) (bytes more : list Z) (post : list chunk),
     exists later,
       parse (pre ++ (bytes ++ more) :: post) = parse (pre ++ [bytes]) ++ later).
Proof.
  split.
  - intros b pre post. unfold getMessagesOf, messages. cbn [finish received].
    rewrite read_loop_app.
    destruct (read_loop_adds b post (read_loop b pre (new_session None)))
      as (o & E & _).
    exists (map snd o). now rewrite E, map_app.
  - intros pre bytes more post. rewrite !parse_chunks, !chunks_run_app.
    destruct (chunks_run [] AtStart pre) as [[m1 md1] o1].
    cbn [chunks_run]. rewrite bytes_run_app.
    destruct (bytes_run m1 (resume_mode md1) bytes) as [[m2 md2] o2].
    destruct (bytes_run m2 md2 more) as [[m3 md3] o3].
    destruct (chunks_run m3 md3 post) as [[m4 md4] o4].
    cbn [snd]. exists (o3 ++ o4). now rewrite app_nil_r, <- !app_assoc.
Qed.

(** ** The inner loop ends *)

Lemma yield_session (s : Session) (h : Heap) (cx : ParserCtx)
    (g : Generator) (out : ParserOutput) :
  let s' :=
    (let s1 := mkSession h cx g (currentPos s) (clientClosed s)
                         (finishedWith s) (received s) (close_after s) in
     let s2 :=
       match out_message out with
       | Some l =>
           if (0 <? length (Object_keys (heap_get h l)))%nat
           then hand_over s1 l else s1
       | None => s1
       end in
     match out_pos out with
     | Some p => set_pos s2 p
     | None => s2
     end) in
  stateIterator s' = g /\
  currentPos s' = match out_pos out with Some p => p | None => currentPos s end.
Proof.
  cbv zeta.
  destruct (out_message out) as [l|];
    [destruct (0 <? length (Object_keys (heap_get h l)))%nat|];
    destruct (out_pos out) as [p|]; try rewrite hand_over_eq; simpl; auto.
Qed.

Lemma shaped_after (ch : Z) : shaped (created (skipLFAfterCR ch fieldStart)) /\
  (rank (created (skipLFAfterCR ch fieldStart)) <= 5)%nat.
Proof. unfold skipLFAfterCR. destruct (ch =? LF); simpl; split; auto; lia. Qed.

Lemma collectUntilChar_loop_moves (from : Caller) (p : Predicate) (skip : bool)
    (h : Heap) (cx : ParserCtx) (buffer : text) (c : chunk) (q : nat) :
  match collectUntilChar_loop from p skip h cx buffer c q with
  | (_, _, returned t) =>
      (q < pos t <= length c)%nat /\ shaped (created (nextState t)) /\
      (rank (created (nextState t)) <= 5)%nat
  | (_, _, yielded g out) =>
      rank g = O /\ shaped g /\
      match g with fieldStart_yield1 _ _ => False | _ => True end /\
      out_pos out = Some (length c)
  end.
Proof.
  unfold collectUntilChar_loop, subarray_from.
  destruct (findIndex (holds p) (skipn q c)) as [i|] eqn:F.
  - destruct (found_split _ _ _ _ F) as (L & _).
    destruct (add_bytes skip (decoder cx) buffer _) as [d t].
    destruct from; cbn [collectUntilChar_return];
      unfold fieldName_rest, fieldValue_rest;
      try destruct (_ || _); cbn [pos nextState];
      (split; [lia|]); try apply shaped_after; simpl; split; auto; lia.
  - simpl. auto.
Qed.

Lemma skipComment_loop_moves (c : chunk) (q : nat) :
  (q < length c)%nat ->
  match skipComment_loop c q with
  | returned t =>
      (q <= pos t < length c)%nat /\ shaped (created (nextState t)) /\
      (rank (created (nextState t)) <= 5)%nat
  | yielded g out => g = skipComment_yield1 /\ out_pos out = Some (length c)
  end.
Proof.
  intros L. unfold skipComment_loop, subarray_from.
  destruct (findIndex lineEndChar (skipn q c)) as [i|] eqn:F.
  - destruct (found_split _ _ _ _ F) as (Li & _). cbn [pos nextState].
    split; [lia|]. apply shaped_after.
  - auto.
Qed.

(** Every iteration of the inner loop keeps the position inside the chunk
    and uses up some of the potential. *)
Lemma loop_body_progress (b : Build) (c : chunk) (s : Session) :
  within c s -> (currentPos s < length c)%nat ->
  within c (loop_body b c s) /\
  (potential c (loop_body b c s) < potential c s)%nat.
Proof.
  intros (P & Sh & G) L. unfold loop_body, potential.
  destruct (stateIterator s) as [[| | | |ns]| |ch q|ns| | |from p skip|from p skip buffer rem]
    eqn:St; cbn [next in_chunk in_pos].
  - destruct (yield_session s (heap s) (ctx s) fieldStart_yield0 (mkOutput None None))
      as [E1 E2]. cbv zeta in E1, E2. unfold within. rewrite E1, E2. simpl. repeat split; auto; lia.
  - destruct (yield_session s (heap s) (ctx s)
                (collectUntilChar_yield0 for_fieldName is_notNameChar false)
                (mkOutput None None)) as [E1 E2].
    cbv zeta in E1, E2. unfold within. rewrite E1, E2. simpl. repeat split; auto; lia.
  - destruct (yield_session s (heap s) (ctx s)
                (collectUntilChar_yield0 (for_fieldValue name) (value_predicate b) true)
                (mkOutput None None)) as [E1 E2].
    cbv zeta in E1, E2. unfold within. rewrite E1, E2. simpl. repeat split; auto; lia.
  - destruct (yield_session s (heap s) (ctx s) skipComment_yield0 (mkOutput None None))
      as [E1 E2]. cbv zeta in E1, E2. unfold within. rewrite E1, E2. simpl. repeat split; auto; lia.
  - destruct (yield_session s (heap s) (ctx s) (skipLF_yield0 ns) (mkOutput None None))
      as [E1 E2]. cbv zeta in E1, E2. unfold within. rewrite E1, E2. simpl. repeat split; auto; lia.
  - destruct (nth_error c (currentPos s)) as [x|] eqn:N.
    + destruct (x =? COLON); [unfold within; simpl; repeat split; auto; lia|].
      destruct ((x =? LF) || (x =? CR)).
      * destruct (yield_session s (heap s) (ctx s) (fieldStart_yield1 x (currentPos s))
                    (mkOutput (Some (message (ctx s))) None)) as [E1 E2].
        cbv zeta in E1, E2. unfold within. rewrite E1, E2. simpl.
        repeat split; auto; lia.
      * unfold within; simpl; repeat split; auto; lia.
    + unfold within; simpl; repeat split; auto; lia.
  - destruct G as [-> G]. destruct (heap_alloc (heap s)) as [h l].
    destruct (shaped_after ch) as [A B]. unfold within. cbn [stateIterator currentPos nextState pos].
    split; [|lia]. split; [lia|]. split; [exact A|].
    unfold skipLFAfterCR. now destruct (ch =? LF).
  - simpl in Sh. subst ns. unfold within. cbn [stateIterator currentPos nextState pos rank shaped].
    destruct (nth_error c (currentPos s)) as [x|] ; [destruct (x =? LF)|];
      repeat split; auto; try lia.
  - pose proof (skipComment_loop_moves c (currentPos s) L) as K.
    destruct (skipComment_loop c (currentPos s)) as [g out|t].
    + destruct K as [-> K].
      destruct (yield_session s (heap s) (ctx s) skipComment_yield1 out) as [E1 E2].
      cbv zeta in E1, E2. unfold within. rewrite E1, E2, K. simpl.
      repeat split; auto; lia.
    + destruct K as (K1 & K2 & K3). unfold within.
      cbn [stateIterator currentPos].
      split; [|change (rank skipComment_yield0) with 6%nat;
               change (rank skipComment_yield1) with 6%nat; lia].
      split; [lia|]. split; [exact K2|].
      destruct (nextState t); exact I.
  - pose proof (skipComment_loop_moves c (currentPos s) L) as K.
    destruct (skipComment_loop c (currentPos s)) as [g out|t].
    + destruct K as [-> K].
      destruct (yield_session s (heap s) (ctx s) skipComment_yield1 out) as [E1 E2].
      cbv zeta in E1, E2. unfold within. rewrite E1, E2, K. simpl.
      repeat split; auto; lia.
    + destruct K as (K1 & K2 & K3). unfold within.
      cbn [stateIterator currentPos].
      split; [|change (rank skipComment_yield0) with 6%nat;
               change (rank skipComment_yield1) with 6%nat; lia].
      split; [lia|]. split; [exact K2|].
      destruct (nextState t); exact I.
  - pose proof (collectUntilChar_loop_moves from p skip (heap s) (ctx s) [] c
                  (currentPos s)) as K.
    destruct (collectUntilChar_loop _ _ _ _ _ _ _ _) as [[h cx] [g out|t]].
    + destruct K as (K1 & K2 & K3 & K4).
      destruct (yield_session s h cx g out) as [E1 E2].
      cbv zeta in E1, E2. unfold within. rewrite E1, E2, K4, K1.
      split; [|lia]. split; [lia|]. split; [exact K2|].
      destruct g; auto; contradiction.
    + destruct K as (K1 & K2 & K3). unfold within.
      cbn [stateIterator currentPos]. split; [|lia]. split; [lia|].
      split; [exact K2|]. destruct (nextState t); exact I.
  - destruct (add_bytes _ _ _ _) as [d t0].
    pose proof (collectUntilChar_loop_moves from p skip (heap s)
                  (mkCtx (message (ctx s)) d) t0 c (currentPos s)) as K.
    destruct (collectUntilChar_loop _ _ _ _ _ _ _ _) as [[h cx] [g out|t]].
    + destruct K as (K1 & K2 & K3 & K4).
      destruct (yield_session s h cx g out) as [E1 E2].
      cbv zeta in E1, E2. unfold within. rewrite E1, E2, K4, K1.
      split; [|lia]. split; [lia|]. split; [exact K2|].
      destruct g; auto; contradiction.
    + destruct K as (K1 & K2 & K3). unfold within.
      cbn [stateIterator currentPos]. split; [|lia]. split; [lia|].
      split; [exact K2|]. destruct (nextState t); exact I.
Qed.

Lemma feed_within (b : Build) (c : chunk) (fuel : nat) :
  forall s, within c s -> within c (feed fuel b c s).
Proof.
  induction fuel as [|fuel IH]; intros s W; [exact W|].
  unfold feed; fold feed.
  destruct (currentPos s <? length c)%nat eqn:L; [|exact W].
  apply IH, loop_body_progress; auto. now apply Nat.ltb_lt.
Qed.

Lemma feed_reaches_end (b : Build) (c : chunk) (fuel : nat) :
  forall s, within c s -> (potential c s <= fuel)%nat ->
  currentPos (feed fuel b c s) = length c.
Proof.
  induction fuel as [|fuel IH]; intros s W F.
  - unfold potential in F. destruct W as (P & _). unfold feed. lia.
  - unfold feed; fold feed.
    destruct (currentPos s <? length c)%nat eqn:L.
    + apply Nat.ltb_lt in L. destruct (loop_body_progress b c s W L) as [W' D].
      apply IH; auto. lia.
    + apply Nat.ltb_ge in L. destruct W as (P & _). lia.
Qed.

Lemma feed_plus (b : Build) (c : chunk) (n k : nat) :
  forall s, feed (n + k) b c s = feed k b c (feed n b c s).
Proof.
  induction n as [|n IH]; intros s; [reflexivity|].
  cbn [Nat.add]. unfold feed at 1 3; fold feed.
  destruct (currentPos s <? length c)%nat eqn:L; [apply IH|].
  apply Nat.ltb_ge in L. now rewrite feed_done.
Qed.

Lemma rank_le (g : Generator) : (rank g <= 7)%nat.
Proof. destruct g as [[]| | | | | | |]; simpl; lia. Qed.

Lemma within_start (c : chunk) (s : Session) :
  rested s -> within c (set_pos s O) /\ (potential c (set_pos s O) <= chunk_fuel c)%nat.
Proof.
  intros (Sh & R). unfold within, potential, chunk_fuel. cbn [set_pos currentPos stateIterator].
  pose proof (rank_le (stateIterator s)).
  split; [|lia]. split; [lia|]. split; [exact Sh|].
  destruct (stateIterator s); auto; contradiction.
Qed.

Lemma within_rested (c : chunk) (s : Session) :
  within c s -> currentPos s = length c -> rested s.
Proof.
  intros (P & Sh & G) E. split; [exact Sh|].
  destruct (stateIterator s); auto. lia.
Qed.

Lemma rested_read_loop (b : Build) (source : list chunk) :
  forall s, rested s -> rested (read_loop b source s).
Proof.
  induction source as [|c source IH]; intros s R; simpl;
    destruct (clientClosed s); auto.
  apply IH. destruct (0 <? length c)%nat; auto.
  destruct (within_start c s R) as [W F].
  apply (within_rested c).
  - now apply feed_within.
  - now apply feed_reaches_end.
Qed.

Lemma rested_new_session (consumer : option nat) : rested (new_session consumer).
Proof.
  unfold new_session, rested.
  destruct (heap_projections_consumer
              (mkSession [[]] (mkCtx O new_TextDecoder) (created fieldStart) O
                         false None [] consumer)) as (_ & _ & -> & _).
  simpl. auto.
Qed.

(** X4.  The inner loop of [getMessages] on a chunk, in both builds: the
    position never leaves the chunk, and after at most [7 * length + 7]
    iterations it is the length of the chunk, where the loop stops. *)
Theorem inner_loop_consumes_chunk
    (b : Build) (consumer : option nat) (pre : list chunk) (c : chunk) :
  let s := set_pos (read_loop b pre (new_session consumer)) O in
  (forall j, currentPos (feed j b c s) <= length c)%nat /\
  currentPos (feed (chunk_fuel c) b c s) = length c /\
  forall k, feed (chunk_fuel c + k) b c s = feed (chunk_fuel c) b c s.
Proof.
  intros s.
  destruct (within_start c (read_loop b pre (new_session consumer))
              (rested_read_loop b pre _ (rested_new_session consumer))) as [W F].
  fold s in W, F.
  assert (E : currentPos (feed (chunk_fuel c) b c s) = length c)
    by now apply feed_reaches_end.
  split; [|split].
  - intros j. now apply (feed_within b c j s).
  - exact E.
  - intros k. rewrite feed_plus. apply feed_done. lia.
Qed.

(** ** How a session ends *)

Lemma read_loop_plan (b : Build) (source : list chunk) :
  forall s, close_after (read_loop b source s) = close_after s.
Proof.
  induction source as [|c source IH]; intros s; simpl;
    destruct (clientClosed s); auto.
  rewrite IH. destruct (0 <? length c)%nat; auto.
  now destruct (feed_keeps b c (chunk_fuel c) (set_pos s 0%nat)) as (-> & _).
Qed.

Lemma read_loop_open (b : Build) (source : list chunk) :
  forall s, close_after s = None -> clientClosed s = false ->
  clientClosed (read_loop b source s) = false.
Proof.
  induction source as [|c source IH]; intros s A C; simpl; rewrite C; auto.
  destruct (0 <? length c)%nat; auto.
  destruct (feed_keeps b c (chunk_fuel c) (set_pos s 0%nat)) as (K1 & _ & K3).
  apply IH; [now rewrite K1|now rewrite K3].
Qed.

Lemma obeys_read_loop (n : nat) (b : Build) (source : list chunk) :
  forall s, obeys n s -> obeys n (read_loop b source s).
Proof.
  induction source as [|c source IH]; intros s H; simpl;
    destruct (clientClosed s); auto.
  apply IH. destruct (0 <? length c)%nat; auto using obeys_feed.
Qed.

(** A consumer that closes after [n] messages receives the first messages
    of the stream, at least [n] of them when the stream has that many. *)
Lemma closing_consumer_prefix (n : nat) (b : Build) (source : list chunk) :
  forall s1 s2,
    core s1 = core s2 -> obeys n s1 ->
    close_after s2 = None -> clientClosed s2 = false ->
    exists later,
      received (read_loop b source s2) = received (read_loop b source s1) ++ later /\
      (Nat.min n (length (received (read_loop b source s2)))
       <= length (received (read_loop b source s1)))%nat.
Proof.
  induction source as [|c source IH]; intros s1 s2 H Ob A C.
  - rewrite !read_loop_nil. exists []. rewrite app_nil_r, (core_received _ _ H).
    split; [reflexivity|lia].
  - destruct (clientClosed s1) eqn:C1.
    + rewrite (read_loop_closed b _ s1 C1).
      destruct (read_loop_adds b (c :: source) s2) as (o & E & _).
      exists o. rewrite E, (core_received _ _ H). split; [reflexivity|].
      destruct Ob as (_ & _ & Cl). rewrite C1 in Cl. symmetry in Cl.
      apply Nat.leb_le in Cl. rewrite <- (core_received _ _ H). lia.
    + rewrite (read_loop_cons b c source s1 C1), (read_loop_cons b c source s2 C).
      destruct (after_chunk_facts n b c s1 s2 H Ob A C) as (H' & Ob' & A' & C').
      now apply IH.
Qed.

(** X5.  How a session ends.  A consumer that never closes always ends with
    SERVER_CLOSED.  A consumer that closes on its [n]-th message receives
    the first messages of the stream, at least [n] of them if the stream
    holds as many, and ends with CLIENT_CLOSED exactly in that case. *)
Theorem finish_reason (b : Build) (source : list chunk) :
  finishedWith (getMessagesOf b None source) = Some SERVER_CLOSED /\
  forall n : nat,
    let all := messages (getMessagesOf b None source) in
    let got := messages (getMessagesOf b (Some n) source) in
    (exists later, all = got ++ later) /\
    (Nat.min n (length all) <= length got)%nat /\
    finishedWith (getMessagesOf b (Some n) source)
    = Some (if (n <=? length all)%nat then CLIENT_CLOSED else SERVER_CLOSED).
Proof.
  split.
  - unfold getMessagesOf. cbn [finish finishedWith].
    now rewrite read_loop_open.
  - intros n all got. subst all got.
    unfold getMessagesOf, messages. cbn [finish received finishedWith].
    destruct (new_session_facts n) as (H0 & Ob0).
    destruct (closing_consumer_prefix n b source _ _ H0 Ob0 eq_refl eq_refl)
      as (later & E & L).
    pose proof (obeys_read_loop n b source _ Ob0) as (_ & _ & Cl).
    rewrite !length_map. split; [|split].
    + exists (map snd later). now rewrite E, map_app.
    + exact L.
    + rewrite Cl. f_equal.
      rewrite E, length_app in *.
      destruct (n <=? length (received (read_loop b source (new_session (Some n)))))%nat eqn:L1;
      destruct (n <=? length (received (read_loop b source (new_session (Some n)))) + length later)%nat eqn:L2;
        try reflexivity.
      * apply Nat.leb_le in L1. apply Nat.leb_gt in L2. lia.
      * apply Nat.leb_gt in L1. apply Nat.leb_le in L2. lia.
Qed.

(** ** Blank lines *)

Lemma blank_line_resets (m : Message) (md : Mode) :
  (exists o, bytes_run m md [LF; LF] = ([], AtStart, o)) /\
  (exists o, bytes_run m md [CR; LF; CR; LF] = ([], AtStart, o)).
Proof.
  split; destruct md; cbn; eexists; reflexivity.
Qed.

Lemma parse_after_reset (pre : list chunk) (bytes sep rest : list Z) (post : list chunk) :
  (forall m md, exists o, bytes_run m md sep = ([], AtStart, o)) ->
  parse (pre ++ (bytes ++ sep ++ rest) :: post)
  = parse (pre ++ [bytes ++ sep]) ++ parse (rest :: post).
Proof.
  intros R. rewrite !parse_chunks, !chunks_run_app.
  destruct (chunks_run [] AtStart pre) as [[m1 md1] o1].
  cbn [chunks_run resume_mode]. rewrite !bytes_run_app.
  destruct (bytes_run m1 (resume_mode md1) bytes) as [[m2 md2] o2].
  rewrite bytes_run_app.
  destruct (R m2 md2) as (o3 & ->).
  destruct (bytes_run [] AtStart rest) as [[m4 md4] o4].
  destruct (chunks_run m4 md4 post) as [[m5 md5] o5].
  cbn [snd]. now rewrite !app_nil_r, <- !app_assoc.
Qed.

(** X6.  After a blank line, written as LF LF or as CRLF CRLF, the parser
    is in its initial state whatever came before: the rest of the stream
    is parsed as a stream of its own. *)
Theorem blank_line_separates
    (pre : list chunk) (bytes rest : list Z) (post : list chunk) :
  parse (pre ++ (bytes ++ [LF; LF] ++ rest) :: post)
  = parse (pre ++ [bytes ++ [LF; LF]]) ++ parse (rest :: post) /\
  parse (pre ++ (bytes ++ [CR; LF; CR; LF] ++ rest) :: post)
  = parse (pre ++ [bytes ++ [CR; LF; CR; LF]]) ++ parse (rest :: post).
Proof.
  split; apply parse_after_reset; intros m md; apply blank_line_resets.
Qed.

(** X7.  A record is handed over when the first byte of its blank line is
    read: the parser does not wait for the LF of a CRLF, nor for the line
    that follows. *)
Theorem handed_over_at_first_byte_of_blank_line (e : Eol) (ls : list Line) :
  Forall well_formed ls ->
  parse [render e ls ++ [eol_first e]] = parse [record_bytes e ls].
Proof.
  intros W. rewrite (record_messages e ls W), parse_one_chunk.
  unfold stream_messages.
  rewrite (render_run e ls W [] AtStart _ (or_introl eq_refl)).
  destruct (lines_run [] ls) as [m o]. cbn [fst snd].
  assert (E : snd (bytes_run m (match ls with [] => AtStart | _ :: _ => mode_after e end)
                     [eol_first e]) = emit m).
  { destruct ls, e; cbn; now rewrite app_nil_r. }
  destruct (bytes_run m _ [eol_first e]) as [[m2 md2] o2]. cbn [snd] in *.
  now rewrite E.
Qed.

Lemma handed_over_at_first_byte_of_blank_line_witness :
  parse [render eol_CRLF record_1 ++ [eol_first eol_CRLF]]
  = parse [record_bytes eol_CRLF record_1].
Proof.
  apply (handed_over_at_first_byte_of_blank_line eol_CRLF record_1).
  unfold record_1. well_formed_lines.
Defined.

(** ** Comment lines *)

(** X8.  [skipComment] stops on the line end of the comment and
    [fieldStart] reads it again: after the lines of a record, a comment
    line does what a blank line does. *)
Theorem comment_line_reads_as_blank_line
    (e : Eol) (ls : list Line) (body rest : list Z) :
  Forall well_formed ls ->
  well_formed (Comment body) ->
  parse [render e ls ++ line_bytes (Comment body) ++ eol_bytes e ++ rest]
  = parse [render e ls ++ eol_bytes e ++ rest].
Proof.
  intros W Wc. rewrite !parse_one_chunk. unfold stream_messages.
  rewrite !(render_run e ls W [] AtStart _ (or_introl eq_refl)).
  destruct (lines_run [] ls) as [m o].
  set (md0 := match ls with [] => AtStart | _ :: _ => mode_after e end).
  assert (S0 : md0 = AtStart \/ md0 = AfterCR).
  { subst md0. destruct ls; auto using mode_after_start. }
  assert (S1 : md0 = AtStart \/ md0 = mode_after e).
  { subst md0. destruct ls; auto. }
  rewrite (line_eol_run m md0 (Comment body) e rest Wc S0).
  rewrite bytes_run_app, (blank_run e m md0 S1).
  cbn [line_effect line_out].
  destruct (bytes_run [] (mode_after e) rest) as [[m2 md2] o2]. reflexivity.
Qed.

Lemma comments_run (bodies : list (list Z)) :
  lines_run [] (map Comment bodies) = ([], []).
Proof.
  induction bodies as [|b bodies IH]; cbn [map lines_run line_effect line_out emit];
    [reflexivity|]. now rewrite IH.
Qed.

(** X9.  Comment lines that come before the first field of a record leave
    no trace. *)
Theorem comments_before_fields_ignored
    (e : Eol) (bodies : list (list Z)) (ls : list Line) :
  Forall well_formed (map Comment bodies) ->
  Forall well_formed ls ->
  parse [record_bytes e (map Comment bodies ++ ls)] = parse [record_bytes e ls].
Proof.
  intros Wc W.
  rewrite !record_messages; auto; [|apply Forall_app; auto].
  rewrite lines_run_app, comments_run.
  destruct (lines_run [] ls) as [m o]. reflexivity.
Qed.

Lemma comment_line_reads_as_blank_line_witness :
  parse [render eol_CRLF record_1 ++ line_bytes (Comment (codes " note"))
           ++ eol_bytes eol_CRLF ++ codes "id:9" ++ [CR; LF; CR; LF]]
  = parse [render eol_CRLF record_1 ++ eol_bytes eol_CRLF
             ++ codes "id:9" ++ [CR; LF; CR; LF]].
Proof.
  apply (comment_line_reads_as_blank_line eol_CRLF record_1 (codes " note")
           (codes "id:9" ++ [CR; LF; CR; LF])).
  - unfold record_1. well_formed_lines.
  - well_formed_lines.
Defined.

Lemma comments_before_fields_ignored_witness :
  parse [record_bytes eol_LF (map Comment [codes " a"; []] ++ record_1)]
  = parse [record_bytes eol_LF record_1].
Proof.
  apply (comments_before_fields_ignored eol_LF [codes " a"; []] record_1).
  - well_formed_lines.
  - unfold record_1. well_formed_lines.
Defined.

(** ** A field without a colon *)

(** X10.  A line that holds a name and no colon stores the empty string
    under that name, whatever the name held before ([data] included), and
    leaves the other fields alone. *)
Theorem field_without_colon_stores_empty
    (e : Eol) (ls : list Line) (name : list Z) :
  Forall well_formed ls ->
  well_formed (Field name None) ->
  decode_all name <> PROTO ->
  let before := pending [render e ls] in
  let after := pending [render e (ls ++ [Field name None])] in
  own_get after (decode_all name) = Some [] /\
  forall k, k <> decode_all name -> own_get after k = own_get before k.
Proof.
  intros W Wl P before after.
  assert (W' : Forall well_formed (ls ++ [Field name None])).
  { apply Forall_app. split; auto. }
  unfold before, after. rewrite !pending_lines by assumption.
  rewrite lines_run_app. destruct (lines_run [] ls) as [m o].
  cbn [lines_run line_effect fst]. unfold obj_set.
  rewrite (text_eqb_neq _ _ P). split.
  - apply own_get_put_same.
  - intros k Hk. now apply own_get_put_other.
Qed.

Lemma field_without_colon_stores_empty_witness :
  let before := pending [render eol_LF record_1] in
  let after := pending [render eol_LF (record_1 ++ [Field (codes "data") None])] in
  own_get after (decode_all (codes "data")) = Some [] /\
  forall k, k <> decode_all (codes "data") -> own_get after k = own_get before k.
Proof.
  apply (field_without_colon_stores_empty eol_LF record_1 (codes "data")).
  - unfold record_1. well_formed_lines.
  - well_formed_lines.
  - vm_compute. congruence.
Defined.

(** ** A record left open *)

Lemma byte_step_quiet (m : Message) (md : Mode) (b : Z) :
  lineEndChar b = false -> snd (byte_step m md b) = [].
Proof.
  intros L.
  assert (N : snd (name_byte m new_TextDecoder [] b) = [] /\
              forall d buffer, snd (name_byte m d buffer b) = []).
  { unfold name_byte. rewrite L. split; [|intros d buffer];
      destruct (notNameChar b); try reflexivity;
      now destruct (decode_stream _ [b]). }
  assert (St : snd (start_byte m b) = []).
  { unfold start_byte. rewrite L. destruct (b =? COLON); [reflexivity|apply N]. }
  destruct md as [| | |d buffer|name first d buffer]; cbn [byte_step]; auto.
  - destruct (b =? LF); auto.
  - now rewrite L.
  - apply N.
  - rewrite L. destruct (first && (b =? SPACE)); [reflexivity|].
    now destruct (decode_stream d [b]).
Qed.

Lemma bytes_run_quiet (bs : list Z) :
  forall m md, (forall x, In x bs -> lineEndChar x = false) ->
  snd (bytes_run m md bs) = [].
Proof.
  induction bs as [|b bs IH]; intros m md H; [reflexivity|].
  cbn [bytes_run].
  pose proof (byte_step_quiet m md b (H b (or_introl eq_refl))) as Q.
  destruct (byte_step m md b) as [[m1 md1] o1].
  specialize (IH m1 md1 (fun x Hx => H x (or_intror Hx))).
  destruct (bytes_run m1 md1 bs) as [[m2 md2] o2].
  simpl in *. now rewrite Q, IH.
Qed.

Lemma fields_run_quiet (ls : list Line) :
  Forall (fun l => is_field l = true) ls ->
  forall m, snd (lines_run m ls) = [].
Proof.
  induction 1 as [|l ls F _ IH]; intros m; [reflexivity|].
  cbn [lines_run]. specialize (IH (line_effect m l)).
  destruct (lines_run (line_effect m l) ls) as [m' o]. simpl in *.
  destruct l; [discriminate F|]. now rewrite IH.
Qed.

(** X11.  Field lines that no blank line follows are not handed over, not
    even when the stream ends there or in the middle of a further line;
    the session ends with SERVER_CLOSED. *)
Theorem open_record_not_handed_over (e : Eol) (ls : list Line) (tail : list Z) :
  Forall well_formed ls ->
  Forall (fun l => is_field l = true) ls ->
  (forall x, In x tail -> lineEndChar x = false) ->
  parse [render e ls ++ tail] = [] /\
  finishedWith (getMessages None [render e ls ++ tail]) = Some SERVER_CLOSED.
Proof.
  intros W F T. split.
  - rewrite parse_one_chunk. unfold stream_messages.
    rewrite (render_run e ls W [] AtStart tail (or_introl eq_refl)).
    pose proof (fields_run_quiet ls F []) as Q.
    destruct (lines_run [] ls) as [m o]. simpl in Q. subst o.
    pose proof (bytes_run_quiet tail m
                  (match ls with [] => AtStart | _ :: _ => mode_after e end) T) as Q.
    destruct (bytes_run m _ tail) as [[m2 md2] o2]. exact Q.
  - unfold getMessages, getMessagesOf. cbn [finish finishedWith].
    now rewrite read_loop_open.
Qed.

Lemma open_record_not_handed_over_witness :
  parse [render eol_CR record_1 ++ codes "da"] = [] /\
  finishedWith (getMessages None [render eol_CR record_1 ++ codes "da"])
  = Some SERVER_CLOSED.
Proof.
  apply (open_record_not_handed_over eol_CR record_1 (codes "da")).
  - unfold record_1. well_formed_lines.
  - unfold record_1. repeat constructor.
  - intros x Hx. unfold codes in Hx. simpl in Hx. in_cases; reflexivity.
Defined.

(** ** Chunk boundaries that do no harm *)

Lemma chunks_run_joins (source : list chunk) :
  forall m md md0,
    joins m md source ->
    md0 = md \/ md0 = resume_mode md ->
    snd (chunks_run m md0 source) = snd (bytes_run m md (concat source)).
Proof.
  induction source as [|c source IH]; intros m md md0 J Hd; [reflexivity|].
  cbn [chunks_run concat joins] in *. destruct J as [J1 J2].
  assert (R : resume_mode md0 = resume_mode md).
  { destruct Hd as [-> | ->]; auto using resume_mode_idem. }
  rewrite R. destruct c as [|b c'].
  - cbn [bytes_run app] in *.
    rewrite <- (IH m md (resume_mode md) J2 (or_intror eq_refl)).
    destruct (chunks_run m (resume_mode md) source) as [[? ?] ?]. reflexivity.
  - assert (E : bytes_run m (resume_mode md) (b :: c') = bytes_run m md (b :: c')).
    { cbn [bytes_run]. rewrite (byte_step_resume m md b); [reflexivity|].
      destruct (rearmed md); [|reflexivity]. cbn [andb].
      apply Z.eqb_neq. intros ->. now apply (J1 eq_refl). }
    rewrite E, bytes_run_app.
    destruct (bytes_run m md (b :: c')) as [[m1 md1] o1].
    specialize (IH m1 md1 md1 J2 (or_introl eq_refl)).
    destruct (chunks_run m1 md1 source) as [[m2 md2] o2].
    destruct (bytes_run m1 md1 (concat source)) as [[m3 md3] o3].
    simpl in *. now rewrite IH.
Qed.

Lemma joins_no_space (source : list chunk) :
  Forall (fun c => hd_error c <> Some SPACE) source ->
  forall m md, joins m md source.
Proof.
  induction 1 as [|c source H _ IH]; intros m md; cbn [joins]; auto.
  split; auto. destruct (bytes_run m md c) as [[m1 md1] o1]. apply IH.
Qed.

(** X12.  When no chunk after the first begins with a space, the messages
    are those of the stream in one piece, wherever else the stream is cut:
    inside names, values, multi-byte characters or line ends. *)
Theorem chunks_not_starting_with_space (c0 : chunk) (rest : list chunk) :
  Forall (fun c => hd_error c <> Some SPACE) rest ->
  parse (c0 :: rest) = parse [c0 ++ concat rest].
Proof.
  intros H. rewrite parse_one_chunk, parse_chunks. unfold stream_messages.
  apply (chunks_run_joins (c0 :: rest) [] AtStart AtStart); [|now left].
  cbn [joins]. split; [discriminate|].
  destruct (bytes_run [] AtStart c0) as [[m1 md1] o1]. now apply joins_no_space.
Qed.

Lemma chunks_not_starting_with_space_witness :
  parse (codes "da" :: [codes "ta: "; [0xE2]; [0x82; 0xAC; CR]; [LF; CR]; []; [LF]])
  = parse [codes "da" ++ concat [codes "ta: "; [0xE2]; [0x82; 0xAC; CR]; [LF; CR]; []; [LF]]].
Proof.
  apply (chunks_not_starting_with_space (codes "da")
           [codes "ta: "; [0xE2]; [0x82; 0xAC; CR]; [LF; CR]; []; [LF]]).
  repeat apply Forall_cons; try apply Forall_nil; discriminate.
Defined.

Lemma byte_step_line_end (m : Message) (md : Mode) (x : Z) :
  lineEndChar x = true -> rearmed (snd (fst (byte_step m md x))) = false.
Proof.
  intros L.
  assert (C : (x =? COLON) = false).
  { destruct (lineEndChar_cases _ L) as [-> | ->]; reflexivity. }
  assert (N : notNameChar x = true).
  { destruct (lineEndChar_cases _ L) as [-> | ->]; reflexivity. }
  assert (A : rearmed (after_line_end x) = false).
  { unfold after_line_end. now destruct (x =? LF). }
  assert (St : rearmed (snd (fst (start_byte m x))) = false).
  { unfold start_byte. now rewrite C, L. }
  destruct md as [| | |d buffer|name first d buffer]; cbn [byte_step]; auto.
  - destruct (x =? LF); auto.
  - now rewrite L.
  - unfold name_byte. now rewrite N, L.
  - now rewrite L.
Qed.

Lemma joins_line_ends (source : list chunk) (last : chunk) :
  Forall ends_line source ->
  forall m md, rearmed md = false -> joins m md (source ++ [last]).
Proof.
  induction 1 as [|c source H _ IH]; intros m md R; cbn [app joins].
  - split; [rewrite R; discriminate|]. now destruct (bytes_run m md last) as [[? ?] ?].
  - split; [rewrite R; discriminate|].
    destruct H as [-> | (bs & x & -> & L)].
    + cbn [bytes_run]. now apply IH.
    + rewrite bytes_run_app. destruct (bytes_run m md bs) as [[m1 md1] o1].
      cbn [bytes_run]. pose proof (byte_step_line_end m1 md1 x L) as K.
      destruct (byte_step m1 md1 x) as [[m2 md2] o2]. now apply IH.
Qed.

(** X13.  A stream cut after line ends only (a server that sends whole
    lines) yields the messages of the stream in one piece. *)
Theorem chunks_cut_at_line_ends (source : list chunk) (last : chunk) :
  Forall ends_line source ->
  parse (source ++ [last]) = parse [concat source ++ last].
Proof.
  intros H. rewrite parse_one_chunk, parse_chunks. unfold stream_messages.
  rewrite (chunks_run_joins (source ++ [last]) [] AtStart AtStart);
    [|now apply joins_line_ends|now left].
  rewrite concat_app. cbn [concat]. now rewrite app_nil_r.
Qed.

Lemma chunks_cut_at_line_ends_witness :
  parse ([codes "data: a" ++ [LF]; codes " b: c" ++ [CR]; [LF; LF]] ++ [codes "id:1"])
  = parse [concat [codes "data: a" ++ [LF]; codes " b: c" ++ [CR]; [LF; LF]] ++ codes "id:1"].
Proof.
  apply (chunks_cut_at_line_ends
           [codes "data: a" ++ [LF]; codes " b: c" ++ [CR]; [LF; LF]] (codes "id:1")).
  apply Forall_cons; [|apply Forall_cons; [|apply Forall_cons; [|apply Forall_nil]]];
    right.
  - exists (codes "data: a"), LF. split; reflexivity.
  - exists (codes " b: c"), CR. split; reflexivity.
  - exists [LF], LF. split; reflexivity.
Defined.

Lemma record_run (e : Eol) (ls : list Line) (md0 : Mode) :
  Forall well_formed ls ->
  md0 = AtStart \/ md0 = mode_after e ->
  bytes_run [] md0 (record_bytes e ls)
  = ([], mode_after e, snd (lines_run [] ls) ++ emit (fst (lines_run [] ls))).
Proof.
  intros W S. unfold record_bytes.
  assert (S' : md0 = AtStart \/ md0 = AfterCR).
  { destruct S as [->| ->]; auto using mode_after_start. }
  rewrite (render_run e ls W [] md0 (eol_bytes e) S').
  destruct (lines_run [] ls) as [m o].
  rewrite blank_run by (destruct ls; auto). reflexivity.
Qed.

Lemma records_run (e : Eol) (records : list (list Line)) :
  Forall (Forall well_formed) records ->
  forall md0, md0 = AtStart \/ md0 = mode_after e ->
  snd (chunks_run [] md0 (map (record_bytes e) records))
  = concat (map (fun ls => parse [record_bytes e ls]) records).
Proof.
  induction 1 as [|ls records W _ IH]; intros md0 S; [reflexivity|].
  cbn [map chunks_run concat].
  replace (resume_mode md0) with md0
    by (destruct S as [->| ->]; destruct e; reflexivity).
  rewrite (record_run e ls md0 W S), (record_messages e ls W).
  specialize (IH (mode_after e) (or_intror eq_refl)).
  destruct (chunks_run [] (mode_after e) (map (record_bytes e) records))
    as [[m2 md2] o2].
  cbn [snd] in *. now rewrite IH.
Qed.

Lemma records_join (e : Eol) (records : list (list Line)) :
  Forall (Forall well_formed) records ->
  forall md0, md0 = AtStart \/ md0 = mode_after e ->
  joins [] md0 (map (record_bytes e) records).
Proof.
  induction 1 as [|ls records W _ IH]; intros md0 S; cbn [map joins]; auto.
  split.
  - destruct S as [->| ->]; destruct e; discriminate.
  - rewrite (record_run e ls md0 W S). apply IH. now right.
Qed.

(** X14.  Records sent one per chunk, or all in one chunk: the messages are
    those of the first record, then those of the second, and so on; no
    record has an effect on the next. *)
Theorem records_parse_one_by_one (e : Eol) (records : list (list Line)) :
  Forall (Forall well_formed) records ->
  parse (map (record_bytes e) records)
  = concat (map (fun ls => parse [record_bytes e ls]) records) /\
  parse [concat (map (record_bytes e) records)]
  = concat (map (fun ls => parse [record_bytes e ls]) records).
Proof.
  intros W.
  assert (A : parse (map (record_bytes e) records)
              = concat (map (fun ls => parse [record_bytes e ls]) records)).
  { rewrite parse_chunks. now apply records_run; [|left]. }
  split; [exact A|]. rewrite <- A.
  rewrite parse_one_chunk, parse_chunks. unfold stream_messages. symmetry.
  apply chunks_run_joins; [|now left].
  apply records_join; auto.
Qed.

Lemma records_parse_one_by_one_witness :
  parse (map (record_bytes eol_CR) [record_1; []; record_3; record_2])
  = concat (map (fun ls => parse [record_bytes eol_CR ls]) [record_1; []; record_3; record_2]) /\
  parse [concat (map (record_bytes eol_CR) [record_1; []; record_3; record_2])]
  = concat (map (fun ls => parse [record_bytes eol_CR ls]) [record_1; []; record_3; record_2]).
Proof.
  apply (records_parse_one_by_one eol_CR [record_1; []; record_3; record_2]).
  repeat apply Forall_cons; try apply Forall_nil;
    unfold record_1, record_2, record_3; well_formed_lines.
Defined.

(** ** Plain ASCII *)

Lemma utf8_run_ascii (bs : list Z) : is_ascii bs -> utf8_run utf8_new bs = (utf8_new, bs).
Proof.
  induction bs as [|b bs IH]; intros A; [reflexivity|].
  cbn [utf8_run]. unfold utf8_byte. cbn [bytes_needed utf8_new Z.eqb].
  unfold utf8_lead. assert (0 <= b < 128) as Hb by (apply A; now left).
  replace (in_range 0 127 b) with true
    by (symmetry; unfold in_range; apply andb_true_iff; split; apply Z.leb_le; lia).
  fold utf8_new. rewrite IH; [reflexivity|].
  intros x Hx. apply A. now right.
Qed.

Lemma decode_all_ascii (bs : list Z) : is_ascii bs -> decode_all bs = bs.
Proof.
  intros A. unfold decode_all, decode_stream, new_TextDecoder.
  cbn [handler bom_seen]. rewrite (utf8_run_ascii bs A).
  destruct bs as [|b bs]; [reflexivity|].
  cbn [serialize]. assert (0 <= b < 128) as Hb by (apply A; now left).
  replace (b =? BOM) with false by (symmetry; apply Z.eqb_neq; unfold BOM; lia).
  unfold decode_flush. cbn. now rewrite app_nil_r.
Qed.

(** X15.  A record of one line [name:value] written in ASCII comes out as
    it went in: the name as key, and as value the bytes after the colon
    less one leading space (followed by a newline under [data]). *)
Theorem ascii_field_verbatim (e : Eol) (name value : list Z) :
  is_ascii name -> is_ascii value ->
  well_formed (Field name (Some value)) ->
  name <> PROTO ->
  parse [record_bytes e [Field name (Some value)]]
  = [[(name, if text_eqb name DATA then strip_space value ++ [LF]
             else strip_space value)]].
Proof.
  intros An Av W P.
  rewrite record_messages by (constructor; auto).
  cbn [lines_run line_effect line_out fst snd app].
  assert (As : is_ascii (strip_space value)).
  { unfold strip_space. destruct value as [|b r]; [exact Av|].
    destruct (b =? SPACE); [|exact Av]. intros x Hx. apply Av. now right. }
  rewrite (decode_all_ascii name An), (decode_all_ascii _ As).
  unfold assign, obj_set. rewrite (text_eqb_neq _ _ P). reflexivity.
Qed.

Lemma ascii_field_verbatim_witness :
  parse [record_bytes eol_CRLF [Field (codes "data") (Some (codes " {x: 1}"))]]
  = [[(codes "data", if text_eqb (codes "data") DATA
                     then strip_space (codes " {x: 1}") ++ [LF]
                     else strip_space (codes " {x: 1}"))]].
Proof.
  apply (ascii_field_verbatim eol_CRLF (codes "data") (codes " {x: 1}")).
  - intros x Hx. unfold codes in Hx. simpl in Hx. in_cases; lia.
  - intros x Hx. unfold codes in Hx. simpl in Hx. in_cases; lia.
  - well_formed_lines.
  - vm_compute. congruence.
Defined.

(** ** A byte order mark *)

(** X16.  A byte order mark in front of a field name is dropped, at the
    start of the stream as at the start of any later line: each name is
    decoded by a decoder of its own. *)
Theorem leading_bom_dropped
    (e : Eol) (ls : list Line) (b : Z) (rest : list Z) (source : list chunk) :
  Forall well_formed ls ->
  0 <= b < 128 -> notNameChar b = false ->
  parse ((render e ls ++ [0xEF; 0xBB; 0xBF] ++ b :: rest) :: source)
  = parse ((render e ls ++ b :: rest) :: source).
Proof.
  intros W Hb Nb. rewrite !parse_chunks. cbn [chunks_run resume_mode].
  rewrite !(render_run e ls W [] AtStart _ (or_introl eq_refl)).
  destruct (lines_run [] ls) as [m o].
  set (md0 := match ls with [] => AtStart | _ :: _ => mode_after e end).
  assert (S0 : md0 = AtStart \/ md0 = AfterCR).
  { subst md0. destruct ls; auto using mode_after_start. }
  assert (E : bytes_run m md0 ([0xEF; 0xBB; 0xBF] ++ b :: rest)
              = bytes_run m md0 (b :: rest)).
  { assert (Bc : (b =? COLON) = false).
    { unfold notNameChar in Nb. apply orb_false_iff in Nb as [Nb _].
      now apply orb_false_iff in Nb as [Nb _]. }
    assert (Bl : (b =? LF) = false).
    { unfold notNameChar in Nb. now apply orb_false_iff in Nb as [_ Nb]. }
    assert (Br : in_range 0 127 b = true).
    { unfold in_range. apply andb_true_iff; split; apply Z.leb_le; lia. }
    assert (Bb : (b =? BOM) = false) by (apply Z.eqb_neq; unfold BOM; lia).
    assert (L : bytes_run m md0 [0xEF; 0xBB; 0xBF]
                = (m, InName (mkDecoder utf8_new true) [], [])).
    { destruct S0 as [-> | ->]; reflexivity. }
    rewrite bytes_run_app, L.
    assert (R : byte_step m md0 b = (m, InName (mkDecoder utf8_new true) [b], [])).
    { assert (St : start_byte m b = (m, InName (mkDecoder utf8_new true) [b], [])).
      { unfold start_byte. rewrite Bc, (notNameChar_lineEnd _ Nb).
        unfold name_byte. rewrite Nb. unfold decode_stream, new_TextDecoder.
        cbn [handler bom_seen utf8_run]. unfold utf8_byte.
        cbn [bytes_needed utf8_new Z.eqb]. unfold utf8_lead. rewrite Br.
        cbn [app serialize]. now rewrite Bb. }
      destruct S0 as [-> | ->]; cbn [byte_step]; [exact St|]. now rewrite Bl. }
    cbn [bytes_run]. rewrite R. cbn [byte_step]. unfold name_byte. rewrite Nb.
    unfold decode_stream. cbn [handler bom_seen utf8_run]. unfold utf8_byte.
    cbn [bytes_needed utf8_new Z.eqb]. unfold utf8_lead. rewrite Br.
    cbn [app serialize].
    destruct (bytes_run m (InName _ [b]) rest) as [[? ?] ?]. reflexivity. }
  now rewrite E.
Qed.

Lemma leading_bom_dropped_witness :
  parse ((render eol_LF record_1 ++ [0xEF; 0xBB; 0xBF] ++ 100 :: codes "ata:x" ++ [LF; LF]) :: [])
  = parse ((render eol_LF record_1 ++ 100 :: codes "ata:x" ++ [LF; LF]) :: []).
Proof.
  apply (leading_bom_dropped eol_LF record_1 100 (codes "ata:x" ++ [LF; LF]) []).
  - unfold record_1. well_formed_lines.
  - lia.
  - reflexivity.
Defined.

(** ** The byte source *)

Lemma read_results_values (b : Build) (pre : list (option chunk))
    (rest : list ReadResult) :
  forall s,
    read_results b (map (fulfilled false) pre ++ rest) s =
    (if clientClosed (read_loop b (values pre) s)
     then leave (read_loop b (values pre) s)
     else read_results b rest (read_loop b (values pre) s)).
Proof.
  induction pre as [|v pre IH]; intros s.
  - cbn [map app values flat_map]. rewrite read_loop_nil.
    destruct (clientClosed s) eqn:C; [|reflexivity].
    destruct rest; simpl; now rewrite C.
  - cbn [map app read_results].
    destruct (clientClosed s) eqn:C.
    + rewrite (read_loop_closed b _ s C), C. reflexivity.
    + rewrite IH. destruct v as [c|]; cbn [values flat_map app].
      * fold (values pre). now rewrite (read_loop_cons b c _ s C).
      * reflexivity.
Qed.

(** X17.  Reading ends with the first result that says [done]: a chunk that
    comes with it is still parsed, results after it are not asked for, and
    results without a value change nothing.  The session is the one of the
    chunks read, and it stays as it is: [close()] and a further call of
    [getMessages] report the same result without touching the reader. *)
Theorem reading_ends_when_done
    (b : Build) (consumer : option nat) (pre : list (option chunk))
    (last : option chunk) (unread again : list ReadResult) :
  let reads := map (fulfilled false) pre ++ fulfilled true last :: unread in
  let s := getMessagesOf b consumer (values (pre ++ [last])) in
  exists result,
    finishedWith s = Some result /\
    (result = SERVER_CLOSED \/ result = CLIENT_CLOSED) /\
    getMessagesFrom b consumer reads = (s, returns result) /\
    close s = s /\ close_result s = result /\
    getMessages_again b again s = (s, returns result).
Proof.
  intros reads s. subst reads s. unfold getMessagesFrom, getMessagesOf, values.
  rewrite read_results_values, flat_map_app, read_loop_app. fold (values pre).
  set (s1 := read_loop b (values pre) (new_session consumer)).
  exists (if clientClosed (read_loop b (flat_map (fun v => match v with Some c => [c] | None => [] end) [last]) s1)
          then CLIENT_CLOSED else SERVER_CLOSED).
  split; [reflexivity|]. split; [destruct (clientClosed _); auto|].
  split; [|repeat split].
  destruct (clientClosed s1) eqn:C.
  - rewrite (read_loop_closed b _ s1 C). unfold leave. now rewrite C.
  - cbn [read_results]. rewrite C. destruct last as [c|]; cbn [flat_map app].
    + rewrite (read_loop_cons b c [] s1 C), read_loop_nil. reflexivity.
    + rewrite read_loop_nil. unfold leave. reflexivity.
Qed.

(** X18.  When [reader.read()] throws, the messages of the chunks read
    before have been handed over, the error is thrown on to the consumer
    and the parser is finished with THROWN for good: [close()] reports
    THROWN without setting its flag, and a further call of [getMessages]
    returns THROWN without reading.  A consumer that had closed by then
    never sees the error. *)
Theorem reader_failure
    (b : Build) (consumer : option nat) (pre : list (option chunk))
    (error : nat) (unread again : list ReadResult) :
  let reads := map (fulfilled false) pre ++ rejected error :: unread in
  let before := getMessagesOf b consumer (values pre) in
  let s := fst (getMessagesFrom b consumer reads) in
  messages s = messages before /\
  if clientClosed before then
    getMessagesFrom b consumer reads = (before, returns CLIENT_CLOSED)
  else
    snd (getMessagesFrom b consumer reads) = throws error /\
    finishedWith s = Some THROWN /\
    close s = s /\ close_result s = THROWN /\
    getMessages_again b again s = (s, returns THROWN).
Proof.
  intros reads before s. subst reads before s.
  unfold getMessagesFrom, getMessagesOf. rewrite read_results_values.
  cbn [finish clientClosed].
  destruct (clientClosed (read_loop b (values pre) (new_session consumer))) eqn:C.
  - unfold leave. rewrite C. split; reflexivity.
  - cbn [read_results]. rewrite C. cbn [fst snd]. repeat split.
Qed.

Lemma simulates_enter (s : Session) : simulates (enter s) [] AtStart.
Proof.
  unfold enter, heap_alloc, simulates. cbn.
  repeat split; try constructor.
  - unfold heap_get. rewrite app_nth2 by lia. now rewrite Nat.sub_diag.
  - rewrite length_app. simpl. lia.
Qed.

(** X19.  Iterating again over a parser that has not finished (the earlier
    loop was left early) starts from a new context: the fields of a record
    left open and the line being read are dropped, and the messages are
    those of the chunks read from then on. *)
Theorem iterating_again_starts_afresh
    (s : Session) (pre : list (option chunk)) (last : option chunk)
    (unread : list ReadResult) :
  finishedWith s = None -> clientClosed s = false -> close_after s = None ->
  let reads := map (fulfilled false) pre ++ fulfilled true last :: unread in
  messages (fst (getMessages_again lib_ts reads s))
  = messages s ++ parse (values (pre ++ [last])) /\
  snd (getMessages_again lib_ts reads s) = returns SERVER_CLOSED.
Proof.
  intros F C A reads. subst reads. unfold getMessages_again. rewrite F.
  assert (C0 : clientClosed (enter s) = false) by (unfold enter; simpl; exact C).
  assert (A0 : close_after (enter s) = None) by (unfold enter; simpl; exact A).
  assert (M0 : messages (enter s) = messages s) by reflexivity.
  rewrite read_results_values.
  rewrite (read_loop_open lib_ts (values pre) (enter s) A0 C0).
  destruct (read_loop_sim (values (pre ++ [last])) (enter s) [] AtStart
              (simulates_enter s) C0 A0) as (m' & md' & o & _ & M & R).
  rewrite parse_chunks, R. cbn [snd]. rewrite <- M0, <- M.
  unfold values. rewrite flat_map_app, read_loop_app. fold (values pre).
  set (s1 := read_loop lib_ts (values pre) (enter s)).
  assert (C1 : clientClosed s1 = false)
    by exact (read_loop_open lib_ts (values pre) (enter s) A0 C0).
  assert (A1 : close_after s1 = None).
  { subst s1. now rewrite read_loop_plan. }
  cbn [read_results]. rewrite C1.
  destruct last as [c|]; cbn [flat_map app].
  - rewrite (read_loop_cons lib_ts c [] s1 C1), read_loop_nil.
    unfold leave. cbn [fst snd]. split; [reflexivity|].
    replace (clientClosed (after_chunk lib_ts c s1)) with false; [reflexivity|].
    symmetry. unfold after_chunk. destruct (0 <? length c)%nat; auto.
    destruct (feed_keeps lib_ts c (chunk_fuel c) (set_pos s1 0%nat)) as (_ & _ & K).
    now rewrite K.
  - rewrite read_loop_nil. unfold leave. now rewrite C1.
Qed.

Lemma iterating_again_starts_afresh_witness :
  let s := fst (getMessagesFrom lib_ts None
                  [fulfilled false (Some (codes "id:1" ++ [LF; LF] ++ codes "data:lost" ++ [LF]))]) in
  let reads := map (fulfilled false) [Some (codes "data:kept" ++ [LF])]
               ++ fulfilled true (Some [LF]) :: [] in
  messages (fst (getMessages_again lib_ts reads s))
  = messages s ++ parse (values ([Some (codes "data:kept" ++ [LF])] ++ [Some [LF]])) /\
  snd (getMessages_again lib_ts reads s) = returns SERVER_CLOSED.
Proof.
  apply (iterating_again_starts_afresh
           (fst (getMessagesFrom lib_ts None
                  [fulfilled false (Some (codes "id:1" ++ [LF; LF] ++ codes "data:lost" ++ [LF]))]))
           [Some (codes "data:kept" ++ [LF])] (Some [LF]) []); reflexivity.
Defined.

(** ** The compiled build *)

Lemma add_bytes_name (d : TextDecoder) (buffer : text) (bs : list Z) :
  add_bytes false d buffer bs = (let '(d', t) := decode_stream d bs in (d', buffer ++ t)).
Proof. unfold add_bytes. destruct buffer, bs; reflexivity. Qed.

Lemma add_bytes_value (d : TextDecoder) (buffer : text) (bs : list Z) :
  add_bytes true d buffer bs =
  (let '(d', t) := decode_stream d (Dist.skip_leading_space buffer bs) in (d', buffer ++ t)).
Proof. unfold add_bytes, Dist.skip_leading_space. destruct buffer, bs; reflexivity. Qed.

Lemma fieldName_loop_as_source (h : Heap) (cx : ParserCtx) (buffer : text)
    (c : chunk) (p : nat) :
  collectUntilChar_loop for_fieldName is_notNameChar false h cx buffer c p =
  (let '(h', cx', r) := Dist.fieldName_loop h cx buffer c p in
   (h', cx', result_as_source r)).
Proof.
  unfold collectUntilChar_loop, Dist.fieldName_loop. cbn [holds].
  destruct (findIndex notNameChar (subarray_from p c)) as [i|]; [|reflexivity].
  rewrite add_bytes_name.
  destruct (decode_stream (decoder cx) _) as [d t].
  cbn [collectUntilChar_return]. unfold fieldName_rest. cbn [message].
  destruct (_ || _); reflexivity.
Qed.

Lemma fieldValue_loop_as_source (name : text) (h : Heap) (cx : ParserCtx)
    (buffer : text) (c : chunk) (p : nat) :
  collectUntilChar_loop (for_fieldValue name) is_lineEndChar true h cx buffer c p =
  (let '(h', cx', r) := Dist.fieldValue_loop name h cx buffer c p in
   (h', cx', result_as_source r)).
Proof.
  unfold collectUntilChar_loop, Dist.fieldValue_loop. cbn [holds].
  destruct (findIndex lineEndChar (subarray_from p c)) as [i|]; [|reflexivity].
  rewrite add_bytes_value.
  destruct (decode_stream (decoder cx) _) as [d t].
  cbn [collectUntilChar_return]. unfold fieldValue_rest. cbn [message].
  reflexivity.
Qed.

Lemma next_as_source (h : Heap) (cx : ParserCtx) (g : Dist.Generator)
    (input : ParserInput) :
  next lib_ts h cx (as_source g) input =
  (let '(h', cx', r) := Dist.next h cx g input in (h', cx', result_as_source r)).
Proof.
  destruct g as [[| | | |]| | | | | | | | |]; cbn [as_source next Dist.next value_predicate];
    try reflexivity.
  - destruct (nth_error (in_chunk input) (in_pos input)) as [ch|]; [|reflexivity].
    destruct (ch =? COLON); [reflexivity|]. destruct (_ || _); reflexivity.
  - unfold skipComment_loop, Dist.skipComment_loop.
    destruct (findIndex _ _); reflexivity.
  - unfold skipComment_loop, Dist.skipComment_loop.
    destruct (findIndex _ _); reflexivity.
  - apply fieldName_loop_as_source.
  - rewrite add_bytes_name. destruct (decode_stream _ _) as [d t].
    apply fieldName_loop_as_source.
  - apply fieldValue_loop_as_source.
  - rewrite add_bytes_value. destruct (decode_stream _ _) as [d t].
    apply fieldValue_loop_as_source.
Qed.

Lemma hand_over_as_source (s : Dist.Session) (l : loc) :
  session_as_source (Dist.hand_over s l) = hand_over (session_as_source s) l.
Proof.
  unfold Dist.hand_over, hand_over, Dist.consumer_reacts, consumer_reacts,
    Dist.close, close, session_as_source. cbn.
  destruct (Dist.close_after s) as [n|]; [|reflexivity].
  destruct (Nat.eqb _ n); [|reflexivity].
  destruct (Dist.finishedWith s); reflexivity.
Qed.

Lemma loop_body_as_source (c : chunk) (s : Dist.Session) :
  session_as_source (Dist.loop_body c s) = loop_body lib_ts c (session_as_source s).
Proof.
  unfold Dist.loop_body, loop_body.
  cbn [session_as_source heap ctx stateIterator currentPos clientClosed
       finishedWith received close_after].
  rewrite next_as_source.
  destruct (Dist.next _ _ _ _) as [[h cx] [g out|t]]; cbn [result_as_source];
    [|reflexivity].
  set (s1 := Dist.mkSession h cx g (Dist.currentPos s) (Dist.clientClosed s)
               (Dist.finishedWith s) (Dist.received s) (Dist.close_after s)).
  change (mkSession h cx (as_source g) (Dist.currentPos s) (Dist.clientClosed s)
            (Dist.finishedWith s) (Dist.received s) (Dist.close_after s))
    with (session_as_source s1).
  assert (P : forall x p, session_as_source (Dist.set_pos x p)
                          = set_pos (session_as_source x) p) by reflexivity.
  destruct (out_message out) as [l|];
    [destruct (0 <? length (Object_keys (heap_get h l)))%nat|];
    destruct (out_pos out); rewrite ?P, ?hand_over_as_source; reflexivity.
Qed.

Lemma feed_as_source (c : chunk) (fuel : nat) :
  forall s, session_as_source (Dist.feed fuel c s) = feed fuel lib_ts c (session_as_source s).
Proof.
  induction fuel as [|fuel IH]; intros s; [reflexivity|].
  unfold feed; fold feed. cbn [Dist.feed].
  change (currentPos (session_as_source s)) with (Dist.currentPos s).
  destruct (Dist.currentPos s <? length c)%nat; [|reflexivity].
  now rewrite IH, loop_body_as_source.
Qed.

Lemma read_loop_as_source (source : list chunk) :
  forall s, session_as_source (Dist.read_loop source s)
            = read_loop lib_ts source (session_as_source s).
Proof.
  induction source as [|c source IH]; intros s; cbn [Dist.read_loop read_loop];
    change (clientClosed (session_as_source s)) with (Dist.clientClosed s);
    destruct (Dist.clientClosed s); try reflexivity.
  rewrite IH. destruct (0 <? length c)%nat; [|reflexivity].
  now rewrite feed_as_source.
Qed.

(** X20.  The compiled build of the README, with the scanning loops written
    out in [fieldName] and [fieldValue], is the TypeScript source step by
    step: same messages, same objects, same end, for every stream, every
    chunking and every consumer. *)
Theorem dist_build_is_source (consumer : option nat) (source : list chunk) :
  session_as_source (Dist.getMessages consumer source) = getMessages consumer source /\
  Dist.messages (Dist.getMessages consumer source)
  = messages (getMessages consumer source) /\
  Dist.finishedWith (Dist.getMessages consumer source)
  = finishedWith (getMessages consumer source).
Proof.
  assert (E : session_as_source (Dist.getMessages consumer source)
              = getMessages consumer source).
  { unfold Dist.getMessages, getMessages, getMessagesOf.
    transitivity (finish (session_as_source
                            (Dist.read_loop source (Dist.new_session consumer)))).
    { reflexivity. }
    rewrite read_loop_as_source. f_equal. f_equal.
    unfold Dist.new_session, new_session, Dist.consumer_reacts, consumer_reacts.
    cbn. destruct consumer as [[|n]|]; reflexivity. }
  split; [exact E|]. rewrite <- E. split; reflexivity.
Qed.

(** ** TextEncoder *)

Lemma utf8_eqb_eq (a b : Utf8) : utf8_eqb a b = true -> a = b.
Proof.
  destruct a, b. unfold utf8_eqb. simpl. intros H.
  repeat (apply andb_true_iff in H as [H ?]).
  repeat match goal with E : (_ =? _) = true |- _ => apply Z.eqb_eq in E end.
  congruence.
Qed.

Lemma decodes_to_spec (bs : list Z) (s : Utf8) (out : list Z) :
  decodes_to bs s out = true -> utf8_run utf8_new bs = (s, out).
Proof.
  unfold decodes_to. destruct (utf8_run utf8_new bs) as [s' o].
  intros H. apply andb_true_iff in H as [A B].
  apply utf8_eqb_eq in A. apply text_eqb_eq in B. congruence.
Qed.

Lemma In_zfrom (n : nat) :
  forall lo x, lo <= x < lo + Z.of_nat n -> In x (zfrom lo n).
Proof.
  induction n as [|n IH]; intros lo x H; [lia|].
  cbn [zfrom]. destruct (Z.eq_dec lo x); [now left|right].
  apply IH. lia.
Qed.

Lemma In_zspan (lo hi x : Z) : lo <= x <= hi -> In x (zspan lo hi).
Proof. intros H. apply In_zfrom. lia. Qed.

Lemma continuation_last (cp : Z) :
  continuation (Z.shiftr cp 6) (Z.lor 0x80 (Z.land cp 0x3F)) = cp.
Proof.
  unfold continuation.
  rewrite Z.land_lor_distr_l, <- Z.land_assoc.
  change (Z.land 128 63) with 0. change (Z.land 63 63) with 63.
  rewrite Z.lor_0_l. change 63 with (Z.ones 6).
  rewrite <- Z.ldiff_ones_r by lia. apply Z.lor_ldiff_and.
Qed.

Lemma tail_byte (x : Z) : in_range 0x80 0xBF (Z.lor 0x80 (Z.land x 0x3F)) = true.
Proof.
  change 63 with (Z.ones 6). rewrite Z.land_ones by lia.
  assert (R : In (x mod 2 ^ 6) (zspan 0 63)).
  { apply In_zspan. pose proof (Z.mod_pos_bound x (2 ^ 6) eq_refl). lia. }
  assert (C : forallb (fun r => in_range 0x80 0xBF (Z.lor 0x80 r)) (zspan 0 63) = true)
    by (vm_compute; reflexivity).
  rewrite forallb_forall in C. exact (C _ R).
Qed.

Lemma tail_step (x seen needed : Z) :
  needed <> 0 ->
  utf8_byte (mkUtf8 (Z.shiftr x 6) seen needed 0x80 0xBF) (Z.lor 0x80 (Z.land x 0x3F))
  = if seen + 1 =? needed then (utf8_new, [x])
    else (mkUtf8 x (seen + 1) needed 0x80 0xBF, []).
Proof.
  intros N. unfold utf8_byte.
  cbn [bytes_needed bytes_seen lower_boundary upper_boundary code_point].
  replace (needed =? 0) with false by (symmetry; now apply Z.eqb_neq).
  rewrite tail_byte.
  fold (continuation (Z.shiftr x 6) (Z.lor 128 (Z.land x 63))).
  now rewrite continuation_last.
Qed.

Lemma shiftr_bounds (cp lo hi : Z) (k : Z) :
  0 <= k -> lo * 2 ^ k <= cp < (hi + 1) * 2 ^ k -> lo <= Z.shiftr cp k <= hi.
Proof.
  intros K H. rewrite Z.shiftr_div_pow2 by exact K.
  assert (P : 0 < 2 ^ k) by (apply Z.pow_pos_nonneg; lia).
  split.
  - apply Z.div_le_lower_bound; lia.
  - apply Z.lt_succ_r, Z.div_lt_upper_bound; lia.
Qed.

Lemma round_trip_2 (cp : Z) :
  0x80 <= cp <= 0x7FF ->
  utf8_run utf8_new (utf8_encode_scalar cp) = (utf8_new, [cp]).
Proof.
  intros H.
  assert (E : utf8_encode_scalar cp
              = [Z.shiftr cp 6 + 0xC0; Z.lor 0x80 (Z.land cp 0x3F)]).
  { unfold utf8_encode_scalar, in_range.
    replace (cp <=? 127) with false by (symmetry; apply Z.leb_gt; lia).
    replace (128 <=? cp) with true by (symmetry; apply Z.leb_le; lia).
    replace (cp <=? 2047) with true by (symmetry; apply Z.leb_le; lia).
    now rewrite andb_false_r. }
  assert (Q : 2 <= Z.shiftr cp 6 <= 31) by (apply shiftr_bounds; lia).
  assert (L : utf8_byte utf8_new (Z.shiftr cp 6 + 0xC0)
              = (mkUtf8 (Z.shiftr cp 6) 0 1 0x80 0xBF, [])).
  { assert (C : forallb (fun q => decodes_to [q + 0xC0] (mkUtf8 q 0 1 0x80 0xBF) [])
                  (zspan 2 31) = true) by (vm_compute; reflexivity).
    rewrite forallb_forall in C. specialize (C _ (In_zspan 2 31 _ Q)).
    apply decodes_to_spec in C. cbn [utf8_run] in C.
    destruct (utf8_byte utf8_new _) as [s o]. rewrite app_nil_r in C. exact C. }
  rewrite E. cbn [utf8_run]. rewrite L, tail_step by discriminate. reflexivity.
Qed.

Lemma round_trip_3 (cp : Z) :
  0x800 <= cp < 0xD800 \/ 0xE000 <= cp <= 0xFFFF ->
  utf8_run utf8_new (utf8_encode_scalar cp) = (utf8_new, [cp]).
Proof.
  intros H.
  assert (E : utf8_encode_scalar cp
              = [Z.shiftr (Z.shiftr cp 6) 6 + 0xE0;
                 Z.lor 0x80 (Z.land (Z.shiftr cp 6) 0x3F)]
                ++ [Z.lor 0x80 (Z.land cp 0x3F)]).
  { unfold utf8_encode_scalar, in_range.
    replace (cp <=? 127) with false by (symmetry; apply Z.leb_gt; lia).
    replace (cp <=? 2047) with false by (symmetry; apply Z.leb_gt; lia).
    replace (2048 <=? cp) with true by (symmetry; apply Z.leb_le; lia).
    replace (cp <=? 65535) with true by (symmetry; apply Z.leb_le; lia).
    rewrite !andb_false_r. cbn [andb app].
    now rewrite Z.shiftr_shiftr by lia. }
  assert (Q : 0x20 <= Z.shiftr cp 6 <= 0x35F \/ 0x380 <= Z.shiftr cp 6 <= 0x3FF).
  { destruct H; [left|right]; apply shiftr_bounds; lia. }
  assert (L : utf8_run utf8_new [Z.shiftr (Z.shiftr cp 6) 6 + 0xE0;
                                 Z.lor 0x80 (Z.land (Z.shiftr cp 6) 0x3F)]
              = (mkUtf8 (Z.shiftr cp 6) 1 2 0x80 0xBF, [])).
  { apply decodes_to_spec.
    assert (C : forallb (fun q => decodes_to
                    [Z.shiftr q 6 + 0xE0; Z.lor 0x80 (Z.land q 0x3F)]
                    (mkUtf8 q 1 2 0x80 0xBF) [])
                  (zspan 0x20 0x35F ++ zspan 0x380 0x3FF) = true)
      by (vm_compute; reflexivity).
    rewrite forallb_forall in C. apply C, in_or_app.
    destruct Q; [left|right]; now apply In_zspan. }
  rewrite E, utf8_run_app, L. cbn [utf8_run].
  rewrite tail_step by discriminate. reflexivity.
Qed.

Lemma round_trip_4 (cp : Z) :
  0x10000 <= cp <= 0x10FFFF ->
  utf8_run utf8_new (utf8_encode_scalar cp) = (utf8_new, [cp]).
Proof.
  intros H.
  assert (E : utf8_encode_scalar cp
              = [Z.shiftr (Z.shiftr cp 12) 6 + 0xF0;
                 Z.lor 0x80 (Z.land (Z.shiftr cp 12) 0x3F)]
                ++ [Z.lor 0x80 (Z.land (Z.shiftr cp 6) 0x3F)]
                ++ [Z.lor 0x80 (Z.land cp 0x3F)]).
  { unfold utf8_encode_scalar, in_range.
    replace (cp <=? 127) with false by (symmetry; apply Z.leb_gt; lia).
    replace (cp <=? 2047) with false by (symmetry; apply Z.leb_gt; lia).
    replace (cp <=? 65535) with false by (symmetry; apply Z.leb_gt; lia).
    rewrite !andb_false_r. cbn [app].
    now rewrite Z.shiftr_shiftr by lia. }
  assert (Q : 0x10 <= Z.shiftr cp 12 <= 0x10F) by (apply shiftr_bounds; lia).
  assert (L : utf8_run utf8_new [Z.shiftr (Z.shiftr cp 12) 6 + 0xF0;
                                 Z.lor 0x80 (Z.land (Z.shiftr cp 12) 0x3F)]
              = (mkUtf8 (Z.shiftr cp 12) 1 3 0x80 0xBF, [])).
  { apply decodes_to_spec.
    assert (C : forallb (fun q => decodes_to
                    [Z.shiftr q 6 + 0xF0; Z.lor 0x80 (Z.land q 0x3F)]
                    (mkUtf8 q 1 3 0x80 0xBF) [])
                  (zspan 0x10 0x10F) = true)
      by (vm_compute; reflexivity).
    rewrite forallb_forall in C. now apply C, In_zspan. }
  rewrite E, utf8_run_app, L. cbn [utf8_run app].
  replace (Z.shiftr cp 12) with (Z.shiftr (Z.shiftr cp 6) 6)
    by (now rewrite Z.shiftr_shiftr by lia).
  rewrite tail_step by discriminate. cbn [Z.add Z.eqb Pos.add Pos.eqb Pos.succ].
  rewrite tail_step by discriminate. reflexivity.
Qed.

Lemma round_trip_scalar (cp : Z) :
  scalar_value cp -> utf8_run utf8_new (utf8_encode_scalar cp) = (utf8_new, [cp]).
Proof.
  intros H.
  destruct (Z_lt_le_dec cp 0x80); [|destruct (Z_lt_le_dec cp 0x800);
    [|destruct (Z_lt_le_dec cp 0x10000)]].
  - unfold utf8_encode_scalar.
    replace (in_range 0 127 cp) with true
      by (symmetry; unfold in_range; apply andb_true_iff; split; apply Z.leb_le;
          unfold scalar_value in H; lia).
    apply utf8_run_ascii. intros x [<-|[]]. unfold scalar_value in H. lia.
  - apply round_trip_2. lia.
  - apply round_trip_3. unfold scalar_value in H. lia.
  - apply round_trip_4. unfold scalar_value in H. lia.
Qed.

Lemma utf8_run_encode (t : text) :
  Forall scalar_value t -> utf8_run utf8_new (encode t) = (utf8_new, t).
Proof.
  induction 1 as [|cp t H _ IH]; [reflexivity|].
  unfold encode in *. cbn [flat_map].
  now rewrite utf8_run_app, (round_trip_scalar cp H), IH.
Qed.

(** Decoding undoes encoding, up to a byte order mark in front. *)
Lemma decode_all_encode (t : text) :
  Forall scalar_value t -> decode_all (encode t) = drop_bom t.
Proof.
  intros S. unfold decode_all, decode_stream, new_TextDecoder.
  cbn [handler bom_seen]. rewrite (utf8_run_encode t S).
  destruct t as [|c t]; [reflexivity|].
  cbn [serialize drop_bom].
  destruct (c =? BOM); unfold decode_flush; cbn; now rewrite app_nil_r.
Qed.

Lemma encode_scalar_bytes (cp x : Z) :
  0 <= cp -> In x (utf8_encode_scalar cp) -> x = cp \/ 0x80 <= x.
Proof.
  intros P. unfold utf8_encode_scalar.
  assert (T : forall y, 0x80 <= Z.lor 0x80 (Z.land y 0x3F)).
  { intros y. pose proof (tail_byte y) as H. unfold in_range in H.
    apply andb_true_iff in H as [H _]. now apply Z.leb_le in H. }
  assert (S : forall k, 0 <= Z.shiftr cp k) by (intros k; now apply Z.shiftr_nonneg).
  destruct (in_range 0 127 cp); [intros [<-|[]]; now left|].
  destruct (in_range 128 2047 cp); [|destruct (in_range 2048 65535 cp)];
    cbn [In]; intros H; right;
    repeat (destruct H as [<-|H]; [first [apply T | pose proof (S 6); pose proof (S 12);
                                            pose proof (S 18); lia]|]);
    destruct H.
Qed.

Lemma encode_In (t : text) (x : Z) :
  Forall scalar_value t -> In x (encode t) -> In x t \/ 0x80 <= x.
Proof.
  induction 1 as [|cp t H _ IH]; [intros []|].
  unfold encode in *. cbn [flat_map]. intros I.
  apply in_app_or in I as [I|I].
  - destruct (encode_scalar_bytes cp x) as [->|G]; auto.
    + unfold scalar_value in H. lia.
    + left. now left.
  - destruct (IH I); auto. left. now right.
Qed.

Lemma encode_keeps (p : Z -> bool) (t : text) :
  (forall x, 0x80 <= x -> p x = false) ->
  Forall scalar_value t ->
  (forall x, In x t -> p x = false) ->
  forall x, In x (encode t) -> p x = false.
Proof.
  intros Hp S H x I. destruct (encode_In t x S I); auto.
Qed.

Lemma notNameChar_high (x : Z) : 0x80 <= x -> notNameChar x = false.
Proof.
  intros H. unfold notNameChar, COLON, CR, LF.
  repeat (apply orb_false_iff; split); apply Z.eqb_neq; lia.
Qed.

Lemma lineEndChar_high (x : Z) : 0x80 <= x -> lineEndChar x = false.
Proof.
  intros H. unfold lineEndChar, CR, LF.
  apply orb_false_iff; split; apply Z.eqb_neq; lia.
Qed.

Lemma encode_scalar_head (cp : Z) :
  0 <= cp -> exists b r, utf8_encode_scalar cp = b :: r /\ (b = cp \/ 0x80 <= b).
Proof.
  intros P.
  assert (I : forall x, In x (utf8_encode_scalar cp) -> x = cp \/ 0x80 <= x)
    by (intros x; now apply encode_scalar_bytes).
  revert I. unfold utf8_encode_scalar.
  destruct (in_range 0 127 cp); [|destruct (in_range 128 2047 cp);
    [|destruct (in_range 2048 65535 cp)]];
    intros I; eexists; eexists; (split; [reflexivity|]); apply I; now left.
Qed.

Lemma strip_space_encode (t : text) :
  Forall scalar_value t -> strip_space (encode t) = encode (strip_space t).
Proof.
  intros S. destruct t as [|c r]; [reflexivity|].
  inversion S as [|? ? Sc Sr]; subst.
  assert (P : 0 <= c) by (unfold scalar_value in Sc; lia).
  cbn [strip_space]. destruct (c =? SPACE) eqn:E.
  - apply Z.eqb_eq in E. subst c. reflexivity.
  - unfold encode. cbn [flat_map].
    destruct (encode_scalar_head c P) as (b & tl & -> & Hb).
    cbn [app strip_space].
    replace (b =? SPACE) with false; [reflexivity|].
    symmetry. apply Z.eqb_neq. apply Z.eqb_neq in E. unfold SPACE in *.
    destruct Hb; lia.
Qed.

(** X21.  Text sent as UTF-8 arrives as text, less a U+FEFF in front: a
    record of one line [name:value], encoded by a [TextEncoder], yields the
    message whose one key is [name] without a leading U+FEFF and whose
    value is [value] less one leading space and then less a leading U+FEFF
    (followed by a newline under [data]). *)
Theorem unicode_field_round_trip (e : Eol) (name value : text) :
  Forall scalar_value name -> Forall scalar_value value ->
  name <> [] ->
  (forall x, In x name -> notNameChar x = false) ->
  (forall x, In x value -> lineEndChar x = false) ->
  drop_bom name <> PROTO ->
  parse [record_bytes e [Field (encode name) (Some (encode value))]]
  = [[(drop_bom name,
       if text_eqb (drop_bom name) DATA
       then drop_bom (strip_space value) ++ [LF]
       else drop_bom (strip_space value))]].
Proof.
  intros Sn Sv Ne Nn Nv P.
  assert (W : well_formed (Field (encode name) (Some (encode value)))).
  { cbn [well_formed]. split; [|split].
    - destruct name as [|c r]; [contradiction|].
      inversion Sn as [|? ? Sc _]; subst.
      destruct (encode_scalar_head c) as (b & tl & E & _).
      { unfold scalar_value in Sc. lia. }
      unfold encode. cbn [flat_map]. rewrite E. discriminate.
    - apply encode_keeps; auto using notNameChar_high.
    - apply encode_keeps; auto using lineEndChar_high. }
  rewrite record_messages by (constructor; auto).
  cbn [lines_run line_effect line_out fst snd app].
  assert (Ss : Forall scalar_value (strip_space value)).
  { unfold strip_space. destruct value as [|b r]; [exact Sv|].
    destruct (b =? SPACE); [|exact Sv]. now inversion Sv. }
  rewrite (strip_space_encode value Sv).
  rewrite (decode_all_encode name Sn), (decode_all_encode _ Ss).
  unfold assign, obj_set. rewrite (text_eqb_neq _ _ P). reflexivity.
Qed.

Lemma unicode_field_round_trip_witness :
  parse [record_bytes eol_LF
           [Field (encode (BOM :: codes "data"))
                  (Some (encode [0x20; 0xFEFF; 0x68; 0xE9; 0x20AC; 0x1D11E; 0x3A; 0x21]))]]
  = [[(codes "data", [0x68; 0xE9; 0x20AC; 0x1D11E; 0x3A; 0x21; LF])]].
Proof.
  apply (unicode_field_round_trip eol_LF (BOM :: codes "data")
           [0x20; 0xFEFF; 0x68; 0xE9; 0x20AC; 0x1D11E; 0x3A; 0x21]).
  - repeat constructor; unfold scalar_value, BOM; simpl; lia.
  - repeat constructor; unfold scalar_value; simpl; lia.
  - discriminate.
  - intros x Hx. unfold codes in Hx. simpl in Hx. in_cases; reflexivity.
  - intros x Hx. simpl in Hx. in_cases; reflexivity.
  - vm_compute. congruence.
Defined.

(** ** Characters that never reach a message *)

Lemma in_range_span (lo hi b : Z) : in_range lo hi b = true -> In b (zspan lo hi).
Proof.
  unfold in_range. intros H. apply andb_true_iff in H as [H1 H2].
  apply Z.leb_le in H1, H2. now apply In_zspan.
Qed.

Lemma utf8_lead_high (b : Z) :
  pending_high (fst (utf8_lead b)) /\
  forall x, In x (snd (utf8_lead b)) -> x = b \/ 0x80 <= x.
Proof.
  unfold utf8_lead.
  destruct (in_range 0 127 b) eqn:R0.
  { split; [now left|]. intros x [<-|[]]. now left. }
  destruct (in_range 194 223 b) eqn:R2.
  { split; [|intros x []]. right. cbn.
    assert (C : forallb (fun b => 2 <=? Z.land b 0x1F) (zspan 0xC2 0xDF) = true)
      by (vm_compute; reflexivity).
    rewrite forallb_forall in C. specialize (C b (in_range_span _ _ _ R2)).
    apply Z.leb_le in C. lia. }
  destruct (in_range 224 239 b) eqn:R3.
  { split; [|intros x []]. right. cbn.
    assert (C : forallb (fun b => (0 <=? Z.land b 0xF) &&
                                  ((b =? 0xE0) || (1 <=? Z.land b 0xF)))
                  (zspan 0xE0 0xEF) = true) by (vm_compute; reflexivity).
    rewrite forallb_forall in C. specialize (C b (in_range_span _ _ _ R3)).
    apply andb_true_iff in C as [C1 C2]. apply Z.leb_le in C1.
    destruct (b =? 224) eqn:E0; destruct (b =? 237); simpl in C2;
      try apply Z.leb_le in C2; lia. }
  destruct (in_range 240 244 b) eqn:R4.
  { split; [|intros x []]. right. cbn.
    assert (C : forallb (fun b => (0 <=? Z.land b 0x7) &&
                                  ((b =? 0xF0) || (1 <=? Z.land b 0x7)))
                  (zspan 0xF0 0xF4) = true) by (vm_compute; reflexivity).
    rewrite forallb_forall in C. specialize (C b (in_range_span _ _ _ R4)).
    apply andb_true_iff in C as [C1 C2]. apply Z.leb_le in C1.
    destruct (b =? 240) eqn:E0; destruct (b =? 244); simpl in C2;
      try apply Z.leb_le in C2; lia. }
  split; [now left|]. intros x [<-|[]]. right. unfold REPLACEMENT. lia.
Qed.

Lemma continuation_bounds (cp b : Z) :
  64 * cp <= continuation cp b < 64 * cp + 64.
Proof.
  pose proof (shiftr_continuation cp b) as H.
  rewrite Z.shiftr_div_pow2 in H by lia. change (2 ^ 6) with 64 in H.
  pose proof (Z.div_mod (continuation cp b) 64 ltac:(lia)).
  pose proof (Z.mod_pos_bound (continuation cp b) 64 ltac:(lia)). lia.
Qed.

Lemma continuation_first (b : Z) :
  in_range 0x90 0xBF b = true -> 16 <= continuation 0 b.
Proof.
  intros R.
  assert (C : forallb (fun b => 16 <=? continuation 0 b) (zspan 0x90 0xBF) = true)
    by (vm_compute; reflexivity).
  rewrite forallb_forall in C. apply Z.leb_le, C. now apply in_range_span.
Qed.

Lemma utf8_byte_high (s : Utf8) (b : Z) :
  pending_high s ->
  pending_high (fst (utf8_byte s b)) /\
  forall x, In x (snd (utf8_byte s b)) -> x = b \/ 0x80 <= x.
Proof.
  intros P. unfold utf8_byte.
  destruct (bytes_needed s =? 0) eqn:N; [apply utf8_lead_high|].
  apply Z.eqb_neq in N.
  destruct P as [P|(Lo & Hi & C0 & P)]; [contradiction|].
  destruct (in_range (lower_boundary s) (upper_boundary s) b) eqn:R.
  - fold (continuation (code_point s) b).
    pose proof (continuation_bounds (code_point s) b) as B.
    destruct (bytes_seen s + 1 =? bytes_needed s) eqn:E.
    + apply Z.eqb_eq in E. cbn [fst snd]. split; [now left|].
      intros x [<-|[]]. right. destruct P as [P|(P & _)]; lia.
    + cbn [fst snd]. split; [|intros x []]. right. cbn.
      repeat split; try lia. left.
      destruct P as [P|(_ & [P|P])]; try lia.
      destruct (Z.eq_dec (code_point s) 0) as [Z0|]; [|lia].
      rewrite Z0. apply Z.le_trans with 16; [lia|]. apply continuation_first.
      unfold in_range in *. apply andb_true_iff in R as [R1 R2].
      apply Z.leb_le in R1, R2. apply andb_true_iff. split; apply Z.leb_le; lia.
  - destruct (utf8_lead_high b) as [A B].
    destruct (utf8_lead b) as [s' o]. cbn [fst snd] in *. split; [exact A|].
    intros x [<-|H]; [right; unfold REPLACEMENT; lia|auto].
Qed.

Lemma serialize_In (seen : bool) (o : list Z) (x : Z) :
  In x (snd (serialize seen o)) -> In x o.
Proof.
  unfold serialize. destruct seen; [auto|].
  destruct o as [|c r]; [auto|]. cbn [snd].
  destruct (c =? BOM); intros H; [now right|exact H].
Qed.

Lemma decode_byte_high (d : TextDecoder) (b : Z) :
  pending_high (handler d) ->
  pending_high (handler (fst (decode_stream d [b]))) /\
  forall x, In x (snd (decode_stream d [b])) -> x = b \/ 0x80 <= x.
Proof.
  intros P. unfold decode_stream. cbn [utf8_run].
  destruct (utf8_byte_high (handler d) b P) as [A B].
  destruct (utf8_byte (handler d) b) as [h o]. cbn [fst snd] in *.
  rewrite app_nil_r.
  pose proof (serialize_In (bom_seen d) o) as S.
  destruct (serialize (bom_seen d) o) as [seen t]. cbn [fst snd handler] in *.
  split; auto.
Qed.

Lemma decode_flush_high (d : TextDecoder) (x : Z) :
  In x (decode_flush d) -> 0x80 <= x.
Proof.
  unfold decode_flush. intros H. apply serialize_In in H.
  unfold utf8_end in H. destruct (bytes_needed (handler d) =? 0); [destruct H|].
  destruct H as [<-|[]]. unfold REPLACEMENT. lia.
Qed.

Lemma free_of_app (p : Z -> bool) (a b : text) :
  free_of p a -> free_of p b -> free_of p (a ++ b).
Proof. intros A B x H. apply in_app_or in H as [H|H]; auto. Qed.

Lemma free_of_flush (p : Z -> bool) (d : TextDecoder) :
  (forall x, 0x80 <= x -> p x = false) -> free_of p (decode_flush d).
Proof. intros Hp x H. apply Hp. now apply decode_flush_high in H. Qed.

Lemma free_of_byte (p : Z -> bool) (d : TextDecoder) (b : Z) :
  (forall x, 0x80 <= x -> p x = false) ->
  pending_high (handler d) -> p b = false ->
  free_of p (snd (decode_stream d [b])).
Proof.
  intros Hp P Pb x H.
  destruct (decode_byte_high d b P) as [_ B]. destruct (B x H) as [->|G]; auto.
Qed.

Lemma In_own_put_value (m : Message) (k v k' v' : text) :
  In (k', v') (own_put m k v) -> (k' = k /\ v' = v) \/ In (k', v') m.
Proof.
  induction m as [|[k0 v0] m IH]; simpl.
  - intros [E|[]]. inversion E. auto.
  - destruct (text_eqb k0 k) eqn:T; simpl.
    + apply text_eqb_eq in T. subst k0.
      intros [E|H]; [inversion E|]; auto.
    + intros [E|H]; auto. apply IH in H as [H|H]; auto.
Qed.

Lemma tidy_set (m : Message) (k v : text) :
  tidy m -> free_of notNameChar k ->
  (forall x, In x v -> x <> CR) ->
  (k <> DATA -> forall x, In x v -> x <> LF) ->
  tidy (obj_set m k v).
Proof.
  intros Tm Fk Vc Vl k' v' H. unfold obj_set in H.
  destruct (text_eqb k PROTO); [now apply (Tm k' v')|].
  apply In_own_put_value in H as [[-> ->]|H]; [auto|now apply (Tm k' v')].
Qed.

Lemma tidy_nil : tidy [].
Proof. intros k v []. Qed.

Lemma tidy_emit (m : Message) : tidy m -> Forall tidy (emit m).
Proof. intros H. destruct m; simpl; auto. Qed.

Lemma mode_tidy_after (b : Z) : mode_tidy (after_line_end b).
Proof. unfold after_line_end. now destruct (b =? LF). Qed.

Lemma pending_high_new : pending_high (handler new_TextDecoder).
Proof. now left. Qed.

Lemma lineEnd_free (t : text) :
  free_of lineEndChar t -> (forall x, In x t -> x <> CR) /\ (forall x, In x t -> x <> LF).
Proof.
  intros F. split; intros x H E; specialize (F x H); subst x; discriminate F.
Qed.

Lemma name_byte_tidy (m : Message) (d : TextDecoder) (buffer : text) (b : Z) :
  tidy m -> pending_high (handler d) -> free_of notNameChar buffer ->
  let '(m', md', o) := name_byte m d buffer b in
  tidy m' /\ mode_tidy md' /\ Forall tidy o.
Proof.
  intros Tm P F. unfold name_byte.
  destruct (notNameChar b) eqn:Nb.
  - assert (Fn : free_of notNameChar (buffer ++ decode_flush d)).
    { apply free_of_app; auto. apply free_of_flush, notNameChar_high. }
    destruct (lineEndChar b).
    + split; [|split]; auto using mode_tidy_after.
      apply tidy_set; auto; intros; contradiction.
    + split; [|split]; auto. cbn [mode_tidy].
      split; [apply pending_high_new|]. split; [intros x []|exact Fn].
  - destruct (decode_byte_high d b P) as [A _].
    pose proof (free_of_byte notNameChar d b notNameChar_high P Nb) as B.
    destruct (decode_stream d [b]) as [d' t]. cbn [fst snd] in *.
    split; [|split]; auto. cbn [mode_tidy]. auto using free_of_app.
Qed.

Lemma start_byte_tidy (m : Message) (b : Z) :
  tidy m ->
  let '(m', md', o) := start_byte m b in
  tidy m' /\ mode_tidy md' /\ Forall tidy o.
Proof.
  intros Tm. unfold start_byte.
  destruct (b =? COLON); [split; [|split]; auto; exact I|].
  destruct (lineEndChar b).
  - split; [|split]; auto using tidy_nil, tidy_emit, mode_tidy_after.
  - apply name_byte_tidy; auto using pending_high_new. intros x [].
Qed.

Lemma own_get_In (m : Message) (k v : text) : own_get m k = Some v -> In (k, v) m.
Proof.
  induction m as [|[k0 v0] m IH]; [discriminate|].
  simpl. destruct (text_eqb k0 k) eqn:T.
  - apply text_eqb_eq in T. intros G. inversion G. subst. now left.
  - right. auto.
Qed.

Lemma byte_step_tidy (m : Message) (md : Mode) (b : Z) :
  tidy m -> mode_tidy md ->
  let '(m', md', o) := byte_step m md b in
  tidy m' /\ mode_tidy md' /\ Forall tidy o.
Proof.
  intros Tm Td. destruct md as [| | |d buffer|name first d buffer];
    cbn [byte_step].
  - now apply start_byte_tidy.
  - destruct (b =? LF); [split; [|split]; auto; exact I|]. now apply start_byte_tidy.
  - destruct (lineEndChar b); [|split; [|split]; auto; exact I].
    now apply start_byte_tidy.
  - destruct Td as (P & F). now apply name_byte_tidy.
  - destruct Td as (P & F & Fn). destruct (lineEndChar b) eqn:L.
    + split; [|split]; auto using mode_tidy_after.
      assert (Fv : free_of lineEndChar (buffer ++ decode_flush d)).
      { apply free_of_app; auto. apply free_of_flush, lineEndChar_high. }
      destruct (lineEnd_free _ Fv) as [Vc Vl].
      unfold assign. apply tidy_set; auto.
      * destruct (text_eqb name DATA) eqn:E; [|exact Vc].
        intros x H. apply in_app_or in H as [H|H].
        -- unfold get_or_empty in H.
           destruct (own_get m name) as [v|] eqn:G; [|destruct H].
           now apply (Tm name v (own_get_In _ _ _ G)).
        -- apply in_app_or in H as [H|[<-|[]]]; [now apply Vc|discriminate].
      * intros Nd. rewrite (text_eqb_neq _ _ Nd). exact Vl.
    + destruct (first && (b =? SPACE));
        [split; [|split]; auto; cbn [mode_tidy]; auto|].
      destruct (decode_byte_high d b P) as [A _].
      pose proof (free_of_byte lineEndChar d b lineEndChar_high P L) as B.
      destruct (decode_stream d [b]) as [d' t]. cbn [fst snd] in *.
      split; [|split]; auto. cbn [mode_tidy]. auto using free_of_app.
Qed.

Lemma bytes_run_tidy (bs : list Z) :
  forall m md, tidy m -> mode_tidy md ->
  let '(m', md', o) := bytes_run m md bs in
  tidy m' /\ mode_tidy md' /\ Forall tidy o.
Proof.
  induction bs as [|b bs IH]; intros m md Km Kd; cbn [bytes_run].
  - split; [|split]; auto.
  - pose proof (byte_step_tidy m md b Km Kd) as S.
    destruct (byte_step m md b) as [[m1 md1] o1]. destruct S as (K1 & D1 & O1).
    pose proof (IH m1 md1 K1 D1) as R.
    destruct (bytes_run m1 md1 bs) as [[m2 md2] o2]. destruct R as (K2 & D2 & O2).
    split; [|split]; auto. apply Forall_app. auto.
Qed.

Lemma chunks_run_tidy (source : list chunk) :
  forall m md, tidy m -> mode_tidy md ->
  let '(m', md', o) := chunks_run m md source in
  tidy m' /\ mode_tidy md' /\ Forall tidy o.
Proof.
  induction source as [|c source IH]; intros m md Km Kd; cbn [chunks_run].
  - split; [|split]; auto.
  - assert (Kr : mode_tidy (resume_mode md)).
    { destruct md as [| | | |name [|] d [|x buffer]]; auto. }
    pose proof (bytes_run_tidy c m (resume_mode md) Km Kr) as S.
    destruct (bytes_run m (resume_mode md) c) as [[m1 md1] o1].
    destruct S as (K1 & D1 & O1).
    pose proof (IH m1 md1 K1 D1) as R.
    destruct (chunks_run m1 md1 source) as [[m2 md2] o2].
    destruct R as (K2 & D2 & O2).
    split; [|split]; auto. apply Forall_app. auto.
Qed.

(** X22.  What never reaches a message: no key holds a colon, a CR or an LF;
    no value holds a CR, and an LF is found in the value of [data] only,
    where the parser puts one after each line.  This holds for every
    stream, well formed or not, and every chunking. *)
Theorem no_line_break_in_fields (source : list chunk) :
  Forall (fun m => forall k v, In (k, v) m ->
            (forall x, In x k -> x <> COLON /\ x <> CR /\ x <> LF) /\
            (forall x, In x v -> x <> CR) /\
            (k <> DATA -> forall x, In x v -> x <> LF))
         (parse source).
Proof.
  rewrite parse_chunks.
  pose proof (chunks_run_tidy source [] AtStart tidy_nil I) as H.
  destruct (chunks_run [] AtStart source) as [[m md] o]. destruct H as (_ & _ & H).
  cbn [snd]. eapply Forall_impl; [|exact H].
  intros m0 T k v Hkv. destruct (T k v Hkv) as (Fk & Vc & Vl).
  split; [|split; assumption].
  intros x Hx. specialize (Fk x Hx). unfold notNameChar in Fk.
  apply orb_false_iff in Fk as [Fk F3]. apply orb_false_iff in Fk as [F1 F2].
  apply Z.eqb_neq in F1, F2, F3. auto.
Qed.

(** ** The reader of the tests *)

Lemma combine_snoc {A B : Type} (a : list A) (b : list B) (x : A) (y : B) :
  length a = length b ->
  combine (a ++ [x]) (b ++ [y]) = combine a b ++ [(x, y)].
Proof.
  revert b; induction a as [|a0 a IH]; intros [|b0 b] H; try discriminate.
  - reflexivity.
  - simpl. f_equal. apply IH. simpl in H. lia.
Qed.

Lemma firstn_snoc {A : Type} (k : nat) (p : list A) (x : A) (rest : list A) :
  skipn k p = x :: rest ->
  firstn (S k) p = firstn k p ++ [x] /\ skipn (S k) p = rest /\ (k < length p)%nat.
Proof.
  revert p; induction k as [|k IH]; intros p H.
  - simpl in H. subst p. simpl. repeat split; auto. lia.
  - destruct p as [|y p]; [discriminate|]. simpl in H.
    destruct (IH p H) as (A1 & A2 & A3).
    rewrite (firstn_cons (S k)), (firstn_cons k), (skipn_cons (S k)), A1.
    cbn [length]. repeat split; auto. lia.
Qed.

Lemma in_order_read (p : list text) (r : MockedReader) :
  in_order p r -> in_order p (mock_read r).
Proof.
  intros (C & St & Pu & Pl). unfold mock_read, enqueueRequest, in_order in *.
  cbn [closed pushQueue pullQueue settled reads]. rewrite C.
  destruct (pushQueue r) as [|chunk rest] eqn:Q;
    cbn [closed pushQueue pullQueue settled reads].
  - assert (L : (length p <= reads r)%nat).
    { destruct (Nat.le_gt_cases (length p) (reads r)) as [L|L]; auto.
      symmetry in Pu. rewrite Nat.min_l in Pu by lia.
      apply (f_equal (@length _)) in Pu. rewrite length_skipn in Pu.
      simpl in Pu. lia. }
    rewrite Nat.min_r in * by lia.
    split; [reflexivity|]. split; [exact St|]. split; [congruence|].
    rewrite Pl.
    replace (S (reads r) - length p)%nat with (S (reads r - length p))%nat by lia.
    rewrite seq_S. f_equal. f_equal. lia.
  - symmetry in Pu. destruct (firstn_snoc _ _ _ _ Pu) as (F1 & F2 & F3).
    assert (K : Nat.min (reads r) (length p) = reads r) by lia.
    rewrite K in *.
    replace (Nat.min (S (reads r)) (length p)) with (S (reads r))%nat by lia.
    split; [reflexivity|]. split; [|split].
    + rewrite St, seq_S, F1, map_app. cbn [map Nat.add].
      rewrite combine_snoc; [reflexivity|].
      rewrite length_seq, length_map, length_firstn. lia.
    + now rewrite F2.
    + rewrite Pl. replace (reads r - reads r)%nat with O%nat by lia.
      replace (S (reads r) - S (reads r))%nat with O%nat by lia. reflexivity.
Qed.

Lemma in_order_push (p : list text) (r : MockedReader) (chunk : text) :
  in_order p r -> in_order (p ++ [chunk]) (mock_push chunk r).
Proof.
  intros (C & St & Pu & Pl). unfold mock_push, enqueueChunk, in_order in *.
  rewrite C, length_app. cbn [length].
  destruct (pullQueue r) as [|request rest] eqn:Q;
    cbn [closed pushQueue pullQueue settled reads].
  - assert (L : (reads r <= length p)%nat).
    { destruct (Nat.le_gt_cases (reads r) (length p)) as [L|L]; auto.
      symmetry in Pl. rewrite Nat.min_r in Pl by lia.
      apply (f_equal (@length _)) in Pl. rewrite length_seq in Pl.
      simpl in Pl. lia. }
    rewrite Nat.min_l in * by lia.
    split; [reflexivity|]. split; [|split].
    + rewrite St, firstn_app.
      replace (reads r - length p)%nat with O%nat by lia.
      now rewrite firstn_O, app_nil_r.
    + rewrite Pu, skipn_app.
      replace (reads r - length p)%nat with O%nat by lia. reflexivity.
    + replace (reads r - reads r)%nat with O%nat by lia. reflexivity.
  - assert (L : (length p < reads r)%nat).
    { destruct (Nat.le_gt_cases (reads r) (length p)) as [L|L]; auto.
      rewrite Nat.min_l in Pl by lia.
      replace (reads r - reads r)%nat with O%nat in Pl by lia. discriminate Pl. }
    rewrite !Nat.min_r in * by lia. rewrite !Nat.add_1_r.
    replace (reads r - length p)%nat with (S (reads r - S (length p)))%nat in Pl by lia.
    cbn [seq] in Pl. inversion Pl as [[Rq Rs]].
    split; [reflexivity|]. split; [|split].
    + rewrite firstn_all2 by (rewrite length_app; simpl; lia).
      rewrite firstn_all in St. rewrite St, seq_S, map_app. cbn [map Nat.add].
      rewrite combine_snoc by (rewrite length_seq, length_map; reflexivity).
      reflexivity.
    + rewrite skipn_all2 by (rewrite length_app; simpl; lia).
      rewrite skipn_all in Pu. exact Pu.
    + reflexivity.
Qed.

Lemma in_order_calls (cs : list Call) :
  no_close cs ->
  forall p r, in_order p r ->
  in_order (p ++ pushed cs) (fold_left call cs r) /\
  reads (fold_left call cs r) = (reads r + asked cs)%nat.
Proof.
  induction cs as [|c cs IH]; intros N p r H.
  - simpl. rewrite app_nil_r. split; [exact H|]. unfold asked. simpl. lia.
  - assert (N' : no_close cs) by (intros x Hx; apply N; now right).
    destruct c as [|chunk|].
    + destruct (IH N' p _ (in_order_read p r H)) as [A B]. split; [exact A|].
      cbn [fold_left call]. rewrite B. unfold mock_read, enqueueRequest.
      cbn [closed pushQueue reads]. unfold asked. cbn [filter length].
      destruct (closed r); [simpl; lia|]. destruct (pushQueue r); simpl; lia.
    + destruct (IH N' (p ++ [chunk]) _ (in_order_push p r chunk H)) as [A B].
      cbn [pushed flat_map app fold_left call]. fold (pushed cs).
      rewrite <- app_assoc in A. split; [exact A|].
      rewrite B. unfold mock_push, enqueueChunk, asked. cbn [filter].
      destruct (closed r); [reflexivity|]. destruct (pullQueue r); reflexivity.
    + exfalso. apply (N do_close); [now left|reflexivity].
Qed.

(** X23.  The reader of the tests, as long as it is not closed, answers the
    reads in the order they were made with the chunks in the order they
    were pushed: the [i]-th read gets the encoding of the [i]-th chunk,
    however reads and pushes alternate; chunks not yet read and reads not
    yet answered wait in their queues. *)
Theorem mock_reader_in_order (cs : list Call) :
  no_close cs ->
  let r := calls cs in
  let k := Nat.min (asked cs) (length (pushed cs)) in
  settled r = combine (seq 0 k) (map chunk_read (firstn k (pushed cs))) /\
  pushQueue r = skipn k (pushed cs) /\
  pullQueue r = seq k (asked cs - k).
Proof.
  intros N r k. subst r k. unfold calls.
  destruct (in_order_calls cs N [] mockReader) as [(_ & A & B & C) R].
  { unfold in_order, mockReader. simpl. auto. }
  cbn [app] in *. rewrite R in *. cbn [reads mockReader Nat.add] in *. auto.
Qed.

Lemma mock_reader_in_order_witness :
  let cs := [do_read; do_push (codes "a"); do_push (codes "b"); do_read; do_read;
             do_read; do_push (codes "c")] in
  let r := calls cs in
  let k := Nat.min (asked cs) (length (pushed cs)) in
  settled r = combine (seq 0 k) (map chunk_read (firstn k (pushed cs))) /\
  pushQueue r = skipn k (pushed cs) /\
  pullQueue r = seq k (asked cs - k).
Proof.
  apply (mock_reader_in_order
           [do_read; do_push (codes "a"); do_push (codes "b"); do_read; do_read;
            do_read; do_push (codes "c")]).
  intros c H. simpl in H.
  repeat (destruct H as [<-|H]; [discriminate|]). destruct H.
Defined.

Lemma call_closed (r : MockedReader) (c : Call) :
  closed r = true ->
  call r c =
  match c with
  | do_read =>
      mkMock (pushQueue r) true (pullQueue r)
             (settled r ++ [(reads r, fulfilled true None)]) (S (reads r))
  | _ => r
  end.
Proof.
  intros C. destruct c as [|chunk|]; cbn [call].
  - unfold mock_read, enqueueRequest. cbn [closed pushQueue pullQueue settled reads].
    now rewrite C.
  - unfold mock_push, enqueueChunk. now rewrite C.
  - unfold mock_close. now rewrite C.
Qed.

Lemma closed_calls (cs : list Call) :
  forall r, closed r = true ->
  closed (fold_left call cs r) = true /\
  pushQueue (fold_left call cs r) = pushQueue r /\
  pullQueue (fold_left call cs r) = pullQueue r /\
  reads (fold_left call cs r) = (reads r + asked cs)%nat /\
  settled (fold_left call cs r)
  = settled r ++ map (fun i => (i, fulfilled true None)) (seq (reads r) (asked cs)).
Proof.
  induction cs as [|c cs IH]; intros r C; cbn [fold_left].
  - unfold asked. simpl. rewrite app_nil_r, Nat.add_0_r. repeat split; auto.
  - rewrite (call_closed r c C). destruct c as [|chunk|].
    + destruct (IH (mkMock (pushQueue r) true (pullQueue r)
                      (settled r ++ [(reads r, fulfilled true None)]) (S (reads r)))
                   eq_refl) as (A1 & A2 & A3 & A4 & A5).
      cbn [closed pushQueue pullQueue settled reads] in *.
      unfold asked in *. cbn [filter length seq map].
      split; [exact A1|]. split; [exact A2|]. split; [exact A3|].
      split; [lia|]. rewrite A5, <- app_assoc. reflexivity.
    + exact (IH r C).
    + exact (IH r C).
Qed.

(** X24.  Closing the reader of the tests (by [close()] or by
    [reader.cancel()]) answers [done] to every read that waits and to every
    read made later, and the chunks that no read had taken by then are
    lost: of all the reads only the first [k] get a chunk, [k] being the
    smaller of the numbers of reads and of pushes before the close. *)
Theorem mock_reader_closed (cs later : list Call) :
  no_close cs ->
  let r := calls (cs ++ do_close :: later) in
  let k := Nat.min (asked cs) (length (pushed cs)) in
  let n := (asked cs + asked later)%nat in
  closed r = true /\ pushQueue r = [] /\ pullQueue r = [] /\ reads r = n /\
  settled r = combine (seq 0 n)
                (map chunk_read (firstn k (pushed cs))
                 ++ repeat (fulfilled true None) (n - k)).
Proof.
  intros N r k n. subst r k n. unfold calls. rewrite fold_left_app.
  destruct (in_order_calls cs N [] mockReader) as [(C & A & B & Q) R].
  { unfold in_order, mockReader. simpl. auto. }
  cbn [app] in *. rewrite R in *. cbn [reads mockReader Nat.add] in *.
  cbn [fold_left call]. set (r0 := fold_left call cs mockReader) in *.
  set (k := Nat.min (asked cs) (length (pushed cs))) in *.
  assert (E : mock_close r0
              = mkMock [] true []
                  (settled r0 ++ map (fun request => (request, fulfilled true None))
                                     (pullQueue r0))
                  (reads r0)).
  { unfold mock_close. now rewrite C. }
  rewrite E.
  destruct (closed_calls later
              (mkMock [] true []
                 (settled r0 ++ map (fun request => (request, fulfilled true None))
                                    (pullQueue r0))
                 (reads r0)) eq_refl) as (A1 & A2 & A3 & A4 & A5).
  cbn [closed pushQueue pullQueue settled reads] in A2, A3, A4, A5.
  rewrite R in *.
  split; [exact A1|]. split; [exact A2|]. split; [exact A3|]. split; [exact A4|].
  rewrite A5, A, Q.
  assert (Lk : (k <= asked cs)%nat) by (subst k; lia).
  replace (asked cs + asked later)%nat with (k + ((asked cs - k) + asked later))%nat by lia.
  rewrite seq_app, Nat.add_0_l.
  replace (k + (asked cs - k + asked later) - k)%nat
    with ((asked cs - k) + asked later)%nat by lia.
  assert (Lc : length (seq 0 k) = length (map chunk_read (firstn k (pushed cs)))).
  { rewrite length_seq, length_map, length_firstn. subst k. lia. }
  assert (App : forall (a c : list nat) (b d : list ReadResult),
            length a = length b ->
            combine (a ++ c) (b ++ d) = combine a b ++ combine c d).
  { induction a as [|a0 a IHa]; intros c [|b0 b] d H; try discriminate; auto.
    simpl. f_equal. apply IHa. simpl in H. lia. }
  rewrite (App _ _ _ _ Lc), <- app_assoc. f_equal.
  rewrite seq_app, repeat_app.
  rewrite (App (seq k (asked cs - k)) _ (repeat (fulfilled true None) (asked cs - k)))
    by (now rewrite length_seq, repeat_length).
  assert (Done : forall len start,
            map (fun i : nat => (i, fulfilled true None)) (seq start len)
            = combine (seq start len) (repeat (fulfilled true None) len)).
  { induction len as [|len IHl]; intros start; [reflexivity|].
    cbn [seq map repeat combine]. now rewrite IHl. }
  rewrite !Done. do 3 f_equal. lia.
Qed.

Lemma mock_reader_closed_witness :
  let cs := [do_push (codes "a"); do_push (codes "b"); do_read] in
  let later := [do_read; do_push (codes "c"); do_close; do_read] in
  let r := calls (cs ++ do_close :: later) in
  let k := Nat.min (asked cs) (length (pushed cs)) in
  let n := (asked cs + asked later)%nat in
  closed r = true /\ pushQueue r = [] /\ pullQueue r = [] /\ reads r = n /\
  settled r = combine (seq 0 n)
                (map chunk_read (firstn k (pushed cs))
                 ++ repeat (fulfilled true None) (n - k)).
Proof.
  apply (mock_reader_closed [do_push (codes "a"); do_push (codes "b"); do_read]
           [do_read; do_push (codes "c"); do_close; do_read]).
  intros c H. simpl in H.
  repeat (destruct H as [<-|H]; [discriminate|]). destruct H.
Defined.

(** ** The two builds side by side *)

Lemma loop_body_result (b : Build) (c : chunk) (s : Session) :
  loop_body b c s
  = loop_result s (next b (heap s) (ctx s) (stateIterator s) (mkInput c (currentPos s))).
Proof. reflexivity. Qed.

Lemma as_compiled_consumer_reacts (s : Session) :
  as_compiled (consumer_reacts s) = consumer_reacts (as_compiled s).
Proof.
  destruct s as [h cx g p cc fw rc [n|]]; [|reflexivity].
  unfold consumer_reacts, close, as_compiled. simpl.
  destruct (Nat.eqb _ _); [|reflexivity].
  destruct fw; reflexivity.
Qed.

Lemma as_compiled_hand_over (s : Session) (l : loc) :
  as_compiled (hand_over s l) = hand_over (as_compiled s) l.
Proof. unfold hand_over. now rewrite as_compiled_consumer_reacts. Qed.

Lemma as_compiled_set_pos (s : Session) (p : nat) :
  as_compiled (set_pos s p) = set_pos (as_compiled s) p.
Proof. reflexivity. Qed.

Lemma as_compiled_loop_result (s : Session) (r : Heap * ParserCtx * IteratorResult) :
  as_compiled (loop_result s r) = loop_result (as_compiled s) (retarget_result r).
Proof.
  destruct r as [[h cx] [g out|t]]; [|reflexivity].
  unfold loop_result, retarget_result.
  destruct (out_message out) as [l|];
    [destruct (0 <? length (Object_keys (heap_get h l)))%nat|];
    destruct (out_pos out) as [q|]; try reflexivity;
    rewrite ?as_compiled_set_pos, as_compiled_hand_over; reflexivity.
Qed.

Lemma next_retarget (h : Heap) (cx : ParserCtx) (g : Generator) (c : chunk) (p : nat) :
  scan_agrees g c p ->
  next compiled_js h cx (retarget g) (mkInput c p)
  = retarget_result (next lib_ts h cx g (mkInput c p)).
Proof.
  intros A.
  destruct g as [[| |name| |ns]| |ch q|ns| | |from pr skip|from pr skip buffer rem];
    cbn [next retarget retarget_result in_chunk in_pos value_predicate];
    try reflexivity.
  - destruct (nth_error c p) as [x|]; [|reflexivity].
    destruct (x =? COLON); [reflexivity|]. now destruct ((x =? LF) || (x =? CR)).
  - unfold skipComment_loop. now destruct (findIndex _ _).
  - unfold skipComment_loop. now destruct (findIndex _ _).
  - destruct from as [|name]; cbn [next retarget scan_agrees] in *;
      unfold collectUntilChar_loop, subarray_from; cbn [holds in_pos in_chunk];
      try (rewrite A; clear A);
      (destruct (findIndex _ (skipn p c)); [|reflexivity]);
      destruct (add_bytes _ _ _ _);
      cbn [collectUntilChar_return]; unfold fieldName_rest, fieldValue_rest;
      try destruct (_ || _); reflexivity.
  - destruct from as [|name]; cbn [next retarget scan_agrees] in *;
      destruct (add_bytes skip (decoder cx) buffer rem);
      unfold collectUntilChar_loop, subarray_from; cbn [holds in_pos in_chunk];
      try (rewrite A; clear A);
      (destruct (findIndex _ (skipn p c)); [|reflexivity]);
      destruct (add_bytes _ _ _ _);
      cbn [collectUntilChar_return]; unfold fieldName_rest, fieldValue_rest;
      try destruct (_ || _); reflexivity.
Qed.

Lemma loop_body_retarget (c : chunk) (s : Session) :
  scan_agrees (stateIterator s) c (currentPos s) ->
  loop_body compiled_js c (as_compiled s) = as_compiled (loop_body lib_ts c s).
Proof.
  intros A. rewrite !loop_body_result, as_compiled_loop_result.
  cbn [as_compiled heap ctx stateIterator currentPos].
  now rewrite next_retarget.
Qed.

Lemma colons_app (seen : bool) (a b : list Z) :
  colons seen (a ++ b)
  = match colons seen a with Some seen' => colons seen' b | None => None end.
Proof.
  revert seen; induction a as [|x a IH]; intros seen; [reflexivity|].
  simpl. destruct (lineEndChar x); [apply IH|].
  destruct (x =? COLON); [destruct seen; [reflexivity|apply IH]|apply IH].
Qed.

Lemma colons_same_stop (bs : list Z) :
  colons true bs <> None -> findIndex lineEndChar bs = findIndex notNameChar bs.
Proof.
  induction bs as [|x bs IH]; intros H; [reflexivity|].
  simpl in *. unfold notNameChar, lineEndChar in *.
  destruct (x =? COLON); simpl in *.
  - destruct ((x =? CR) || (x =? LF)); [reflexivity|]. now destruct H.
  - destruct ((x =? CR) || (x =? LF)); [reflexivity|]. now rewrite IH.
Qed.

Lemma colons_no_line_end (bs : list Z) :
  (forall x, In x bs -> lineEndChar x = false) ->
  colons true bs <> None -> colons true bs = Some true.
Proof.
  induction bs as [|x bs IH]; intros N H; [reflexivity|].
  simpl in *. rewrite (N x (or_introl eq_refl)) in *.
  destruct (x =? COLON); [now destruct H|]. apply IH; auto.
Qed.

Lemma colons_split (seen : bool) (c : chunk) (p : nat) :
  colons seen c <> None ->
  exists g, colons seen (firstn p c) = Some g /\ colons g (skipn p c) <> None.
Proof.
  intros H. rewrite <- (firstn_skipn p c), colons_app in H.
  destruct (colons seen (firstn p c)) as [g|]; [|now destruct H].
  now exists g.
Qed.

Lemma colons_after_colon (seen : bool) (c : chunk) (k : nat) (x : Z) :
  colons seen c <> None -> skipn k c = x :: skipn (S k) c ->
  lineEndChar x = false -> notNameChar x = true ->
  colons seen (firstn (S k) c) = Some true.
Proof.
  intros H E L N.
  destruct (colons_split seen c k H) as (g & G1 & G2).
  assert (F : firstn (S k) c = firstn k c ++ [x]).
  { rewrite <- (firstn_skipn k c) at 1. rewrite E.
    rewrite <- (firstn_skipn k c) at 2.
    assert (length (firstn k c) = k \/ skipn k c = []) as [K|K].
    { destruct (Nat.le_gt_cases k (length c)) as [Q|Q].
      - left. now apply firstn_length_le.
      - right. apply skipn_all2. lia. }
    - rewrite E.
      replace (S k) with (length (firstn k c) + 1)%nat at 1 by lia.
      rewrite firstn_app_2. reflexivity.
    - rewrite K in E. discriminate. }
  rewrite F, colons_app, G1. rewrite E in G2. simpl in *.
  rewrite L in *. unfold notNameChar, lineEndChar in *.
  destruct (x =? COLON); [|simpl in N; congruence].
  destruct g; [now destruct G2|reflexivity].
Qed.

(** One iteration on a chunk whose lines hold one colon at most: the value
    scans of the two builds stop at the same byte, and a generator that
    scans a value has the colon of its line behind it. *)
Lemma loop_body_colons (c : chunk) (seen : bool) (s : Session) :
  within c s -> (currentPos s < length c)%nat ->
  colons seen c <> None ->
  (value_state (stateIterator s) -> colons seen (firstn (currentPos s) c) = Some true) ->
  scan_agrees (stateIterator s) c (currentPos s) /\
  (value_state (stateIterator (loop_body lib_ts c s)) ->
   colons seen (firstn (currentPos (loop_body lib_ts c s)) c) = Some true).
Proof.
  intros (P & Sh & G) L H V.
  assert (Rest : value_state (stateIterator s) ->
                 colons true (skipn (currentPos s) c) <> None).
  { intros Q. destruct (colons_split seen c (currentPos s) H) as (g & G1 & G2).
    rewrite (V Q) in G1. now inversion G1; subst. }
  assert (Whole : forall bs, skipn (currentPos s) c = bs ->
            value_state (stateIterator s) ->
            (forall x, In x bs -> lineEndChar x = false) ->
            colons seen (firstn (length c) c) = Some true).
  { intros bs E Q N. rewrite firstn_all.
    rewrite <- (firstn_skipn (currentPos s) c), colons_app, (V Q), E.
    apply colons_no_line_end; auto. rewrite <- E. now apply Rest. }
  split.
  - destruct (stateIterator s) as [| | | | | |[|name] [|] skip|[|name] [|] skip buffer rem];
      simpl; auto; apply colons_same_stop, Rest; exact I.
  - rewrite loop_body_result. unfold loop_result.
    destruct (stateIterator s) as [[| |name| |ns]| |ch q|ns| | |from pr skip|from pr skip buffer rem]
      eqn:St; cbn [next in_chunk in_pos value_predicate].
    + simpl. contradiction.
    + simpl. contradiction.
    + simpl. intros _. now apply V.
    + simpl. contradiction.
    + simpl. contradiction.
    + destruct (nth_error c (currentPos s)) as [x|]; [|simpl; contradiction].
      destruct (x =? COLON); [simpl; contradiction|].
      destruct ((x =? LF) || (x =? CR)); [|simpl; contradiction].
      destruct (yield_session s (heap s) (ctx s) (fieldStart_yield1 x (currentPos s))
                  (mkOutput (Some (message (ctx s))) None)) as [E1 E2].
      cbv zeta in E1. rewrite E1. simpl. contradiction.
    + destruct (heap_alloc (heap s)). cbn [stateIterator nextState].
      unfold skipLFAfterCR. destruct (ch =? LF); simpl; contradiction.
    + simpl in Sh. subst ns. simpl. contradiction.
    + unfold skipComment_loop. destruct (findIndex _ _).
      * cbn [stateIterator nextState]. unfold skipLFAfterCR.
        destruct (_ =? LF); simpl; contradiction.
      * simpl. contradiction.
    + unfold skipComment_loop. destruct (findIndex _ _).
      * cbn [stateIterator nextState]. unfold skipLFAfterCR.
        destruct (_ =? LF); simpl; contradiction.
      * simpl. contradiction.
    + unfold collectUntilChar_loop, subarray_from.
      destruct (findIndex (holds pr) (skipn (currentPos s) c)) as [i|] eqn:F.
      * destruct (found_split _ _ _ _ F) as (Li & Px & _ & _ & E).
        destruct (add_bytes _ _ _ _).
        destruct from as [|name]; cbn [collectUntilChar_return];
          unfold fieldName_rest, fieldValue_rest.
        -- destruct (_ || _) eqn:T; cbn [stateIterator currentPos nextState pos].
           ++ unfold skipLFAfterCR. destruct (_ =? LF); simpl; contradiction.
           ++ intros _. apply (colons_after_colon seen c _ _ H E).
              ** unfold lineEndChar. now rewrite orb_comm.
              ** destruct pr; simpl in Px; [exact Px|].
                 unfold lineEndChar in Px. rewrite orb_comm in Px. congruence.
        -- cbn [stateIterator nextState]. unfold skipLFAfterCR.
           destruct (_ =? LF); simpl; contradiction.
      * pose proof (findIndex_None _ _ F) as N.
        destruct (yield_session s (heap s) (ctx s)
                    (collectUntilChar_yield1 from pr skip [] (skipn (currentPos s) c))
                    (mkOutput None (Some (length c)))) as [E1 E2].
        cbv zeta in E1, E2. rewrite E1, E2. cbn [out_pos].
        destruct from as [|name]; [simpl; contradiction|]. intros _.
        apply (Whole _ eq_refl I). intros x Hx. specialize (N x Hx).
        destruct pr; simpl in N; [|exact N].
        unfold notNameChar, lineEndChar in *.
        destruct (x =? COLON); simpl in N; [discriminate|exact N].
    + destruct (add_bytes skip _ buffer rem) as [d0 t0].
      unfold collectUntilChar_loop, subarray_from.
      destruct (findIndex (holds pr) (skipn (currentPos s) c)) as [i|] eqn:F.
      * destruct (found_split _ _ _ _ F) as (Li & Px & _ & _ & E).
        destruct (add_bytes _ _ _ _).
        destruct from as [|name]; cbn [collectUntilChar_return];
          unfold fieldName_rest, fieldValue_rest.
        -- destruct (_ || _) eqn:T; cbn [stateIterator currentPos nextState pos].
           ++ unfold skipLFAfterCR. destruct (_ =? LF); simpl; contradiction.
           ++ intros _. apply (colons_after_colon seen c _ _ H E).
              ** unfold lineEndChar. now rewrite orb_comm.
              ** destruct pr; simpl in Px; [exact Px|].
                 unfold lineEndChar in Px. rewrite orb_comm in Px. congruence.
        -- cbn [stateIterator nextState]. unfold skipLFAfterCR.
           destruct (_ =? LF); simpl; contradiction.
      * pose proof (findIndex_None _ _ F) as N.
        destruct (yield_session s (heap s) (mkCtx (message (ctx s)) d0)
                    (collectUntilChar_yield1 from pr skip t0 (skipn (currentPos s) c))
                    (mkOutput None (Some (length c)))) as [E1 E2].
        cbv zeta in E1, E2. rewrite E1, E2. cbn [out_pos].
        destruct from as [|name]; [simpl; contradiction|]. intros _.
        apply (Whole _ eq_refl I). intros x Hx. specialize (N x Hx).
        destruct pr; simpl in N; [|exact N].
        unfold notNameChar, lineEndChar in *.
        destruct (x =? COLON); simpl in N; [discriminate|exact N].
Qed.

Lemma feed_retarget (c : chunk) (seen : bool) (fuel : nat) :
  colons seen c <> None ->
  forall s, within c s ->
  (value_state (stateIterator s) -> colons seen (firstn (currentPos s) c) = Some true) ->
  feed fuel compiled_js c (as_compiled s) = as_compiled (feed fuel lib_ts c s) /\
  (value_state (stateIterator (feed fuel lib_ts c s)) ->
   colons seen (firstn (currentPos (feed fuel lib_ts c s)) c) = Some true).
Proof.
  intros H. induction fuel as [|fuel IH]; intros s W V; [split; auto|].
  unfold feed; fold feed. cbn [as_compiled currentPos].
  destruct (currentPos s <? length c)%nat eqn:L; [|split; auto].
  apply Nat.ltb_lt in L.
  destruct (loop_body_colons c seen s W L H V) as [A V'].
  rewrite (loop_body_retarget c s A).
  apply IH; auto. now apply loop_body_progress.
Qed.

Lemma read_loop_retarget (source : list chunk) :
  forall (seen : bool) (s : Session),
  rested s -> colons seen (concat source) <> None ->
  (value_state (stateIterator s) -> seen = true) ->
  read_loop compiled_js source (as_compiled s)
  = as_compiled (read_loop lib_ts source s).
Proof.
  induction source as [|c source IH]; intros seen s R H V; simpl.
  - now destruct (clientClosed s).
  - destruct (clientClosed s); [reflexivity|].
    simpl in H. rewrite colons_app in H.
    destruct (colons seen c) as [seen'|] eqn:C; [|now destruct H].
    destruct (0 <? length c)%nat eqn:E.
    + destruct (within_start c s R) as [W F].
      assert (C' : colons seen c <> None) by (rewrite C; discriminate).
      destruct (feed_retarget c seen (chunk_fuel c) C' (set_pos s O) W) as [A V'].
      { intros Q. simpl. f_equal. now apply V. }
      rewrite <- as_compiled_set_pos, A.
      pose proof (feed_reaches_end lib_ts c (chunk_fuel c) _ W F) as End.
      apply (IH seen'); auto.
      * apply (within_rested c); auto. now apply feed_within.
      * intros Q. specialize (V' Q). rewrite End, firstn_all, C in V'.
        now inversion V'.
    + apply Nat.ltb_ge in E. destruct c; [|simpl in E; lia].
      simpl in C. inversion C; subst. now apply (IH seen').
Qed.

(** X25.  The compiled copy whose [fieldValue] stops at a colon hands over
    the same messages, the same objects and ends with the same result as
    the TypeScript source, for every chunking and every consumer, when no
    line of the stream holds more than one colon. *)
Theorem builds_agree_on_one_colon_a_line
    (consumer : option nat) (source : list chunk) :
  one_colon_a_line (concat source) ->
  received (getMessagesOf compiled_js consumer source)
  = received (getMessagesOf lib_ts consumer source) /\
  finishedWith (getMessagesOf compiled_js consumer source)
  = finishedWith (getMessagesOf lib_ts consumer source).
Proof.
  intros H. unfold getMessagesOf.
  assert (N : as_compiled (new_session consumer) = new_session consumer).
  { unfold new_session. now rewrite as_compiled_consumer_reacts. }
  rewrite <- N at 1 3.
  rewrite (read_loop_retarget source false _ (rested_new_session consumer) H).
  - split; reflexivity.
  - unfold new_session.
    destruct (heap_projections_consumer
                (mkSession [[]] (mkCtx O new_TextDecoder) (created fieldStart) O
                           false None [] consumer)) as (_ & _ & -> & _).
    simpl. contradiction.
Qed.

Lemma builds_agree_on_one_colon_a_line_witness :
  one_colon_a_line (concat [codes "data: a"; codes "b" ++ [LF; LF]]) /\
  received (getMessagesOf compiled_js None [codes "data: a"; codes "b" ++ [LF; LF]])
  = received (getMessagesOf lib_ts None [codes "data: a"; codes "b" ++ [LF; LF]]).
Proof.
  assert (H : one_colon_a_line (concat [codes "data: a"; codes "b" ++ [LF; LF]]))
    by (vm_compute; discriminate).
  split; [exact H|].
  exact (proj1 (builds_agree_on_one_colon_a_line None _ H)).
Defined.

(** ** A field named [__proto__] *)

Lemma proto_line_effect (m : Message) (name : list Z) (value : option (list Z)) :
  decode_all name = PROTO -> line_effect m (Field name value) = m.
Proof.
  intros E. destruct value as [v|]; cbn [line_effect]; unfold assign, obj_set;
    rewrite E, text_eqb_refl; reflexivity.
Qed.

Lemma proto_lines_run (m : Message) (a b : list Line) (name : list Z)
    (value : option (list Z)) :
  decode_all name = PROTO ->
  lines_run m (a ++ Field name value :: b) = lines_run m (a ++ b).
Proof.
  intros E. rewrite !lines_run_app. destruct (lines_run m a) as [m1 o1].
  cbn [lines_run line_out app]. rewrite (proto_line_effect m1 name value E).
  now destruct (lines_run m1 b).
Qed.

(** X26.  A line whose name decodes to [__proto__], with or without a value,
    stores nothing: a record yields the same messages, and leaves the same
    fields in the message in progress, as the record without that line. *)
Theorem proto_line_stores_nothing
    (e : Eol) (a b : list Line) (name : list Z) (value : option (list Z)) :
  Forall well_formed a -> Forall well_formed b ->
  well_formed (Field name value) ->
  decode_all name = PROTO ->
  parse [record_bytes e (a ++ Field name value :: b)] = parse [record_bytes e (a ++ b)] /\
  pending [render e (a ++ Field name value :: b)] = pending [render e (a ++ b)].
Proof.
  intros Wa Wb W E.
  assert (W1 : Forall well_formed (a ++ Field name value :: b)).
  { apply Forall_app. split; auto. }
  assert (W2 : Forall well_formed (a ++ b)) by (apply Forall_app; split; auto).
  split.
  - rewrite !record_messages by assumption. now rewrite proto_lines_run.
  - rewrite !pending_lines by assumption. now rewrite proto_lines_run.
Qed.

Lemma proto_line_stores_nothing_witness :
  parse [record_bytes eol_CRLF
           ([Field (codes "id") (Some (codes "7"))] ++
            Field (codes "__proto__") (Some (codes " polluted")) ::
            [Field (codes "data") (Some (codes "x"))])]
  = parse [record_bytes eol_CRLF
             ([Field (codes "id") (Some (codes "7"))] ++
              [Field (codes "data") (Some (codes "x"))])].
Proof.
  apply (proto_line_stores_nothing eol_CRLF
           [Field (codes "id") (Some (codes "7"))]
           [Field (codes "data") (Some (codes "x"))]
           (codes "__proto__") (Some (codes " polluted"))).
  - well_formed_lines.
  - well_formed_lines.
  - well_formed_lines.
  - vm_compute. reflexivity.
Defined.
